(** * PredictedProcess: a shallow embedding of src/src/PredictedProcess.ts

    The class wraps one shell command.  Its methods are asynchronous: they
    return promises, register listeners on the spawned child process and on
    an AbortSignal, and chain [then]/[catch]/[finally] reactions.  The
    embedding makes that explicit:

    - the object's fields are a record ([PredictedProcess]);
    - everything the closures of the class capture or touch outside the
      object (the aborted flag of every AbortSignal, the handles returned
      by [spawn], the promises returned by [run], the job queue of promise
      reactions) is the rest of the [World];
    - each method body and each callback is a function on worlds;
    - the environment (callers, the abort controllers, the child
      processes, the job loop) is a type of [Action]s, and [step] runs the
      code that one action triggers. *)

From Stdlib Require Import ZArith String.
From stdpp Require Import base option list gmap sorting.

Local Open Scope nat_scope.

(** ** Values *)

(** An [AbortSignal] is an object: it is known by its identity.  Its
    [aborted] flag lives in the world, so two signals in the same state
    are still two signals. *)
Abbreviation Signal := nat (only parsing).

(** A handle returned by [spawn]; the n-th call of [spawn] that returns
    has handle [n], so the number of handles is the number of children
    spawned.  A call of [spawn] that throws returns no handle. *)
Abbreviation Pid := nat (only parsing).

(** The promise returned by a call of [run].  [run] is an [async]
    function: the promise the caller gets adopts the state of the promise
    that the body returns (the rejected or resolved one of lines 41 and
    46, [result] of line 53, or the one of [exec]); the model identifies
    the two. *)
Abbreviation CallId := nat (only parsing).

(** The four [Error]s the class constructs, by message, and the
    [TypeError] that [spawn] throws when it refuses its arguments: thrown
    inside the executor of the promise of [exec] (line 107), it is the
    reason that promise is rejected with. *)
Inductive RunError : Type :=
| SignalAlreadyAborted                 (* 'Signal already aborted' *)
| ProcessAborted                       (* 'Process aborted by signal.' *)
| ProcessError                         (* 'Process exited with error' *)
| ProcessExitCode (code : option Z)    (* `Process exited with code ${code}` *)
| SpawnThrew.                          (* thrown by [spawn(this.command, [])] *)

(** A settled promise of type [Promise<void>]. *)
Inductive Settled : Type :=
| Resolved
| Rejected (e : RunError).

(** [type QueueItem = { resolve, reject, signal }].  [resolve] and [reject]
    are the two closures over the promise [result] that [run] created for
    the call (lines 51-56); the item carries that promise. *)
Record QueueItem : Type := mkItem {
  promise : CallId;
  signal : Signal
}.

(** What was done with the promise returned by [exec]: [run] returned it to
    its caller (line 64), or [runNext] chained its reactions on it for a
    queue item (lines 80-97). *)
Inductive Consumer : Type :=
| Direct (call : CallId)
| Drained (item : QueueItem).

(** The terminal event whose handler ran first on a child. *)
Inductive ExitEvent : Type :=
| EvAbort
| EvError
| EvClose (code : option Z).

(** One call of [exec] in which [spawn] returned: the handle together
    with what the closures of that call capture.  [c_cleanups], [c_kills], [c_settles] and
    [c_event] record history: how often [cleanup], [kill] and
    [resolve]/[reject] were called, and which handler ran first. *)
Record Child : Type := mkChild {
  c_signal : option Signal;
  c_consumer : Consumer;
  c_listening : bool;
  c_kills : nat;
  c_cleanups : nat;
  c_settles : nat;
  c_state : option Settled;
  c_event : option ExitEvent
}.

(** The reactions of the chain [.then(..).catch(..).finally(this.runNext)]
    of [runNext]; each runs as a job of its own. *)
Inductive Microtask : Type :=
| ThenJob (item : QueueItem) (r : Settled)
| CatchJob (item : QueueItem) (r : Settled)
| FinallyJob.

(** The fields of the class. *)
Record PredictedProcess : Type := mkProcess {
  id : nat;
  command : string;
  _childProcess : option Pid;
  _memoize : bool;
  queue : list QueueItem;
  successfulList : list Signal
}.

Record World : Type := mkWorld {
  this : PredictedProcess;
  aborted : gset Signal;
  children : list Child;
  promises : list (option Settled);
  microtasks : list Microtask
}.

#[global] Instance RunError_eq_dec : EqDecision RunError.
Proof. solve_decision. Defined.
#[global] Instance Settled_eq_dec : EqDecision Settled.
Proof. solve_decision. Defined.
#[global] Instance QueueItem_eq_dec : EqDecision QueueItem.
Proof. solve_decision. Defined.

(** ** Field updates *)

Definition set_childProcess (v : option Pid) (p : PredictedProcess) : PredictedProcess :=
  mkProcess (id p) (command p) v (_memoize p) (queue p) (successfulList p).

Definition set_memoize (v : bool) (p : PredictedProcess) : PredictedProcess :=
  mkProcess (id p) (command p) (_childProcess p) v (queue p) (successfulList p).

Definition set_queue (v : list QueueItem) (p : PredictedProcess) : PredictedProcess :=
  mkProcess (id p) (command p) (_childProcess p) (_memoize p) v (successfulList p).

Definition set_successfulList (v : list Signal) (p : PredictedProcess) : PredictedProcess :=
  mkProcess (id p) (command p) (_childProcess p) (_memoize p) (queue p) v.

Definition with_this (f : PredictedProcess -> PredictedProcess) (w : World) : World :=
  mkWorld (f (this w)) (aborted w) (children w) (promises w) (microtasks w).

Definition with_aborted (v : gset Signal) (w : World) : World :=
  mkWorld (this w) v (children w) (promises w) (microtasks w).

Definition with_children (v : list Child) (w : World) : World :=
  mkWorld (this w) (aborted w) v (promises w) (microtasks w).

Definition with_promises (v : list (option Settled)) (w : World) : World :=
  mkWorld (this w) (aborted w) (children w) v (microtasks w).

Definition with_microtasks (v : list Microtask) (w : World) : World :=
  mkWorld (this w) (aborted w) (children w) (promises w) v.

(** ** Promises *)

(** Settle the promise of a call.  A promise that is already settled
    ignores every later [resolve] and [reject]. *)
Definition settle (k : CallId) (r : Settled) (w : World) : World :=
  match promises w !! k with
  | Some None => with_promises (<[k := Some r]> (promises w)) w
  | _ => w
  end.

(** Schedule a reaction at the end of the job queue. *)
Definition enqueue (m : Microtask) (w : World) : World :=
  with_microtasks (microtasks w ++ [m]) w.

(** ** exec (lines 104-143) *)

(** [cleanup] (lines 117-122): remove the listeners of the handle, kill
    it, empty the slot, remove [onAbort] from the signal. *)
Definition cleaned (c : Child) : Child :=
  mkChild (c_signal c) (c_consumer c) false (S (c_kills c)) (S (c_cleanups c))
          (c_settles c) (c_state c) (c_event c).

Definition cleanup (pid : Pid) (w : World) : World :=
  with_this (set_childProcess None)
    (with_children (alter cleaned pid (children w)) w).

(** [resolve()] or [reject(err)] of the promise that [exec] returned.  The
    first call settles it and passes the result on to its consumer: the
    promise of the call for a direct execution, the first reaction of the
    chain for a drained one. *)
Definition settled_with (r : Settled) (c : Child) : Child :=
  mkChild (c_signal c) (c_consumer c) (c_listening c) (c_kills c) (c_cleanups c)
          (S (c_settles c))
          (match c_state c with None => Some r | Some r' => Some r' end)
          (c_event c).

Definition settle_exec (pid : Pid) (r : Settled) (w : World) : World :=
  match children w !! pid with
  | None => w
  | Some c =>
    let w1 := with_children (alter (settled_with r) pid (children w)) w in
    match c_state c with
    | Some _ => w1
    | None =>
      match c_consumer c with
      | Direct k => settle k r w1
      | Drained item => enqueue (ThenJob item r) w1
      end
    end
  end.

Definition noted (ev : ExitEvent) (c : Child) : Child :=
  mkChild (c_signal c) (c_consumer c) (c_listening c) (c_kills c) (c_cleanups c)
          (c_settles c) (c_state c)
          (match c_event c with None => Some ev | Some ev' => Some ev' end).

Definition note (pid : Pid) (ev : ExitEvent) (w : World) : World :=
  with_children (alter (noted ev) pid (children w)) w.

(** [onAbort] (lines 111-114). *)
Definition onAbort (pid : Pid) (w : World) : World :=
  settle_exec pid (Rejected ProcessAborted) (cleanup pid (note pid EvAbort w)).

(** The ['error'] listener (lines 128-131). *)
Definition onError (pid : Pid) (w : World) : World :=
  settle_exec pid (Rejected ProcessError) (cleanup pid (note pid EvError w)).

(** The ['close'] listener (lines 134-141); [code] is [number | null]. *)
Definition onClose (pid : Pid) (code : option Z) (w : World) : World :=
  let w1 := cleanup pid (note pid (EvClose code) w) in
  if decide (code = Some 0%Z)
  then settle_exec pid Resolved w1
  else settle_exec pid (Rejected (ProcessExitCode code)) w1.

Definition fresh_child (sig : option Signal) (k : Consumer) : Child :=
  mkChild sig k true 0 0 0 None None.

(** [spawn(this.command, [])] (line 107) checks its arguments before it
    creates a handle: it throws a [TypeError] when the command is the
    empty string and when it holds a NUL character.  Every other failure
    to start the command is reported by the ['error'] event of the handle
    that [spawn] returns. *)
Fixpoint has_nul (s : string) : bool :=
  match s with
  | EmptyString => false
  | String a s' => if Ascii.eqb a Ascii.zero then true else has_nul s'
  end.

Definition spawn_throws (cmd : string) : bool :=
  match cmd with
  | EmptyString => true
  | String _ _ => has_nul cmd
  end.

(** [exec(signal)].  The body is the executor of a new promise and
    [spawn] is its first statement.  When [spawn] throws, the executor
    ends there and the promise is rejected with what was thrown: no
    handle is stored in [_childProcess], no listener is attached, and
    neither [cleanup] nor [kill] ever runs for this call.  Otherwise the
    handle is stored in [_childProcess] and [onAbort] and the two
    listeners are attached.  [k] says what the caller does with the
    returned promise: a rejected one rejects the promise of a direct call
    (it is that promise), and schedules the first reaction of the chain
    of a drained item at once. *)
Definition exec (sig : option Signal) (k : Consumer) (w : World) : World :=
  if spawn_throws (command (this w)) then
    match k with
    | Direct call => settle call (Rejected SpawnThrew) w
    | Drained item => enqueue (ThenJob item (Rejected SpawnThrew)) w
    end
  else
    let pid := length (children w) in
    with_this (set_childProcess (Some pid))
      (with_children (children w ++ [fresh_child sig k]) w).

(** ** runNext (lines 71-99) *)

Definition runNext (w : World) : World :=
  match _childProcess (this w) with
  | Some _ => w
  | None =>
    match queue (this w) with
    | [] => w
    | item :: rest =>
      let w1 := with_this (set_queue rest) w in
      if _memoize (this w)
      then exec (Some (signal item)) (Drained item) w1
      else w1
    end
  end.

(** The callback of [filter] (lines 88-93), run over the remaining queue:
    an element with the same signal is resolved and dropped. *)
Fixpoint resolveSame (sig : Signal) (q : list QueueItem) (w : World)
  : list QueueItem * World :=
  match q with
  | [] => ([], w)
  | elm :: q' =>
    if decide (signal elm = sig)
    then resolveSame sig q' (settle (promise elm) Resolved w)
    else let (kept, w') := resolveSame sig q' w in (elm :: kept, w')
  end.

(** The [then] callback (lines 81-95). *)
Definition onFulfilled (item : QueueItem) (w : World) : World :=
  let w1 := with_this (fun p => set_successfulList (successfulList p ++ [signal item]) p) w in
  let w2 := settle (promise item) Resolved w1 in
  let (kept, w3) := resolveSame (signal item) (queue (this w2)) w2 in
  with_this (set_queue kept) w3.

(** The [catch] callback (line 96). *)
Definition onRejected (item : QueueItem) (e : RunError) (w : World) : World :=
  settle (promise item) (Rejected e) w.

(** ** run (lines 38-66) and memoize (lines 154-158) *)

Definition new_promise (s : option Settled) (w : World) : World :=
  with_promises (promises w ++ [s]) w.

Definition is_aborted (sig : option Signal) (w : World) : bool :=
  match sig with
  | Some s => bool_decide (s ∈ aborted w)
  | None => false
  end.

Definition is_successful (sig : option Signal) (w : World) : bool :=
  match sig with
  | Some s => _memoize (this w) && bool_decide (s ∈ successfulList (this w))
  | None => false
  end.

Definition run (sig : option Signal) (w : World) : World * CallId :=
  let k := length (promises w) in
  if is_aborted sig w then
    (new_promise (Some (Rejected SignalAlreadyAborted)) w, k)
  else if is_successful sig w then
    (new_promise (Some Resolved) w, k)
  else
    match sig with
    | Some s =>
      if _memoize (this w) then
        let w1 := new_promise None w in
        let w2 := with_this (fun p => set_queue (queue p ++ [mkItem k s]) p) w1 in
        (runNext w2, k)
      else (exec sig (Direct k) (new_promise None w), k)
    | None => (exec sig (Direct k) (new_promise None w), k)
    end.

Definition memoize (w : World) : World :=
  with_this (set_memoize true) w.

(** [new PredictedProcess(id, command)] in a world where nothing has
    happened yet. *)
Definition create (i : nat) (cmd : string) : World :=
  mkWorld (mkProcess i cmd None false [] []) ∅ [] [] [].

(** ** The environment *)

(** [controller.abort()] on the controller of [sig]: the first call sets
    the flag and dispatches ['abort'] to the listeners still attached, in
    the order they were added; a later call does nothing. *)
Definition hears (sig : Signal) (c : Child) : bool :=
  c_listening c && bool_decide (c_signal c = Some sig).

Definition dispatchAbort (sig : Signal) (w : World) (pid : Pid) : World :=
  match children w !! pid with
  | Some c => if hears sig c then onAbort pid w else w
  | None => w
  end.

Definition abort (sig : Signal) (w : World) : World :=
  if bool_decide (sig ∈ aborted w) then w
  else foldl (dispatchAbort sig) (with_aborted ({[sig]} ∪ aborted w) w)
             (seq 0 (length (children w))).

(** A handle emits ['close'] or ['error']; without listeners nothing runs. *)
Definition emitClose (pid : Pid) (code : option Z) (w : World) : World :=
  match children w !! pid with
  | Some c => if c_listening c then onClose pid code w else w
  | None => w
  end.

Definition emitError (pid : Pid) (w : World) : World :=
  match children w !! pid with
  | Some c => if c_listening c then onError pid w else w
  | None => w
  end.

(** The job loop runs the oldest reaction. *)
Definition tick (w : World) : World :=
  match microtasks w with
  | [] => w
  | m :: ms =>
    let w1 := with_microtasks ms w in
    match m with
    | ThenJob item Resolved => enqueue (CatchJob item Resolved) (onFulfilled item w1)
    | ThenJob item (Rejected e) => enqueue (CatchJob item (Rejected e)) w1
    | CatchJob item Resolved => enqueue FinallyJob w1
    | CatchJob item (Rejected e) => enqueue FinallyJob (onRejected item e w1)
    | FinallyJob => runNext w1
    end
  end.

Inductive Action : Type :=
| CallRun (sig : option Signal)
| CallMemoize
| Abort (sig : Signal)
| Close (pid : Pid) (code : option Z)
| Error (pid : Pid)
| Tick.

Definition step (w : World) (a : Action) : World :=
  match a with
  | CallRun sig => fst (run sig w)
  | CallMemoize => memoize w
  | Abort sig => abort sig w
  | Close pid code => emitClose pid code w
  | Error pid => emitError pid w
  | Tick => tick w
  end.

Definition steps (w : World) (tr : list Action) : World := foldl step w tr.

Inductive reachable : World -> Prop :=
| reach_create i cmd : reachable (create i cmd)
| reach_step w a : reachable w -> reachable (step w a).

(** Observations. *)
Definition spawns (w : World) : nat := length (children w).

Definition outcome (w : World) (k : CallId) : option Settled :=
  default None (promises w !! k).

Definition live (w : World) (pid : Pid) : bool :=
  match children w !! pid with
  | Some c => c_listening c
  | None => false
  end.

(** * Vocabulary of the proofs *)

(** The two ways [exec] ends its executor: [spawn] has returned a handle,
    or it has thrown. *)
Definition spawned (sig : option Signal) (k : Consumer) (w : World) : World :=
  with_this (set_childProcess (Some (length (children w))))
    (with_children (children w ++ [fresh_child sig k]) w).

Definition thrown (k : Consumer) (w : World) : World :=
  match k with
  | Direct call => settle call (Rejected SpawnThrew) w
  | Drained item => enqueue (ThenJob item (Rejected SpawnThrew)) w
  end.

(** An object whose command [spawn] refuses never has a child, never
    holds a handle and never keeps an item in the queue. *)
Definition Barren (w : World) : Prop :=
  spawn_throws (command (this w)) = true ->
  children w = [] /\ _childProcess (this w) = None /\ queue (this w) = [].

(** The three handlers of [exec] change the child they were attached to
    in the same way: note the event, clean up, settle. *)
Definition exited (ev : ExitEvent) (r : Settled) (c : Child) : Child :=
  settled_with r (cleaned (noted ev c)).

(** The result that the ['close'] listener passes on. *)
Definition closeResult (code : option Z) : Settled :=
  if decide (code = Some 0%Z) then Resolved else Rejected (ProcessExitCode code).

(** The result that each handler of [exec] passes on. *)
Definition resultOf (ev : ExitEvent) : Settled :=
  match ev with
  | EvAbort => Rejected ProcessAborted
  | EvError => Rejected ProcessError
  | EvClose code => closeResult code
  end.

(** The three handlers of [exec] are one procedure. *)
Definition handler (ev : ExitEvent) (r : Settled) (pid : Pid) (w : World) : World :=
  settle_exec pid r (cleanup pid (note pid ev w)).

(** What the dispatch of ['abort'] does to one child. *)
Definition aborting (sig : Signal) (c : Child) : Child :=
  if hears sig c then exited EvAbort (Rejected ProcessAborted) c else c.

(** The promise of the call that an execution was made for. *)
Definition consumer_call (k : Consumer) : CallId :=
  match k with
  | Direct c => c
  | Drained item => promise item
  end.

(** A promise returned by [run] and not yet settled is held by exactly one
    party that will settle it: an item in the queue, a running execution
    (for its caller or for the item it was drained for), or a scheduled
    reaction of the chain. *)
Definition child_holder (c : Child) : list CallId :=
  match c_state c with
  | None => [consumer_call (c_consumer c)]
  | Some _ => []
  end.

Definition task_holder (m : Microtask) : list CallId :=
  match m with
  | ThenJob item _ => [promise item]
  | CatchJob item (Rejected _) => [promise item]
  | CatchJob _ Resolved => []
  | FinallyJob => []
  end.

Definition holders (w : World) : list CallId :=
  (promise <$> queue (this w)) ++ (children w ≫= child_holder)
    ++ (microtasks w ≫= task_holder).

(** The holders are distinct, the promises they hold are pending, and the
    promise of a direct execution that has settled has its result. *)
Record Owned (w : World) : Prop := mkOwned {
  owned_nodup : NoDup (holders w);
  owned_pending : forall k, k ∈ holders w -> promises w !! k = Some None;
  owned_direct : forall pid c k r,
    children w !! pid = Some c -> c_consumer c = Direct k ->
    c_state c = Some r -> promises w !! k = Some (Some r)
}.

(** Settling several promises with the same result. *)
Definition settle_all (ks : list CallId) (r : Settled) (w : World) : World :=
  foldl (fun w' k => settle k r w') w ks.

(** The items that the callback of [filter] resolves and drops. *)
Definition sameSignal (sig : Signal) (q : list QueueItem) : list QueueItem :=
  filter (fun elm => signal elm = sig) q.

(** The items that the callback of [filter] keeps. *)
Definition otherSignal (sig : Signal) (q : list QueueItem) : list QueueItem :=
  filter (fun elm => signal elm <> sig) q.

(** A child is either running (listeners attached, nothing has happened
    to it) or done: then [cleanup], [kill] and the settling of its promise
    each happened once, through the handler of a single event. *)
Definition child_ok (c : Child) : Prop :=
  if c_listening c
  then c_kills c = 0 /\ c_cleanups c = 0 /\ c_settles c = 0
       /\ c_state c = None /\ c_event c = None
  else c_kills c = 1 /\ c_cleanups c = 1 /\ c_settles c = 1
       /\ exists ev, c_event c = Some ev /\ c_state c = Some (resultOf ev).

(** Every child of the world is in one of these two states. *)
Definition Tidy (w : World) : Prop := Forall child_ok (children w).

(** A step leaves a child alone or runs one of its three handlers, and
    only on a running child; new children are added at the end. *)
Definition child_le (c c' : Child) : Prop :=
  c' = c \/ (c_listening c = true /\ exists ev, c' = exited ev (resultOf ev) c).

(** The same for a table of children, which only grows. *)
Definition children_le (l l' : list Child) : Prop :=
  forall pid c, l !! pid = Some c -> exists c', l' !! pid = Some c' /\ child_le c c'.

(** The fields other than the slot and the queue. *)
Definition same_config (p p' : PredictedProcess) : Prop :=
  id p' = id p /\ command p' = command p /\ _memoize p' = _memoize p
  /\ successfulList p' = successfulList p.

(** Once the promise of a drained execution has settled, its result is on
    its way through the chain of reactions to the promise of the item, or
    has arrived there. *)
Definition on_its_way (w : World) (item : QueueItem) (r : Settled) : Prop :=
  ThenJob item r ∈ microtasks w
  \/ (exists e, r = Rejected e /\ CatchJob item r ∈ microtasks w)
  \/ promises w !! promise item = Some (Some r).

(** This holds for every drained execution that has settled. *)
Definition Chained (w : World) : Prop :=
  forall pid c item r,
    children w !! pid = Some c -> c_consumer c = Drained item ->
    c_state c = Some r -> on_its_way w item r.

(** A settled promise keeps its result in every later world. *)
Definition kept (w w' : World) : Prop :=
  forall k r, promises w !! k = Some (Some r) -> promises w' !! k = Some (Some r).

(** The job loop runs [n] reactions. *)
Definition ticks (n : nat) : list Action := replicate n Tick.

(** No execution of the object was a direct one. *)
Definition AllDrained (w : World) : Prop :=
  forall pid c, children w !! pid = Some c -> exists item, c_consumer c = Drained item.

(** The slot holds the running execution. *)
Definition SlotOwned (w : World) : Prop :=
  forall pid c, children w !! pid = Some c -> c_listening c = true ->
                _childProcess (this w) = Some pid.

(** The worlds that differ from [w] in the aborted flags and in
    [_memoize] only. *)
Definition same_but_flags (w w' : World) : Prop :=
  queue (this w') = queue (this w)
  /\ _childProcess (this w') = _childProcess (this w)
  /\ microtasks w' = microtasks w
  /\ children w' = children w /\ promises w' = promises w.

(** ** Objects by reference *)

(** The objects of the class in the heap of a program, a reference being
    an index.  [memoize] is a method: it updates the object it is called
    on and returns a reference. *)
Module Heap.

Definition memoize (self : nat) (h : list PredictedProcess)
  : list PredictedProcess * nat :=
  (alter (set_memoize true) self h, self).

End Heap.

(** ** Vocabulary of the further properties *)

(** The call that a child was executed for. *)
Definition child_call (c : Child) : CallId := consumer_call (c_consumer c).

(** The call of a drained child; nothing for a direct one. *)
Definition drained_call (c : Child) : list CallId :=
  match c_consumer c with
  | Drained item => [promise item]
  | Direct _ => []
  end.

(** The calls that were executed, by spawn, then the calls that wait. *)
Definition calls (w : World) : list CallId :=
  (child_call <$> children w) ++ (promise <$> queue (this w)).

(** The calls that went or go through the queue: those that were drained,
    in the order of their spawns, then those that wait, in the order of
    the queue. *)
Definition fifo (w : World) : list CallId :=
  (children w ≫= drained_call) ++ (promise <$> queue (this w)).

(** No execution of the object was a drained one. *)
Definition AllDirect (w : World) : Prop :=
  forall pid c, children w !! pid = Some c -> exists k, c_consumer c = Direct k.

(** The execution in the slot is running. *)
Definition SlotLive (w : World) : Prop :=
  forall p, _childProcess (this w) = Some p -> live w p = true.

(** A pending promise has a holder. *)
Definition Held (w : World) : Prop :=
  forall k, promises w !! k = Some None -> k ∈ holders w.

(** A first reaction of a chain comes from a drained execution that has
    settled with the result it carries, or from a [spawn] that threw. *)
Definition Sourced (w : World) : Prop :=
  forall item r, ThenJob item r ∈ microtasks w ->
    (r = Rejected SpawnThrew /\ spawn_throws (command (this w)) = true)
    \/ exists pid c, children w !! pid = Some c /\ c_consumer c = Drained item
                     /\ c_state c = Some r.

(** While the slot is empty and an item waits, a reaction is scheduled. *)
Definition Awake (w : World) : Prop :=
  _childProcess (this w) = None -> queue (this w) <> [] -> microtasks w <> [].

(** The reactions that a scheduled reaction stands for: the first of a
    chain is followed by [catch] and [finally]. *)
Definition job_weight (m : Microtask) : nat :=
  match m with
  | ThenJob _ _ => 3
  | CatchJob _ _ => 2
  | FinallyJob => 1
  end.

(** The number of ticks after which the job loop is idle. *)
Definition weight (w : World) : nat := sum_list_with job_weight (microtasks w).

(** A rejecting [catch] reaction comes from a drained execution that has
    settled with the error it carries, or from a [spawn] that threw. *)
Definition Passed (w : World) : Prop :=
  forall item e, CatchJob item (Rejected e) ∈ microtasks w ->
    (e = SpawnThrew /\ spawn_throws (command (this w)) = true)
    \/ exists pid c, children w !! pid = Some c /\ c_consumer c = Drained item
                     /\ c_state c = Some (Rejected e).

(** What can have settled the promise of call [k] with [r]: the refusal
    of an aborted signal at the entry of [run], a [spawn] that threw (the
    command of the object is then one that [spawn] refuses), or an
    execution that ended with this result: the one made for the call or,
    for a success, a drained one. *)
Definition caused (w : World) (k : CallId) (r : Settled) : Prop :=
  r = Rejected SignalAlreadyAborted
  \/ (r = Rejected SpawnThrew /\ spawn_throws (command (this w)) = true)
  \/ exists pid c ev,
       children w !! pid = Some c /\ c_event c = Some ev /\ resultOf ev = r
       /\ (child_call c = k \/ (r = Resolved /\ exists item, c_consumer c = Drained item)).



(** Every settled promise has such a cause. *)
Definition Justified (w : World) : Prop :=
  forall k r, promises w !! k = Some (Some r) -> caused w k r.

(** Every call that was executed or waits is a call that was made, none
    appears twice, and those that went through the queue are in the order
    in which they were made. *)
Record Ordered (w : World) : Prop := mkOrdered {
  ord_bound : Forall (fun k => k < length (promises w)) (calls w);
  ord_nodup : NoDup (calls w);
  ord_sorted : StronglySorted lt (fifo w)
}.

(** * Proofs *)

(** ** What each callback touches *)

Section Frames.
Implicit Types (w : World) (k : CallId) (pid : Pid) (r : Settled).

(** The two ends of [exec]. *)
Lemma exec_cases sig (k0 : Consumer) w :
  (spawn_throws (command (this w)) = true /\ exec sig k0 w = thrown k0 w)
  \/ (spawn_throws (command (this w)) = false /\ exec sig k0 w = spawned sig k0 w).
Proof.
  unfold exec, thrown, spawned. destruct (spawn_throws (command (this w))); auto.
Qed.

Lemma exec_spawned sig (k0 : Consumer) w :
  spawn_throws (command (this w)) = false -> exec sig k0 w = spawned sig k0 w.
Proof. intros H. unfold exec, spawned. by rewrite H. Qed.

Lemma exec_thrown sig (k0 : Consumer) w :
  spawn_throws (command (this w)) = true -> exec sig k0 w = thrown k0 w.
Proof. intros H. unfold exec, thrown. by rewrite H. Qed.

Lemma settle_this k r w : this (settle k r w) = this w.
Proof. unfold settle. by destruct (promises w !! k) as [[?|]|]. Qed.

Lemma settle_aborted k r w : aborted (settle k r w) = aborted w.
Proof. unfold settle. by destruct (promises w !! k) as [[?|]|]. Qed.

Lemma settle_children k r w : children (settle k r w) = children w.
Proof. unfold settle. by destruct (promises w !! k) as [[?|]|]. Qed.

Lemma settle_microtasks k r w : microtasks (settle k r w) = microtasks w.
Proof. unfold settle. by destruct (promises w !! k) as [[?|]|]. Qed.

Lemma settle_length k r w : length (promises (settle k r w)) = length (promises w).
Proof.
  unfold settle. destruct (promises w !! k) as [[?|]|]; simpl; auto.
  apply length_insert.
Qed.

(** A pending promise takes the result. *)
Lemma settle_pending k r w :
  promises w !! k = Some None -> promises (settle k r w) !! k = Some (Some r).
Proof.
  intros H. unfold settle. rewrite H. simpl.
  apply list_lookup_insert_eq. by eapply lookup_lt_Some.
Qed.

(** A settled promise keeps its result. *)
Lemma settle_settled k r r' w :
  promises w !! k = Some (Some r') -> settle k r w = w.
Proof. intros H. unfold settle. by rewrite H. Qed.

(** Other promises are not touched. *)
Lemma settle_other k j r w :
  k <> j -> promises (settle k r w) !! j = promises w !! j.
Proof.
  intros H. unfold settle. destruct (promises w !! k) as [[?|]|]; simpl; auto.
  by apply list_lookup_insert_ne.
Qed.

(** Whatever [settle] does, a settled promise stays as it is. *)
Lemma settle_keeps k j r r' w :
  promises w !! j = Some (Some r') -> promises (settle k r w) !! j = Some (Some r').
Proof.
  intros H. destruct (decide (k = j)) as [->|Hne].
  - by rewrite (settle_settled _ _ _ _ H).
  - by rewrite settle_other.
Qed.

Lemma microtasks_enqueue m w : microtasks (enqueue m w) = microtasks w ++ [m].
Proof. done. Qed.

Lemma children_enqueue m w : children (enqueue m w) = children w.
Proof. done. Qed.

Lemma this_enqueue m w : this (enqueue m w) = this w.
Proof. done. Qed.

(** A [spawn] that throws leaves the object, the children and the
    signals as they are. *)
Lemma this_thrown (k0 : Consumer) w : this (thrown k0 w) = this w.
Proof. destruct k0; simpl; [apply settle_this | done]. Qed.

Lemma children_thrown (k0 : Consumer) w : children (thrown k0 w) = children w.
Proof. destruct k0; simpl; [apply settle_children | done]. Qed.

Lemma aborted_thrown (k0 : Consumer) w : aborted (thrown k0 w) = aborted w.
Proof. destruct k0; simpl; [apply settle_aborted | done]. Qed.

Lemma children_settle_exec pid r w :
  children (settle_exec pid r w) = alter (settled_with r) pid (children w).
Proof.
  unfold settle_exec. destruct (children w !! pid) as [c|] eqn:E.
  - destruct (c_state c); [done|].
    destruct (c_consumer c); [by rewrite settle_children | done].
  - symmetry. apply list_eq. intros j.
    destruct (decide (pid = j)) as [->|Hne].
    + by rewrite list_lookup_alter_eq, E.
    + by rewrite list_lookup_alter_ne.
Qed.

Lemma this_settle_exec pid r w : this (settle_exec pid r w) = this w.
Proof.
  unfold settle_exec. destruct (children w !! pid) as [c|]; [|done].
  destruct (c_state c); [done|].
  destruct (c_consumer c); [by rewrite settle_this | done].
Qed.

Lemma aborted_settle_exec pid r w : aborted (settle_exec pid r w) = aborted w.
Proof.
  unfold settle_exec. destruct (children w !! pid) as [c|]; [|done].
  destruct (c_state c); [done|].
  destruct (c_consumer c); [by rewrite settle_aborted | done].
Qed.

Lemma children_cleanup pid w :
  children (cleanup pid w) = alter cleaned pid (children w).
Proof. done. Qed.

Lemma children_note pid ev w :
  children (note pid ev w) = alter (noted ev) pid (children w).
Proof. done. Qed.

Lemma children_onAbort pid w :
  children (onAbort pid w)
  = alter (exited EvAbort (Rejected ProcessAborted)) pid (children w).
Proof.
  unfold onAbort. rewrite children_settle_exec, children_cleanup, children_note.
  unfold exited. by rewrite !list_alter_alter_eq.
Qed.

Lemma children_onError pid w :
  children (onError pid w)
  = alter (exited EvError (Rejected ProcessError)) pid (children w).
Proof.
  unfold onError. rewrite children_settle_exec, children_cleanup, children_note.
  unfold exited. by rewrite !list_alter_alter_eq.
Qed.

Lemma onClose_unfold pid code w :
  onClose pid code w
  = settle_exec pid (closeResult code) (cleanup pid (note pid (EvClose code) w)).
Proof. unfold onClose, closeResult. by destruct (decide (code = Some 0%Z)). Qed.

Lemma children_onClose pid code w :
  children (onClose pid code w)
  = alter (exited (EvClose code) (closeResult code)) pid (children w).
Proof.
  rewrite onClose_unfold, children_settle_exec, children_cleanup, children_note.
  unfold exited. by rewrite !list_alter_alter_eq.
Qed.

Lemma this_onAbort pid w : this (onAbort pid w) = set_childProcess None (this w).
Proof. unfold onAbort. by rewrite this_settle_exec. Qed.

Lemma this_onError pid w : this (onError pid w) = set_childProcess None (this w).
Proof. unfold onError. by rewrite this_settle_exec. Qed.

Lemma this_onClose pid code w :
  this (onClose pid code w) = set_childProcess None (this w).
Proof. rewrite onClose_unfold. by rewrite this_settle_exec. Qed.

End Frames.

(** ** Who waits for which promise *)

Section ListFacts.
Context {A B : Type}.
Implicit Types (l : list A) (f : A -> list B) (g : A -> A).

Lemma delete_alter_same g l i : delete i (alter g i l) = delete i l.
Proof.
  revert i. induction l as [|x l IH]; intros [|i]; simpl; auto.
  f_equal. apply IH.
Qed.

Lemma bind_lookup_perm f l i c :
  l !! i = Some c -> l ≫= f ≡ₚ f c ++ (delete i l ≫= f).
Proof.
  intros H. rewrite (delete_Permutation l i c H) at 1. by rewrite bind_cons.
Qed.

Lemma bind_alter_perm f g l i c :
  l !! i = Some c -> alter g i l ≫= f ≡ₚ f (g c) ++ (delete i l ≫= f).
Proof.
  intros H.
  assert (alter g i l !! i = Some (g c)) as H'.
  { by rewrite list_lookup_alter_eq, H. }
  rewrite (bind_lookup_perm f _ i _ H'). by rewrite delete_alter_same.
Qed.

Lemma bind_alter_same f g l i :
  (forall x, l !! i = Some x -> f (g x) = f x) -> alter g i l ≫= f = l ≫= f.
Proof.
  revert i. induction l as [|x l IH]; intros [|i] H; auto.
  - change (alter g 0 (x :: l)) with (g x :: l).
    rewrite !bind_cons. by rewrite H.
  - change (alter g (S i) (x :: l)) with (x :: alter g i l).
    rewrite !bind_cons. rewrite IH; [done|]. intros y Hy. by apply H.
Qed.

Lemma alter_missing g l i : l !! i = None -> alter g i l = l.
Proof.
  revert i. induction l as [|x l IH]; intros [|i]; simpl; auto; [done|].
  intros H. f_equal. by apply IH.
Qed.

Lemma lookup_snoc_new l x : (l ++ [x]) !! length l = Some x.
Proof. by rewrite list_lookup_middle. Qed.

Lemma lookup_snoc_old l x i y : l !! i = Some y -> (l ++ [x]) !! i = Some y.
Proof. intros H. rewrite lookup_app_l; [done|]. by eapply lookup_lt_Some. Qed.
End ListFacts.

(** Bring the single elements of both sides of a permutation to the front. *)
Ltac perm_front :=
  rewrite <- ?app_assoc; rewrite <- ?Permutation_middle; rewrite ?app_nil_r;
  try reflexivity.

Section OwnedFacts.
Implicit Types (w : World) (k : CallId) (pid : Pid) (r : Settled).

Lemma holders_lt w k : Owned w -> k ∈ holders w -> k < length (promises w).
Proof. intros O H. eapply lookup_lt_Some, owned_pending; eauto. Qed.

Lemma owned_create i cmd : Owned (create i cmd).
Proof.
  split; unfold holders; simpl.
  - constructor.
  - intros k H. by apply elem_of_nil in H.
  - intros pid c k r H. by rewrite lookup_nil in H.
Qed.

(** A new promise does not disturb the others. *)
Lemma owned_new_promise s w : Owned w -> Owned (new_promise s w).
Proof.
  intros [N P D]. split; unfold holders in *; simpl.
  - done.
  - intros k H. by apply lookup_snoc_old, P.
  - intros pid c k r H1 H2 H3. eapply lookup_snoc_old, D; eauto.
Qed.

(** Changing fields of [this] other than the queue, or the aborted
    flags, is invisible here. *)
Lemma owned_ext w w' :
  holders w' ≡ₚ holders w -> promises w' = promises w ->
  children w' = children w -> Owned w -> Owned w'.
Proof.
  intros Hh Hp Hc [N P D]. split.
  - by rewrite Hh.
  - intros k H. rewrite Hp. apply P. by rewrite <- Hh.
  - intros pid c k r. rewrite Hp, Hc. apply D.
Qed.

(** When [spawn] returns, [exec] hands the promise of the call to the
    new child. *)
Lemma holders_spawned sig (k0 : Consumer) w :
  holders (spawned sig k0 w) ≡ₚ consumer_call k0 :: holders w.
Proof.
  unfold holders, spawned; simpl. rewrite bind_app.
  change ([fresh_child sig k0] ≫= child_holder) with [consumer_call k0].
  rewrite (Permutation_app_comm (children w ≫= child_holder)). simpl.
  symmetry. apply Permutation_middle.
Qed.

(** When [spawn] throws, the promise of a direct call is settled and has
    no holder; the promise of an item goes to the first reaction. *)
Lemma holders_thrown (k0 : Consumer) w :
  holders (thrown k0 w)
  ≡ₚ match k0 with Direct _ => [] | Drained item => [promise item] end ++ holders w.
Proof.
  destruct k0 as [k|item]; unfold thrown.
  - unfold holders. by rewrite settle_this, settle_children, settle_microtasks.
  - unfold holders, enqueue; simpl. rewrite bind_app.
    change ([ThenJob item (Rejected SpawnThrew)] ≫= task_holder) with [promise item].
    rewrite !app_assoc. by rewrite <- Permutation_cons_append.
Qed.

Lemma owned_spawned sig (k0 : Consumer) w :
  Owned w -> promises w !! consumer_call k0 = Some None ->
  consumer_call k0 ∉ holders w -> Owned (spawned sig k0 w).
Proof.
  intros [N P D] Hp Hn. split.
  - rewrite holders_spawned. by apply NoDup_cons.
  - intros k. rewrite holders_spawned. intros [->|H]%elem_of_cons; auto.
  - intros pid c k r. unfold spawned; simpl.
    intros [H|[_ H]]%lookup_app_Some; [by eapply D|].
    apply list_lookup_singleton_Some in H as [_ <-]. done.
Qed.

Lemma owned_thrown (k0 : Consumer) w :
  Owned w -> promises w !! consumer_call k0 = Some None ->
  consumer_call k0 ∉ holders w -> Owned (thrown k0 w).
Proof.
  intros [N P D] Hp Hn. split.
  - rewrite holders_thrown. destruct k0; [done|]. by apply NoDup_cons.
  - intros k. rewrite holders_thrown. destruct k0 as [k0|item]; simpl in *.
    + intros H. rewrite settle_other; [by apply P|]. by intros ->.
    + intros [->|H]%elem_of_cons; auto.
  - intros pid c k r. destruct k0 as [k0|item]; simpl.
    + rewrite settle_children. intros H1 H2 H3. apply settle_keeps. by eapply D.
    + apply D.
Qed.

Lemma owned_exec sig (k0 : Consumer) w :
  Owned w -> promises w !! consumer_call k0 = Some None ->
  consumer_call k0 ∉ holders w -> Owned (exec sig k0 w).
Proof.
  intros O Hp Hn. destruct (exec_cases sig k0 w) as [[_ ->]|[_ ->]].
  - by apply owned_thrown.
  - by apply owned_spawned.
Qed.

(** An update of a child that keeps its promise and its consumer. *)
Lemma owned_alter (g : Child -> Child) pid w w' :
  (forall c, children w !! pid = Some c ->
     c_state (g c) = c_state c /\ c_consumer (g c) = c_consumer c) ->
  children w' = alter g pid (children w) -> promises w' = promises w ->
  queue (this w') = queue (this w) -> microtasks w' = microtasks w ->
  Owned w -> Owned w'.
Proof.
  intros Hg Hch Hp Hq Hm O.
  assert (holders w' = holders w) as Hh.
  { unfold holders. rewrite Hch, Hq, Hm. f_equal. f_equal.
    apply bind_alter_same. intros c Hc. unfold child_holder.
    destruct (Hg c Hc) as [-> ->]. done. }
  destruct O as [N P D]. split.
  - by rewrite Hh.
  - intros k. rewrite Hh, Hp. apply P.
  - intros pid' c k r. rewrite Hch, Hp.
    destruct (decide (pid = pid')) as [<-|Hne].
    + rewrite list_lookup_alter_eq.
      destruct (children w !! pid) as [c0|] eqn:E; [|done].
      simpl. intros [= <-]. destruct (Hg c0 eq_refl) as [-> ->]. by apply (D pid).
    + rewrite list_lookup_alter_ne by done. apply D.
Qed.

Lemma owned_cleanup pid w : Owned w -> Owned (cleanup pid w).
Proof. by apply (owned_alter cleaned pid). Qed.

Lemma owned_note pid ev w : Owned w -> Owned (note pid ev w).
Proof. by apply (owned_alter (noted ev) pid). Qed.

(** [resolve]/[reject] of the promise of an execution. *)
Lemma owned_settle_exec pid r w : Owned w -> Owned (settle_exec pid r w).
Proof.
  intros O. unfold settle_exec.
  destruct (children w !! pid) as [c|] eqn:E; [|done].
  destruct (c_state c) as [r0|] eqn:Es.
  { eapply (owned_alter (settled_with r) pid w); eauto.
    intros c' Hc'. assert (c' = c) as -> by congruence.
    unfold settled_with; simpl. by rewrite Es. }
  set (w1 := with_children _ w).
  assert (holders w ≡ₚ consumer_call (c_consumer c) :: holders w1) as Hh.
  { unfold holders, w1; simpl.
    rewrite (bind_lookup_perm child_holder _ _ _ E).
    rewrite (bind_alter_perm child_holder (settled_with r) _ _ _ E).
    unfold child_holder at 1 3. simpl. rewrite Es. simpl.
    symmetry. apply Permutation_middle. }
  destruct O as [N P D].
  assert (forall pid' c' j r', children w1 !! pid' = Some c' ->
            c_consumer c' = Direct j -> c_state c' = Some r' ->
            (pid' = pid /\ j = consumer_call (c_consumer c) /\ r' = r
               /\ c_consumer c = Direct j)
            \/ (pid' <> pid /\ promises w !! j = Some (Some r'))) as Hd.
  { intros pid' c' j r'. unfold w1; simpl.
    destruct (decide (pid = pid')) as [<-|Hne].
    - rewrite list_lookup_alter_eq, E. simpl. intros [= <-]. simpl.
      rewrite Es. intros Hc [= <-]. left. by rewrite Hc.
    - rewrite list_lookup_alter_ne by done. intros. right. split; [done|].
      eapply D; eauto. }
  rewrite Hh in N. apply NoDup_cons in N as [Hk N].
  assert (promises w !! consumer_call (c_consumer c) = Some None) as Hpk.
  { apply P. rewrite Hh. left. }
  destruct (c_consumer c) as [k|item] eqn:Ec; simpl in *.
  - split.
    + unfold holders. rewrite settle_this, settle_children, settle_microtasks.
      exact N.
    + intros j. unfold holders.
      rewrite settle_this, settle_children, settle_microtasks. intros Hj.
      rewrite settle_other; [|intros ->; by apply Hk].
      apply P. rewrite Hh. by right.
    + intros pid' c' j r'. rewrite settle_children. intros H1 H2 H3.
      destruct (Hd _ _ _ _ H1 H2 H3) as [(-> & -> & -> & _)|[Hne Hp]].
      * by apply settle_pending.
      * by apply settle_keeps.
  - assert (holders (enqueue (ThenJob item r) w1) ≡ₚ holders w) as Hh'.
    { rewrite Hh. unfold holders, enqueue; simpl. rewrite bind_app.
      change ([ThenJob item r] ≫= task_holder) with [promise item].
      rewrite !app_assoc. rewrite <- Permutation_cons_append. done. }
    split.
    + rewrite Hh', Hh. by apply NoDup_cons.
    + intros j. rewrite Hh'. simpl. apply P.
    + intros pid' c' j r'. simpl. intros H1 H2 H3.
      destruct (Hd _ _ _ _ H1 H2 H3) as [(-> & -> & -> & ?)|[Hne Hp]]; done.
Qed.

Lemma settle_all_cons k ks r w :
  settle_all (k :: ks) r w = settle_all ks r (settle k r w).
Proof. done. Qed.

Lemma settle_all_this ks r w : this (settle_all ks r w) = this w.
Proof.
  revert w. induction ks as [|k ks IH]; intros w; [done|].
  by rewrite settle_all_cons, IH, settle_this.
Qed.

Lemma settle_all_children ks r w : children (settle_all ks r w) = children w.
Proof.
  revert w. induction ks as [|k ks IH]; intros w; [done|].
  by rewrite settle_all_cons, IH, settle_children.
Qed.

Lemma settle_all_microtasks ks r w : microtasks (settle_all ks r w) = microtasks w.
Proof.
  revert w. induction ks as [|k ks IH]; intros w; [done|].
  by rewrite settle_all_cons, IH, settle_microtasks.
Qed.

Lemma settle_all_aborted ks r w : aborted (settle_all ks r w) = aborted w.
Proof.
  revert w. induction ks as [|k ks IH]; intros w; [done|].
  by rewrite settle_all_cons, IH, settle_aborted.
Qed.

Lemma settle_all_other ks j r w :
  j ∉ ks -> promises (settle_all ks r w) !! j = promises w !! j.
Proof.
  revert w. induction ks as [|k ks IH]; intros w Hj; [done|].
  apply not_elem_of_cons in Hj as [Hne Hj].
  rewrite settle_all_cons, IH by done. by apply settle_other.
Qed.

Lemma settle_all_keeps ks j r r' w :
  promises w !! j = Some (Some r') ->
  promises (settle_all ks r w) !! j = Some (Some r').
Proof.
  revert w. induction ks as [|k ks IH]; intros w Hj; [done|].
  rewrite settle_all_cons. apply IH. by apply settle_keeps.
Qed.

(** Each pending promise of the list takes the result. *)
Lemma settle_all_pending ks j r w :
  j ∈ ks -> (forall k, k ∈ ks -> promises w !! k = Some None) -> NoDup ks ->
  promises (settle_all ks r w) !! j = Some (Some r).
Proof.
  revert w. induction ks as [|k ks IH]; intros w Hj Hall N.
  { by apply elem_of_nil in Hj. }
  apply NoDup_cons in N as [Hk N]. rewrite settle_all_cons.
  apply elem_of_cons in Hj as [->|Hj].
  - apply settle_all_keeps, settle_pending, Hall. left.
  - apply IH; auto.
    intros k' Hk'. rewrite settle_other; [apply Hall; by right|].
    intros ->. done.
Qed.

Lemma settle_all_promises_ext ks r w w' :
  promises w = promises w' ->
  promises (settle_all ks r w) = promises (settle_all ks r w').
Proof.
  revert w w'. induction ks as [|k ks IH]; intros w w' H; [done|].
  rewrite !settle_all_cons. apply IH. unfold settle. rewrite H.
  by destruct (promises w' !! k) as [[?|]|]; simpl.
Qed.

(** The promises settled leave the holders; the rest is as before. *)
Lemma owned_settle_all ks r w w' :
  holders w ≡ₚ ks ++ holders w' -> children w' = children w ->
  promises w' = promises (settle_all ks r w) -> Owned w -> Owned w'.
Proof.
  intros Hh Hc Hp [N P D]. rewrite Hh in N.
  apply NoDup_app in N as (Nk & Hdis & N'). split.
  - done.
  - intros j Hj. rewrite Hp, settle_all_other.
    + apply P. rewrite Hh. apply elem_of_app. by right.
    + intros Hin. by apply (Hdis j).
  - intros pid c j r'. rewrite Hc, Hp. intros H1 H2 H3.
    apply settle_all_keeps. eapply D; eauto.
Qed.

Lemma resolveSame_spec sig q w :
  resolveSame sig q w
  = (otherSignal sig q, settle_all (promise <$> sameSignal sig q) Resolved w).
Proof.
  revert w. induction q as [|elm q IH]; intros w; simpl; [done|].
  unfold sameSignal, otherSignal in *. rewrite !filter_cons.
  destruct (decide (signal elm = sig)) as [Heq|Hne].
  - rewrite IH. destruct (decide (signal elm <> sig)); [done|]. done.
  - rewrite IH. destruct (decide (signal elm <> sig)); [|done]. done.
Qed.

Lemma onFulfilled_spec item w :
  onFulfilled item w
  = with_this (fun p => set_queue (otherSignal (signal item) (queue p))
                          (set_successfulList (successfulList p ++ [signal item]) p))
      (settle_all (promise item :: (promise <$> sameSignal (signal item) (queue (this w))))
                  Resolved w).
Proof.
  unfold onFulfilled. rewrite resolveSame_spec, settle_this. simpl.
  set (w1 := with_this _ w).
  change (settle_all (promise <$> ?l) Resolved (settle ?k Resolved ?x))
    with (settle_all (k :: (promise <$> l)) Resolved x).
  set (ks := _ :: _).
  assert (forall x, settle_all ks Resolved (with_this
            (fun p => set_successfulList (successfulList p ++ [signal item]) p) x)
          = with_this (fun p => set_successfulList (successfulList p ++ [signal item]) p)
              (settle_all ks Resolved x)) as Hcomm.
  { clear. induction ks as [|k ks IH]; intros x; [done|].
    rewrite !settle_all_cons, <- IH. f_equal.
    unfold settle; simpl. by destruct (promises x !! k) as [[?|]|]. }
  unfold w1. rewrite Hcomm. unfold with_this; simpl.
  by rewrite ?settle_all_this, ?settle_this.
Qed.

Lemma children_onFulfilled item w : children (onFulfilled item w) = children w.
Proof.
  rewrite onFulfilled_spec. unfold with_this.
  cbn [children]. by rewrite settle_all_children.
Qed.

Lemma microtasks_onFulfilled item w : microtasks (onFulfilled item w) = microtasks w.
Proof.
  rewrite onFulfilled_spec. unfold with_this.
  cbn [microtasks]. by rewrite settle_all_microtasks.
Qed.

Lemma aborted_onFulfilled item w : aborted (onFulfilled item w) = aborted w.
Proof.
  rewrite onFulfilled_spec. unfold with_this.
  cbn [aborted]. by rewrite settle_all_aborted.
Qed.

Lemma this_onFulfilled item w :
  this (onFulfilled item w)
  = set_queue (otherSignal (signal item) (queue (this w)))
      (set_successfulList (successfulList (this w) ++ [signal item]) (this w)).
Proof.
  rewrite onFulfilled_spec. unfold with_this.
  cbn [this]. by rewrite settle_all_this.
Qed.

Lemma promises_onFulfilled item w :
  promises (onFulfilled item w)
  = promises (settle_all
      (promise item :: (promise <$> sameSignal (signal item) (queue (this w))))
      Resolved w).
Proof. rewrite onFulfilled_spec. by unfold with_this. Qed.

Lemma sameSignal_otherSignal_perm sig (q : list QueueItem) :
  q ≡ₚ sameSignal sig q ++ otherSignal sig q.
Proof. symmetry. apply filter_app_complement. Qed.

(** Taking an item out of the queue: its promise is no longer held. *)
Lemma owned_runNext w : Owned w -> Owned (runNext w).
Proof.
  intros O. unfold runNext.
  destruct (_childProcess (this w)); [done|].
  destruct (queue (this w)) as [|item rest] eqn:Eq; [done|].
  set (w1 := with_this (set_queue rest) w).
  assert (holders w = promise item :: holders w1) as Hh.
  { unfold holders, w1. simpl. by rewrite Eq. }
  assert (Owned w1) as O1.
  { destruct O as [N P D]. split.
    - rewrite Hh in N. by apply NoDup_cons in N as [_ N].
    - intros k Hk. apply P. rewrite Hh. by right.
    - done. }
  destruct (_memoize (this w)); [|done].
  destruct O as [N P D]. rewrite Hh in N. apply NoDup_cons in N as [Hk N].
  apply owned_exec; simpl; auto.
  apply P. rewrite Hh. left.
Qed.

Lemma owned_tick w : Owned w -> Owned (tick w).
Proof.
  intros O. unfold tick.
  destruct (microtasks w) as [|m ms] eqn:Em; [done|].
  set (w1 := with_microtasks ms w).
  destruct m as [item [|e]|item [|e]|].
  - (* then, fulfilled *)
    rewrite onFulfilled_spec.
    eapply (owned_settle_all _ Resolved w);
      [| |by apply settle_all_promises_ext|done].
    + unfold holders at 1. rewrite Em. rewrite bind_cons.
      unfold holders, enqueue; simpl.
      rewrite !settle_all_this, !settle_all_children, !settle_all_microtasks.
      rewrite !settle_this, !settle_children, !settle_microtasks. simpl.
      rewrite bind_app. simpl. rewrite app_nil_r.
      rewrite (sameSignal_otherSignal_perm (signal item) (queue (this w))) at 1.
      rewrite fmap_app. perm_front.
    + unfold enqueue; simpl.
      by rewrite !settle_all_children, !settle_children.
  - (* then, rejected: the result is passed on *)
    eapply owned_ext; [| | |exact O]; [|done..].
    unfold holders, enqueue; simpl. rewrite Em, bind_cons, bind_app.
    change ([CatchJob item (Rejected e)] ≫= task_holder) with [promise item].
    change (task_holder (ThenJob item (Rejected e))) with [promise item].
    simpl. perm_front.
  - (* catch, fulfilled: pass through *)
    eapply owned_ext; [| | |exact O]; [|done..].
    unfold holders, enqueue; simpl. rewrite Em, bind_cons, bind_app.
    change ([FinallyJob] ≫= task_holder) with (@nil nat).
    change (task_holder (CatchJob item Resolved)) with (@nil nat).
    simpl. by rewrite app_nil_r.
  - (* catch, rejected *)
    unfold onRejected.
    eapply (owned_settle_all [promise item] (Rejected e) w);
      [| |by apply (settle_all_promises_ext [promise item])|done].
    + unfold holders, enqueue; simpl.
      rewrite settle_this, settle_children, settle_microtasks. simpl.
      rewrite Em, bind_cons, bind_app.
      change ([FinallyJob] ≫= task_holder) with (@nil nat).
      change (task_holder (CatchJob item (Rejected e))) with [promise item].
      rewrite app_nil_r. simpl. perm_front.
    + unfold enqueue; simpl. by rewrite settle_children.
  - (* finally *)
    apply owned_runNext.
    eapply owned_ext; [| | |exact O]; [|done..].
    unfold holders; simpl. by rewrite Em, bind_cons.
Qed.

Lemma owned_onAbort pid w : Owned w -> Owned (onAbort pid w).
Proof. intros. by apply owned_settle_exec, owned_cleanup, owned_note. Qed.

Lemma owned_onError pid w : Owned w -> Owned (onError pid w).
Proof. intros. by apply owned_settle_exec, owned_cleanup, owned_note. Qed.

Lemma owned_onClose pid code w : Owned w -> Owned (onClose pid code w).
Proof.
  intros. rewrite onClose_unfold.
  by apply owned_settle_exec, owned_cleanup, owned_note.
Qed.

Lemma owned_dispatchAbort sig w pid : Owned w -> Owned (dispatchAbort sig w pid).
Proof.
  intros O. unfold dispatchAbort. destruct (children w !! pid) as [c|]; [|done].
  destruct (hears sig c); [by apply owned_onAbort | done].
Qed.

Lemma owned_abort sig w : Owned w -> Owned (abort sig w).
Proof.
  intros O. unfold abort. destruct (bool_decide (sig ∈ aborted w)); [done|].
  assert (Owned (with_aborted ({[sig]} ∪ aborted w) w)) as O'.
  { by eapply owned_ext; [| | |exact O]. }
  revert O'. generalize (with_aborted ({[sig]} ∪ aborted w) w).
  induction (seq 0 (length (children w))) as [|pid pids IH]; intros w' O'; simpl.
  - done.
  - by apply IH, owned_dispatchAbort.
Qed.

Lemma owned_run sig w : Owned w -> Owned (fst (run sig w)).
Proof.
  intros O. unfold run.
  destruct (is_aborted sig w); [by apply owned_new_promise|].
  destruct (is_successful sig w); [by apply owned_new_promise|].
  assert (Owned (new_promise None w)) as O1 by by apply owned_new_promise.
  assert (length (promises w) ∉ holders (new_promise None w)) as Hfresh.
  { intros H. apply (holders_lt w) in H; [lia | done]. }
  assert (promises (new_promise None w) !! length (promises w) = Some None) as Hp.
  { apply lookup_snoc_new. }
  assert (Owned (exec sig (Direct (length (promises w))) (new_promise None w))) as Od.
  { by apply owned_exec. }
  destruct sig as [s|]; [|done]. simpl.
  destruct (_memoize (this w)); [|done].
  apply owned_runNext.
  set (k := length (promises w)) in *.
  destruct O1 as [N P D]. split.
  - unfold holders in *; simpl in *. rewrite fmap_app. simpl.
    rewrite <- app_assoc. simpl. rewrite <- Permutation_middle.
    by apply NoDup_cons.
  - intros j. unfold holders in *; simpl in *. rewrite fmap_app. simpl.
    rewrite <- app_assoc. simpl. rewrite <- Permutation_middle.
    intros [->|Hj]%elem_of_cons; [done | by apply P].
  - done.
Qed.

Lemma owned_step w a : Owned w -> Owned (step w a).
Proof.
  intros O. destruct a as [sig| |sig|pid code|pid|]; simpl.
  - by apply owned_run.
  - by eapply owned_ext; [| | |exact O].
  - by apply owned_abort.
  - unfold emitClose. destruct (children w !! pid) as [c|]; [|done].
    destruct (c_listening c); [by apply owned_onClose | done].
  - unfold emitError. destruct (children w !! pid) as [c|]; [|done].
    destruct (c_listening c); [by apply owned_onError | done].
  - by apply owned_tick.
Qed.

Lemma reachable_owned w : reachable w -> Owned w.
Proof.
  induction 1 as [i cmd|w a _ IH]; [apply owned_create | by apply owned_step].
Qed.

End OwnedFacts.

(** ** The life of one execution *)

Section TidyFacts.
Implicit Types (w : World) (pid : Pid) (c : Child).

Lemma child_ok_fresh sig (k0 : Consumer) : child_ok (fresh_child sig k0).
Proof. by repeat split. Qed.

Lemma child_ok_exited ev c :
  child_ok c -> c_listening c = true -> child_ok (exited ev (resultOf ev) c).
Proof.
  unfold child_ok. intros H E. rewrite E in H.
  destruct H as (H1 & H2 & H3 & H4 & H5). simpl.
  rewrite H1, H2, H3, H4, H5. repeat split. by exists ev.
Qed.

Lemma tidy_exited ev pid w l :
  Tidy w -> live w pid = true ->
  l = alter (exited ev (resultOf ev)) pid (children w) -> Forall child_ok l.
Proof.
  intros T L ->. apply Forall_alter; [done|].
  intros c Hc Hok. apply child_ok_exited; [done|].
  unfold live in L. by rewrite Hc in L.
Qed.

Lemma tidy_onAbort pid w : Tidy w -> live w pid = true -> Tidy (onAbort pid w).
Proof. intros. eapply (tidy_exited EvAbort); eauto. apply children_onAbort. Qed.

Lemma tidy_onError pid w : Tidy w -> live w pid = true -> Tidy (onError pid w).
Proof. intros. eapply (tidy_exited EvError); eauto. apply children_onError. Qed.

Lemma tidy_onClose pid code w :
  Tidy w -> live w pid = true -> Tidy (onClose pid code w).
Proof.
  intros. eapply (tidy_exited (EvClose code)); eauto. apply children_onClose.
Qed.

Lemma tidy_exec sig (k0 : Consumer) w : Tidy w -> Tidy (exec sig k0 w).
Proof.
  intros T. destruct (exec_cases sig k0 w) as [[_ ->]|[_ ->]].
  { unfold Tidy. by rewrite children_thrown. }
  unfold Tidy, spawned; simpl. apply Forall_app. split; [done|].
  apply Forall_singleton, child_ok_fresh.
Qed.

Lemma tidy_ext w w' : children w' = children w -> Tidy w -> Tidy w'.
Proof. unfold Tidy. by intros ->. Qed.

Lemma tidy_runNext w : Tidy w -> Tidy (runNext w).
Proof.
  intros T. unfold runNext. destruct (_childProcess (this w)); [done|].
  destruct (queue (this w)) as [|item rest]; [done|].
  destruct (_memoize (this w)); [|done]. by apply tidy_exec.
Qed.

Lemma tidy_tick w : Tidy w -> Tidy (tick w).
Proof.
  intros T. unfold tick. destruct (microtasks w) as [|m ms]; [done|].
  destruct m as [item [|e]|item [|e]|].
  - eapply tidy_ext; [|exact T]. unfold enqueue. cbn [children with_microtasks].
    by rewrite children_onFulfilled.
  - done.
  - done.
  - eapply tidy_ext; [|exact T]. unfold onRejected, enqueue. simpl.
    by rewrite settle_children.
  - by apply tidy_runNext.
Qed.

Lemma tidy_run sig w : Tidy w -> Tidy (fst (run sig w)).
Proof.
  intros T. unfold run.
  destruct (is_aborted sig w); [done|].
  destruct (is_successful sig w); [done|].
  destruct sig as [s|]; [|by apply tidy_exec].
  destruct (_memoize (this w)); [|by apply tidy_exec].
  by apply tidy_runNext.
Qed.

Lemma tidy_dispatchAbort sig w pid : Tidy w -> Tidy (dispatchAbort sig w pid).
Proof.
  intros T. unfold dispatchAbort. destruct (children w !! pid) as [c|] eqn:E; [|done].
  destruct (hears sig c) eqn:Eh; [|done].
  apply tidy_onAbort; [done|]. unfold live. rewrite E.
  unfold hears in Eh. by apply andb_prop in Eh as [? _].
Qed.

Lemma tidy_abort sig w : Tidy w -> Tidy (abort sig w).
Proof.
  intros T. unfold abort. destruct (bool_decide (sig ∈ aborted w)); [done|].
  assert (Tidy (with_aborted ({[sig]} ∪ aborted w) w)) as T' by done.
  revert T'. generalize (with_aborted ({[sig]} ∪ aborted w) w).
  induction (seq 0 (length (children w))) as [|pid pids IH]; intros w' T'; simpl.
  - done.
  - by apply IH, tidy_dispatchAbort.
Qed.

Lemma tidy_step w a : Tidy w -> Tidy (step w a).
Proof.
  intros T. destruct a as [sig| |sig|pid code|pid|]; simpl.
  - by apply tidy_run.
  - done.
  - by apply tidy_abort.
  - unfold emitClose. destruct (children w !! pid) as [c|] eqn:E; [|done].
    destruct (c_listening c) eqn:El; [|done].
    apply tidy_onClose; [done|]. unfold live. by rewrite E.
  - unfold emitError. destruct (children w !! pid) as [c|] eqn:E; [|done].
    destruct (c_listening c) eqn:El; [|done].
    apply tidy_onError; [done|]. unfold live. by rewrite E.
  - by apply tidy_tick.
Qed.

Lemma reachable_tidy w : reachable w -> Tidy w.
Proof.
  induction 1 as [i cmd|w a _ IH]; [by constructor | by apply tidy_step].
Qed.

Lemma reachable_child_ok w pid c :
  reachable w -> children w !! pid = Some c -> child_ok c.
Proof.
  intros R H. apply reachable_tidy in R. unfold Tidy in R.
  rewrite Forall_lookup in R. by eapply R.
Qed.

End TidyFacts.

(** ** How the table of executions evolves *)

Section Evolution.
Implicit Types (w : World) (pid : Pid) (c : Child).

Lemma child_le_trans c1 c2 c3 : child_le c1 c2 -> child_le c2 c3 -> child_le c1 c3.
Proof.
  intros [->|[L1 [ev1 ->]]] [->|[L2 [ev2 ->]]].
  - by left.
  - right. eauto.
  - right. eauto.
  - done.
Qed.

Lemma children_le_refl l : children_le l l.
Proof. intros pid c H. exists c. split; [done | by left]. Qed.

Lemma children_le_trans l1 l2 l3 :
  children_le l1 l2 -> children_le l2 l3 -> children_le l1 l3.
Proof.
  intros H12 H23 pid c H. destruct (H12 _ _ H) as (c2 & H2 & L2).
  destruct (H23 _ _ H2) as (c3 & H3 & L3). exists c3. split; [done|].
  by eapply child_le_trans.
Qed.

Lemma children_le_snoc l c : children_le l (l ++ [c]).
Proof.
  intros pid c0 H. exists c0. split; [by apply lookup_snoc_old | by left].
Qed.

Lemma children_le_exited ev pid l c :
  l !! pid = Some c -> c_listening c = true ->
  children_le l (alter (exited ev (resultOf ev)) pid l).
Proof.
  intros H L pid' c' H'. destruct (decide (pid = pid')) as [<-|Hne].
  - rewrite list_lookup_alter_eq, H. simpl. eexists. split; [done|].
    assert (c' = c) as -> by congruence. right. eauto.
  - rewrite list_lookup_alter_ne by done. exists c'. split; [done | by left].
Qed.

Lemma children_le_exec sig (k0 : Consumer) w :
  children_le (children w) (children (exec sig k0 w)).
Proof.
  destruct (exec_cases sig k0 w) as [[_ ->]|[_ ->]].
  - rewrite children_thrown. apply children_le_refl.
  - apply children_le_snoc.
Qed.

Lemma children_le_runNext w : children_le (children w) (children (runNext w)).
Proof.
  unfold runNext. destruct (_childProcess (this w)); [apply children_le_refl|].
  destruct (queue (this w)) as [|item rest]; [apply children_le_refl|].
  destruct (_memoize (this w)); [|apply children_le_refl].
  apply (children_le_exec _ _ (with_this (set_queue rest) w)).
Qed.

Lemma children_le_run sig w : children_le (children w) (children (fst (run sig w))).
Proof.
  unfold run. destruct (is_aborted sig w); [apply children_le_refl|].
  destruct (is_successful sig w); [apply children_le_refl|].
  destruct sig as [s|]; [|apply (children_le_exec _ _ (new_promise None w))].
  destruct (_memoize (this w)); [|apply (children_le_exec _ _ (new_promise None w))].
  apply (children_le_runNext (with_this _ (new_promise None w))).
Qed.

Lemma children_le_tick w : children_le (children w) (children (tick w)).
Proof.
  unfold tick. destruct (microtasks w) as [|m ms]; [apply children_le_refl|].
  destruct m as [item [|e]|item [|e]|].
  - unfold enqueue. cbn [children with_microtasks].
    rewrite children_onFulfilled. apply children_le_refl.
  - apply children_le_refl.
  - apply children_le_refl.
  - unfold enqueue, onRejected. cbn [children with_microtasks].
    rewrite settle_children. apply children_le_refl.
  - apply (children_le_runNext (with_microtasks ms w)).
Qed.

Lemma children_le_dispatchAbort sig w pid :
  children_le (children w) (children (dispatchAbort sig w pid)).
Proof.
  unfold dispatchAbort. destruct (children w !! pid) as [c|] eqn:E;
    [|apply children_le_refl].
  destruct (hears sig c) eqn:Eh; [|apply children_le_refl].
  rewrite children_onAbort. apply (children_le_exited EvAbort _ _ c); [done|].
  unfold hears in Eh. by apply andb_prop in Eh as [? _].
Qed.

Lemma children_le_abort sig w : children_le (children w) (children (abort sig w)).
Proof.
  unfold abort. destruct (bool_decide (sig ∈ aborted w)); [apply children_le_refl|].
  change (children w) with (children (with_aborted ({[sig]} ∪ aborted w) w)) at 1.
  generalize (with_aborted ({[sig]} ∪ aborted w) w).
  induction (seq 0 (length (children w))) as [|pid pids IH]; intros w'; simpl.
  - apply children_le_refl.
  - eapply children_le_trans; [apply children_le_dispatchAbort | apply IH].
Qed.

Lemma children_le_step w a : children_le (children w) (children (step w a)).
Proof.
  destruct a as [sig| |sig|pid code|pid|]; simpl.
  - apply children_le_run.
  - apply children_le_refl.
  - apply children_le_abort.
  - unfold emitClose. destruct (children w !! pid) as [c|] eqn:E;
      [|apply children_le_refl].
    destruct (c_listening c) eqn:El; [|apply children_le_refl].
    rewrite children_onClose. by apply (children_le_exited (EvClose code) _ _ c).
  - unfold emitError. destruct (children w !! pid) as [c|] eqn:E;
      [|apply children_le_refl].
    destruct (c_listening c) eqn:El; [|apply children_le_refl].
    rewrite children_onError. by apply (children_le_exited EvError _ _ c).
  - apply children_le_tick.
Qed.

Lemma children_le_steps w tr : children_le (children w) (children (steps w tr)).
Proof.
  revert w. induction tr as [|a tr IH]; intros w; simpl.
  - apply children_le_refl.
  - eapply children_le_trans; [apply children_le_step | apply IH].
Qed.

Lemma reachable_steps w tr : reachable w -> reachable (steps w tr).
Proof.
  revert w. induction tr as [|a tr IH]; intros w R; simpl; [done|].
  by apply IH, reach_step.
Qed.

(** Once an execution has exited, nothing changes it any more. *)
Lemma exited_frozen w tr pid c :
  children w !! pid = Some c -> c_listening c = false ->
  children (steps w tr) !! pid = Some c.
Proof.
  intros H L. destruct (children_le_steps w tr _ _ H) as (c' & H' & [->|[L' _]]).
  - done.
  - congruence.
Qed.

(** The signal and the consumer of an execution never change. *)
Lemma child_le_same c c' :
  child_le c c' -> c_signal c' = c_signal c /\ c_consumer c' = c_consumer c.
Proof. by intros [->|[_ [ev ->]]]. Qed.

End Evolution.

(** ** What a step does to the fields of the object *)

Section Config.
Implicit Types (w : World) (pid : Pid) (p : PredictedProcess).

Lemma same_config_refl p : same_config p p.
Proof. done. Qed.

Lemma same_config_trans p1 p2 p3 :
  same_config p1 p2 -> same_config p2 p3 -> same_config p1 p3.
Proof.
  intros (A1 & B1 & C1 & D1) (A2 & B2 & C2 & D2).
  repeat split; congruence.
Qed.

Lemma config_exec sig (k0 : Consumer) w : same_config (this w) (this (exec sig k0 w)).
Proof.
  destruct (exec_cases sig k0 w) as [[_ ->]|[_ ->]]; [|done].
  by rewrite this_thrown.
Qed.

Lemma config_runNext w : same_config (this w) (this (runNext w)).
Proof.
  unfold runNext. destruct (_childProcess (this w)); [done|].
  destruct (queue (this w)) as [|item rest]; [done|].
  destruct (_memoize (this w)); [|done].
  eapply same_config_trans; [|apply config_exec]. done.
Qed.

Lemma config_run sig w : same_config (this w) (this (fst (run sig w))).
Proof.
  unfold run. destruct (is_aborted sig w); [done|].
  destruct (is_successful sig w); [done|].
  assert (same_config (this w)
            (this (exec sig (Direct (length (promises w))) (new_promise None w)))) as Hd.
  { apply (config_exec _ _ (new_promise None w)). }
  destruct sig as [s|]; [|done].
  destruct (_memoize (this w)) eqn:E; [|done].
  eapply same_config_trans; [|apply config_runNext]. done.
Qed.

Lemma config_dispatchAbort sig w pid :
  same_config (this w) (this (dispatchAbort sig w pid)).
Proof.
  unfold dispatchAbort. destruct (children w !! pid) as [c|]; [|done].
  destruct (hears sig c); [|done]. by rewrite this_onAbort.
Qed.

Lemma config_abort sig w : same_config (this w) (this (abort sig w)).
Proof.
  unfold abort. destruct (bool_decide (sig ∈ aborted w)); [done|].
  change (this w) with (this (with_aborted ({[sig]} ∪ aborted w) w)) at 1.
  generalize (with_aborted ({[sig]} ∪ aborted w) w).
  induction (seq 0 (length (children w))) as [|pid pids IH]; intros w'; simpl.
  - done.
  - eapply same_config_trans; [apply config_dispatchAbort | apply IH].
Qed.

Lemma config_emitClose pid code w : same_config (this w) (this (emitClose pid code w)).
Proof.
  unfold emitClose. destruct (children w !! pid) as [c|]; [|done].
  destruct (c_listening c); [|done]. by rewrite this_onClose.
Qed.

Lemma config_emitError pid w : same_config (this w) (this (emitError pid w)).
Proof.
  unfold emitError. destruct (children w !! pid) as [c|]; [|done].
  destruct (c_listening c); [|done]. by rewrite this_onError.
Qed.

(** The flag changes in [memoize] only. *)
Lemma memoize_step w a :
  _memoize (this (step w a))
  = match a with CallMemoize => true | _ => _memoize (this w) end.
Proof.
  destruct a as [sig| |sig|pid code|pid|]; simpl; try done.
  - apply config_run.
  - apply config_abort.
  - apply config_emitClose.
  - apply config_emitError.
  - unfold tick. destruct (microtasks w) as [|m ms]; [done|].
    destruct m as [item [|e]|item [|e]|]; simpl; try done.
    + by rewrite this_onFulfilled.
    + unfold onRejected. by rewrite settle_this.
    + apply (config_runNext (with_microtasks ms w)).
Qed.

(** The list of successful signals changes in the [then] callback
    only, which appends the signal of its item. *)
Lemma successfulList_step w a :
  successfulList (this (step w a))
  = match a, microtasks w with
    | Tick, ThenJob item Resolved :: _ => successfulList (this w) ++ [signal item]
    | _, _ => successfulList (this w)
    end.
Proof.
  destruct a as [sig| |sig|pid code|pid|]; simpl; try done.
  - apply config_run.
  - apply config_abort.
  - apply config_emitClose.
  - apply config_emitError.
  - unfold tick. destruct (microtasks w) as [|m ms]; [done|].
    destruct m as [item [|e]|item [|e]|]; simpl; try done.
    + by rewrite this_onFulfilled.
    + unfold onRejected. by rewrite settle_this.
    + apply (config_runNext (with_microtasks ms w)).
Qed.

Lemma identity_step w a :
  id (this (step w a)) = id (this w) /\ command (this (step w a)) = command (this w).
Proof.
  destruct a as [sig| |sig|pid code|pid|]; simpl; try done.
  - split; apply config_run.
  - split; apply config_abort.
  - split; apply config_emitClose.
  - split; apply config_emitError.
  - unfold tick. destruct (microtasks w) as [|m ms]; [done|].
    destruct m as [item [|e]|item [|e]|]; simpl; try done.
    + by rewrite this_onFulfilled.
    + unfold onRejected. by rewrite settle_this.
    + split; apply (config_runNext (with_microtasks ms w)).
Qed.

Lemma memoize_steps w tr :
  _memoize (this w) = true -> _memoize (this (steps w tr)) = true.
Proof.
  revert w. induction tr as [|a tr IH]; intros w H; simpl; [done|].
  apply IH. rewrite memoize_step. by destruct a.
Qed.

Lemma successfulList_steps w tr sig :
  sig ∈ successfulList (this w) -> sig ∈ successfulList (this (steps w tr)).
Proof.
  revert w. induction tr as [|a tr IH]; intros w H; simpl; [done|].
  apply IH. rewrite successfulList_step.
  destruct a; try done. destruct (microtasks w) as [|[item [|e]|item r|] ms]; try done.
  apply elem_of_app. by left.
Qed.

Lemma identity_steps w tr :
  id (this (steps w tr)) = id (this w)
  /\ command (this (steps w tr)) = command (this w).
Proof.
  revert w. induction tr as [|a tr IH]; intros w; simpl; [done|].
  destruct (IH (step w a)) as [-> ->]. apply identity_step.
Qed.

(** The aborted flag of a signal is never cleared. *)
Lemma aborted_dispatchAbort sig w pid : aborted (dispatchAbort sig w pid) = aborted w.
Proof.
  unfold dispatchAbort. destruct (children w !! pid) as [c|]; [|done].
  destruct (hears sig c); [|done]. unfold onAbort.
  by rewrite aborted_settle_exec.
Qed.

Lemma aborted_dispatchAborts sig w pids :
  aborted (foldl (dispatchAbort sig) w pids) = aborted w.
Proof.
  revert w. induction pids as [|pid pids IH]; intros w; simpl; [done|].
  by rewrite IH, aborted_dispatchAbort.
Qed.

Lemma aborted_abort sig w :
  aborted (abort sig w) = {[sig]} ∪ aborted w.
Proof.
  unfold abort. destruct (bool_decide (sig ∈ aborted w)) eqn:E.
  - apply bool_decide_eq_true in E. symmetry.
    by apply subseteq_union_1_L, singleton_subseteq_l.
  - by rewrite aborted_dispatchAborts.
Qed.

End Config.

(** ** A command that [spawn] refuses *)

Section Refused.
Implicit Types (w : World) (pid : Pid) (c : Child).

Lemma barren_step w a : Barren w -> Barren (step w a).
Proof.
  intros B Ht. destruct (identity_step w a) as [_ Hcmd]. rewrite Hcmd in Ht.
  destruct (B Ht) as (Hc & Hs & Hq).
  destruct a as [osig| |sig|pid code|pid|]; simpl.
  - unfold run. destruct (is_aborted osig w); [done|].
    destruct (is_successful osig w); [done|].
    assert (forall k, let w' := exec osig (Direct k) (new_promise None w) in
              children w' = [] /\ _childProcess (this w') = None /\ queue (this w') = [])
      as Hd.
    { intros k. rewrite exec_thrown by done. cbv zeta.
      by rewrite children_thrown, this_thrown. }
    destruct osig as [s|]; [|apply Hd].
    destruct (_memoize (this w)) eqn:Em; [|apply Hd].
    cbn [fst]. unfold runNext. simpl. rewrite Hs, Hq, Em. simpl.
    rewrite exec_thrown by done. by rewrite children_thrown, this_thrown.
  - done.
  - unfold abort. destruct (bool_decide (sig ∈ aborted w)); [done|].
    by rewrite Hc.
  - unfold emitClose. by rewrite Hc.
  - unfold emitError. by rewrite Hc.
  - unfold tick. destruct (microtasks w) as [|m ms]; [done|].
    destruct m as [item [|e]|item [|e]|].
    + rewrite children_enqueue, this_enqueue.
      rewrite children_onFulfilled, this_onFulfilled. simpl. by rewrite Hq.
    + done.
    + done.
    + unfold onRejected. rewrite children_enqueue, this_enqueue.
      by rewrite settle_children, settle_this.
    + unfold runNext. simpl. by rewrite Hs, Hq.
Qed.

Lemma reachable_barren w : reachable w -> Barren w.
Proof.
  induction 1 as [i cmd|w a _ IH]; [done | by apply barren_step].
Qed.

(** So a child, a handle in the slot or a waiting item shows that
    [spawn] accepts the command of the object. *)
Lemma child_accepted w pid c :
  reachable w -> children w !! pid = Some c ->
  spawn_throws (command (this w)) = false.
Proof.
  intros R H. destruct (spawn_throws (command (this w))) eqn:E; [|done].
  destruct (reachable_barren w R E) as (Hc & _). by rewrite Hc in H.
Qed.

Lemma item_accepted w :
  reachable w -> queue (this w) <> [] -> spawn_throws (command (this w)) = false.
Proof.
  intros R H. destruct (spawn_throws (command (this w))) eqn:E; [|done].
  by destruct (reachable_barren w R E) as (_ & _ & Hq).
Qed.

Lemma slot_accepted w p :
  reachable w -> _childProcess (this w) = Some p ->
  spawn_throws (command (this w)) = false.
Proof.
  intros R H. destruct (spawn_throws (command (this w))) eqn:E; [|done].
  destruct (reachable_barren w R E) as (_ & Hs & _). congruence.
Qed.

Lemma command_steps w tr : command (this (steps w tr)) = command (this w).
Proof. apply identity_steps. Qed.

End Refused.

(** * Properties of the class *)

Section RunFacts.
Implicit Types (w : World) (sig : Signal).

Lemma promises_exec_drained (osig : option Signal) item w :
  promises (exec osig (Drained item) w) = promises w.
Proof. by destruct (exec_cases osig (Drained item) w) as [[_ ->]|[_ ->]]. Qed.

Lemma aborted_exec (osig : option Signal) (k0 : Consumer) w :
  aborted (exec osig k0 w) = aborted w.
Proof.
  destruct (exec_cases osig k0 w) as [[_ ->]|[_ ->]]; [|done].
  apply aborted_thrown.
Qed.

Lemma promises_runNext w : promises (runNext w) = promises w.
Proof.
  unfold runNext. destruct (_childProcess (this w)); [done|].
  destruct (queue (this w)) as [|item rest]; [done|].
  destruct (_memoize (this w)); [|done].
  by rewrite promises_exec_drained.
Qed.

(** [runNext] schedules a reaction only when [spawn] throws. *)
Lemma microtasks_runNext_cases w :
  microtasks (runNext w) = microtasks w
  \/ (spawn_throws (command (this w)) = true
      /\ exists item, microtasks (runNext w)
                      = microtasks w ++ [ThenJob item (Rejected SpawnThrew)]).
Proof.
  unfold runNext. destruct (_childProcess (this w)); [by left|].
  destruct (queue (this w)) as [|item rest]; [by left|].
  destruct (_memoize (this w)); [|by left].
  destruct (exec_cases (Some (signal item)) (Drained item) (with_this (set_queue rest) w))
    as [[Ht ->]|[_ ->]]; [|by left].
  right. split; [done|]. by exists item.
Qed.

Lemma microtasks_runNext w :
  spawn_throws (command (this w)) = false -> microtasks (runNext w) = microtasks w.
Proof.
  intros H. destruct (microtasks_runNext_cases w) as [?|[? _]]; [done | congruence].
Qed.

Lemma aborted_runNext w : aborted (runNext w) = aborted w.
Proof.
  unfold runNext. destruct (_childProcess (this w)); [done|].
  destruct (queue (this w)) as [|item rest]; [done|].
  destruct (_memoize (this w)); [|done].
  by rewrite aborted_exec.
Qed.

Lemma outcome_new s w :
  outcome (new_promise s w) (length (promises w)) = s.
Proof. unfold outcome, new_promise; simpl. by rewrite lookup_snoc_new. Qed.

Lemma is_aborted_true sig w : sig ∈ aborted w -> is_aborted (Some sig) w = true.
Proof. intros H. by apply bool_decide_eq_true. Qed.

Lemma is_aborted_false sig w : sig ∉ aborted w -> is_aborted (Some sig) w = false.
Proof. intros H. by apply bool_decide_eq_false. Qed.

(** What [run] does on its third path: enqueue and drain. *)
Lemma run_enqueue sig w :
  sig ∉ aborted w -> _memoize (this w) = true ->
  sig ∉ successfulList (this w) ->
  run (Some sig) w
  = (runNext (with_this (fun p => set_queue (queue p ++ [mkItem (length (promises w)) sig]) p)
                (new_promise None w)),
     length (promises w)).
Proof.
  intros Ha Hm Hs. unfold run. rewrite is_aborted_false by done.
  unfold is_successful. rewrite Hm. simpl.
  by rewrite bool_decide_eq_false_2.
Qed.

(** What [run] does on its fourth path: execute directly. *)
Lemma run_direct (osig : option Signal) w :
  is_aborted osig w = false -> _memoize (this w) = false \/ osig = None ->
  run osig w
  = (exec osig (Direct (length (promises w))) (new_promise None w),
     length (promises w)).
Proof.
  intros Ha Hm. unfold run. rewrite Ha.
  destruct Hm as [Hm| ->]; [|done].
  unfold is_successful. destruct osig as [s|]; [|done]. by rewrite Hm.
Qed.

End RunFacts.

(** C4: a call of [run] with a signal that is already aborted returns a
    promise rejected with 'Signal already aborted'; nothing is spawned and
    neither the object, nor any child, signal or scheduled reaction is
    touched.  The check comes first: it also holds when the signal is in
    [successfulList] of a memoized object. *)
Theorem run_aborted_signal_rejects (w : World) (sig : Signal) :
  sig ∈ aborted w ->
  let w' := fst (run (Some sig) w) in
  let k := snd (run (Some sig) w) in
  outcome w' k = Some (Rejected SignalAlreadyAborted)
  /\ promises w' = promises w ++ [Some (Rejected SignalAlreadyAborted)]
  /\ spawns w' = spawns w
  /\ this w' = this w /\ children w' = children w
  /\ aborted w' = aborted w /\ microtasks w' = microtasks w.
Proof.
  intros H. unfold run. rewrite is_aborted_true by done. simpl.
  repeat split. apply outcome_new.
Qed.

Lemma run_aborted_signal_rejects_witness :
  let w := steps (create 1 "job")
             [CallMemoize; CallRun (Some 7); Close 0 (Some 0%Z); Tick; Tick; Tick; Abort 7] in
  (_memoize (this w) = true /\ successfulList (this w) = [7])
  /\ outcome (fst (run (Some 7) w)) (snd (run (Some 7) w))
     = Some (Rejected SignalAlreadyAborted)
  /\ spawns (fst (run (Some 7) w)) = 1.
Proof.
  intros w. split; [by vm_compute|].
  assert (7 ∈ aborted w) as H by (apply (bool_decide_unpack _); by vm_compute).
  destruct (run_aborted_signal_rejects w 7 H) as (H1 & _ & H2 & _).
  split; [exact H1 | exact H2].
Defined.

(** C6: on a memoized object, once a signal is in [successfulList] it
    stays there, and a call of [run] with it (while it is not aborted)
    returns a resolved promise at once: nothing is spawned, nothing is
    queued.  Membership is by identity of the signal: another signal in
    the same state is not a member, and a call with it stays pending. *)
Theorem run_successful_signal_resolves (w : World) (tr : list Action) (sig : Signal) :
  _memoize (this w) = true -> sig ∈ successfulList (this w) ->
  let w1 := steps w tr in
  sig ∉ aborted w1 ->
  let w' := fst (run (Some sig) w1) in
  let k := snd (run (Some sig) w1) in
  (outcome w' k = Some Resolved
   /\ promises w' = promises w1 ++ [Some Resolved]
   /\ spawns w' = spawns w1
   /\ this w' = this w1 /\ children w' = children w1
   /\ aborted w' = aborted w1 /\ microtasks w' = microtasks w1)
  /\ (forall sig', sig' ∉ aborted w1 -> sig' ∉ successfulList (this w1) ->
        outcome (fst (run (Some sig') w1)) (snd (run (Some sig') w1)) = None).
Proof.
  intros Hm Hs w1 Ha.
  assert (_memoize (this w1) = true) as Hm1 by by apply memoize_steps.
  assert (sig ∈ successfulList (this w1)) as Hs1 by by apply successfulList_steps.
  split.
  - unfold run. rewrite is_aborted_false by done.
    unfold is_successful. rewrite Hm1. simpl.
    rewrite bool_decide_eq_true_2 by done. simpl.
    repeat split. apply outcome_new.
  - intros sig' Ha' Hs'. rewrite run_enqueue by done. simpl.
    unfold outcome. rewrite promises_runNext. simpl.
    by rewrite lookup_snoc_new.
Qed.

Lemma run_successful_signal_resolves_witness :
  let w := steps (create 1 "job")
             [CallMemoize; CallRun (Some 7); Close 0 (Some 0%Z); Tick; Tick; Tick] in
  let w1 := steps w [CallRun (Some 8); Abort 8] in
  (outcome (fst (run (Some 7) w1)) (snd (run (Some 7) w1)) = Some Resolved
   /\ spawns (fst (run (Some 7) w1)) = spawns w1)
  /\ outcome (fst (run (Some 9) w1)) (snd (run (Some 9) w1)) = None.
Proof.
  intros w w1.
  assert (_memoize (this w) = true) as Hm by by vm_compute.
  assert (7 ∈ successfulList (this w)) as Hs.
  { apply (bool_decide_unpack _). by vm_compute. }
  assert (7 ∉ aborted (steps w [CallRun (Some 8); Abort 8])) as Ha.
  { apply (bool_decide_unpack _). by vm_compute. }
  destruct (run_successful_signal_resolves w [CallRun (Some 8); Abort 8] 7 Hm Hs Ha)
    as [(H1 & _ & H2 & _) H3].
  split; [split; [exact H1 | exact H2]|].
  apply H3; apply (bool_decide_unpack _); by vm_compute.
Defined.


(** C9: [_memoize] is [false] in a new object, [memoize] sets it to
    [true], and no step sets it back: once [true] it stays [true].
    [memoize] changes that one field of the object it is called on and
    returns that same reference: no object is created, the identifier, the
    command, the queue and [successfulList] are those of the receiver. *)
Theorem memoize_sets_flag_on_receiver
    (w : World) (tr : list Action)
    (h : list PredictedProcess) (self : nat) (p : PredictedProcess) :
  h !! self = Some p ->
  (forall i cmd, _memoize (this (create i cmd)) = false)
  /\ (this (memoize w) = set_memoize true (this w)
      /\ _memoize (this (memoize w)) = true
      /\ aborted (memoize w) = aborted w /\ children (memoize w) = children w
      /\ promises (memoize w) = promises w /\ microtasks (memoize w) = microtasks w)
  /\ (forall a, _memoize (this (step w a))
                = match a with CallMemoize => true | _ => _memoize (this w) end)
  /\ (_memoize (this w) = true -> _memoize (this (steps w tr)) = true)
  /\ (id (this (steps w tr)) = id (this w)
      /\ command (this (steps w tr)) = command (this w))
  /\ (let h' := fst (Heap.memoize self h) in
      let r := snd (Heap.memoize self h) in
      r = self /\ length h' = length h
      /\ h' !! r = Some (set_memoize true p)
      /\ (forall o, o <> self -> h' !! o = h !! o)
      /\ (forall p', h' !! r = Some p' ->
            _memoize p' = true /\ id p' = id p /\ command p' = command p
            /\ queue p' = queue p /\ successfulList p' = successfulList p
            /\ _childProcess p' = _childProcess p)).
Proof.
  intros Hself. split; [done|]. split; [done|].
  split; [apply memoize_step|]. split; [apply memoize_steps|].
  split; [apply identity_steps|]. simpl.
  assert (alter (set_memoize true) self h !! self = Some (set_memoize true p)) as Hl.
  { by rewrite list_lookup_alter_eq, Hself. }
  split; [done|]. split; [apply length_alter|]. split; [done|]. split.
  - intros o Hne. by apply list_lookup_alter_ne.
  - intros p'. rewrite Hl. by intros [= <-].
Qed.

Lemma memoize_sets_flag_on_receiver_witness :
  let h := [mkProcess 1 "first" None false [] []; mkProcess 2 "second" None false [] []] in
  let w := create 2 "second" in
  snd (Heap.memoize 1 h) = 1
  /\ fst (Heap.memoize 1 h)
     = [mkProcess 1 "first" None false [] []; mkProcess 2 "second" None true [] []]
  /\ _memoize (this (steps (memoize w) [CallRun (Some 5); Close 0 (Some 1%Z); Tick])) = true.
Proof.
  intros h w.
  destruct (memoize_sets_flag_on_receiver (memoize w)
              [CallRun (Some 5); Close 0 (Some 1%Z); Tick] h 1
              (mkProcess 2 "second" None false [] []) eq_refl)
    as (_ & _ & _ & Hkeep & _ & Hret & _).
  split; [exact Hret|]. split; [reflexivity|]. apply Hkeep. reflexivity.
Defined.


(** ** Direct executions *)

Section Direct.
Implicit Types (w : World) (pid : Pid) (c : Child) (k : CallId).

Lemma resultOf_resolved ev : resultOf ev = Resolved <-> ev = EvClose (Some 0%Z).
Proof.
  destruct ev as [| |code]; simpl; [done..|]. unfold closeResult.
  destruct (decide (code = Some 0%Z)) as [->|Hne]; [done|].
  split; [done|]. intros [= ->]. done.
Qed.

Lemma closeResult_zero : closeResult (Some 0%Z) = Resolved.
Proof. done. Qed.

Lemma closeResult_nonzero code :
  code <> Some 0%Z -> closeResult code = Rejected (ProcessExitCode code).
Proof. intros H. unfold closeResult. by destruct (decide (code = Some 0%Z)). Qed.

Lemma running_holder w pid c :
  children w !! pid = Some c -> c_state c = None ->
  consumer_call (c_consumer c) ∈ holders w.
Proof.
  intros H Hs. unfold holders. apply elem_of_app. right. apply elem_of_app. left.
  apply list_elem_of_bind. exists c. split.
  - unfold child_holder. rewrite Hs. left.
  - by eapply list_elem_of_lookup_2.
Qed.

(** The promise that [run] returned for a direct execution is the promise
    of that execution: pending while it runs, then the result of the
    handler that ran. *)
Lemma direct_outcome w pid c k :
  reachable w -> children w !! pid = Some c -> c_consumer c = Direct k ->
  outcome w k = resultOf <$> c_event c.
Proof.
  intros R H Hc. pose proof (reachable_child_ok _ _ _ R H) as Hok.
  pose proof (reachable_owned _ R) as [N P D]. unfold child_ok in Hok.
  unfold outcome. destruct (c_listening c).
  - destruct Hok as (_ & _ & _ & Hs & ->). simpl.
    pose proof (running_holder _ _ _ H Hs) as Hin. rewrite Hc in Hin. simpl in Hin.
    by rewrite (P _ Hin).
  - destruct Hok as (_ & _ & _ & ev & -> & Hs). simpl.
    by rewrite (D _ _ _ _ H Hc Hs).
Qed.

End Direct.

(** ** Drained executions and their chain *)

Section ChainFacts.
Implicit Types (w : World) (pid : Pid) (c : Child) (item : QueueItem).

(** Later worlds that keep the scheduled reactions and the settled
    promises keep what is on its way. *)
Lemma on_its_way_mono w w' item r :
  (forall m, m ∈ microtasks w -> m ∈ microtasks w') ->
  (forall k r', promises w !! k = Some (Some r') -> promises w' !! k = Some (Some r')) ->
  on_its_way w item r -> on_its_way w' item r.
Proof.
  intros Hm Hp [H|[(e & -> & H)|H]].
  - left. by apply Hm.
  - right. left. exists e. split; [done|]. by apply Hm.
  - right. right. by apply Hp.
Qed.

Lemma chained_create i cmd : Chained (create i cmd).
Proof. intros pid c item r H. simpl in H. by rewrite lookup_nil in H. Qed.

(** Same children (up to fields the chain does not look at), more
    reactions, settled promises kept. *)
Lemma chained_mono w w' :
  (forall pid c', children w' !! pid = Some c' -> is_Some (c_state c') ->
     exists c, children w !! pid = Some c /\ c_consumer c = c_consumer c'
               /\ c_state c = c_state c') ->
  (forall m, m ∈ microtasks w -> m ∈ microtasks w') ->
  (forall k r', promises w !! k = Some (Some r') -> promises w' !! k = Some (Some r')) ->
  Chained w -> Chained w'.
Proof.
  intros Hc Hm Hp C pid c' item r H1 H2 H3.
  destruct (Hc pid c' H1) as (c & Hc1 & Hc2 & Hc3); [by rewrite H3|].
  apply (on_its_way_mono w); [done..|].
  apply (C pid c); congruence.
Qed.

Lemma chained_alter (g : Child -> Child) pid w w' :
  (forall c, c_state (g c) = c_state c /\ c_consumer (g c) = c_consumer c) ->
  children w' = alter g pid (children w) -> promises w' = promises w ->
  microtasks w' = microtasks w -> Chained w -> Chained w'.
Proof.
  intros Hg Hch Hp Hm. apply chained_mono.
  - intros pid' c'. rewrite Hch. destruct (decide (pid = pid')) as [<-|Hne].
    + rewrite list_lookup_alter_eq. destruct (children w !! pid) as [c|]; [|done].
      simpl. intros [= <-] _. exists c. destruct (Hg c) as [-> ->]. done.
    + rewrite list_lookup_alter_ne by done. intros H _. by exists c'.
  - by rewrite Hm.
  - by rewrite Hp.
Qed.

Lemma chained_snoc c0 w w' :
  c_state c0 = None -> children w' = children w ++ [c0] ->
  (forall m, m ∈ microtasks w -> m ∈ microtasks w') ->
  (forall k r', promises w !! k = Some (Some r') -> promises w' !! k = Some (Some r')) ->
  Chained w -> Chained w'.
Proof.
  intros H0 Hch. apply chained_mono.
  intros pid c'. rewrite Hch.
  intros [H|[_ H]]%lookup_app_Some Hs.
  - by exists c'.
  - apply list_lookup_singleton_Some in H as [_ <-]. rewrite H0 in Hs.
    by destruct Hs.
Qed.

Lemma chained_settle_exec pid r w : Chained w -> Chained (settle_exec pid r w).
Proof.
  intros C. unfold settle_exec.
  destruct (children w !! pid) as [c|] eqn:E; [|done].
  destruct (c_state c) as [r0|] eqn:Es.
  { intros pid' c' item r'. simpl.
    destruct (decide (pid = pid')) as [<-|Hne].
    - rewrite list_lookup_alter_eq, E. simpl. intros [= <-]. simpl. rewrite Es.
      intros Hc [= <-]. by apply (C pid c).
    - rewrite list_lookup_alter_ne by done. apply C. }
  set (w1 := with_children _ w).
  assert (forall w', children w' = children w1 ->
            (forall m, m ∈ microtasks w -> m ∈ microtasks w') ->
            (forall k r', promises w !! k = Some (Some r') ->
                          promises w' !! k = Some (Some r')) ->
            (forall item, c_consumer c = Drained item -> ThenJob item r ∈ microtasks w') ->
            Chained w') as Hgen.
  { intros w' Hch Hm Hp Hnew pid' c' item r'. rewrite Hch. unfold w1; simpl.
    destruct (decide (pid = pid')) as [<-|Hne].
    - rewrite list_lookup_alter_eq, E. simpl. intros [= <-]. simpl. rewrite Es.
      intros Hc [= <-]. left. by apply Hnew.
    - rewrite list_lookup_alter_ne by done. intros H1 H2 H3.
      apply (on_its_way_mono w); [done..|]. by apply (C pid' c'). }
  destruct (c_consumer c) as [k|item] eqn:Ec.
  - apply Hgen.
    + by rewrite settle_children.
    + by rewrite settle_microtasks.
    + intros k' r' H. by apply settle_keeps.
    + done.
  - apply Hgen; simpl; auto.
    + intros m Hm. apply elem_of_app. by left.
    + intros item' [= <-]. apply elem_of_app. right. left.
Qed.

Lemma chained_onAbort pid w : Chained w -> Chained (onAbort pid w).
Proof.
  intros C. apply chained_settle_exec.
  apply (chained_alter cleaned pid (note pid EvAbort w)); [done..|].
  by apply (chained_alter (noted EvAbort) pid w).
Qed.

Lemma chained_onError pid w : Chained w -> Chained (onError pid w).
Proof.
  intros C. apply chained_settle_exec.
  apply (chained_alter cleaned pid (note pid EvError w)); [done..|].
  by apply (chained_alter (noted EvError) pid w).
Qed.

Lemma chained_onClose pid code w : Chained w -> Chained (onClose pid code w).
Proof.
  intros C. rewrite onClose_unfold. apply chained_settle_exec.
  apply (chained_alter cleaned pid (note pid (EvClose code) w)); [done..|].
  by apply (chained_alter (noted (EvClose code)) pid w).
Qed.

Lemma chained_exec (osig : option nat) (k0 : Consumer) w :
  Chained w -> Chained (exec osig k0 w).
Proof.
  intros C. destruct (exec_cases osig k0 w) as [[_ ->]|[_ ->]].
  - apply (chained_mono w); [| | |done].
    + intros pid c'. rewrite children_thrown. intros H _. by exists c'.
    + intros m Hm. destruct k0; simpl.
      * by rewrite settle_microtasks.
      * apply elem_of_app. by left.
    + intros k r' H. destruct k0; simpl; [by apply settle_keeps | done].
  - by eapply (chained_snoc (fresh_child osig k0) w).
Qed.

Lemma chained_runNext w : Chained w -> Chained (runNext w).
Proof.
  intros C. unfold runNext. destruct (_childProcess (this w)); [done|].
  destruct (queue (this w)) as [|item rest]; [done|].
  destruct (_memoize (this w)); [|done].
  by apply (chained_exec _ _ (with_this (set_queue rest) w)).
Qed.

Lemma chained_run sig w : Chained w -> Chained (fst (run sig w)).
Proof.
  intros C. unfold run.
  assert (forall s, Chained (new_promise s w)) as Hn.
  { intros s. apply (chained_mono w); auto.
    - intros pid c' H _. by exists c'.
    - intros k r' H. by apply lookup_snoc_old. }
  destruct (is_aborted sig w); [apply Hn|].
  destruct (is_successful sig w); [apply Hn|].
  assert (Chained (exec sig (Direct (length (promises w))) (new_promise None w))) as Hd.
  { apply chained_exec, Hn. }
  destruct sig as [s|]; [|done].
  destruct (_memoize (this w)); [|done].
  apply chained_runNext. apply (chained_mono (new_promise None w)); auto.
  intros pid c' H _. by exists c'.
Qed.

Lemma chained_dispatchAbort sig w pid : Chained w -> Chained (dispatchAbort sig w pid).
Proof.
  intros C. unfold dispatchAbort. destruct (children w !! pid) as [c|]; [|done].
  destruct (hears sig c); [by apply chained_onAbort | done].
Qed.

Lemma chained_abort sig w : Chained w -> Chained (abort sig w).
Proof.
  intros C. unfold abort. destruct (bool_decide (sig ∈ aborted w)); [done|].
  assert (Chained (with_aborted ({[sig]} ∪ aborted w) w)) as C' by done.
  revert C'. generalize (with_aborted ({[sig]} ∪ aborted w) w).
  induction (seq 0 (length (children w))) as [|pid pids IH]; intros w' C'; simpl.
  - done.
  - by apply IH, chained_dispatchAbort.
Qed.

(** A reaction of the chain settles the promise of its item, which was
    pending until then. *)
Lemma chained_tick w : Owned w -> Chained w -> Chained (tick w).
Proof.
  intros [N P D] C. unfold tick.
  destruct (microtasks w) as [|m ms] eqn:Em; [done|].
  unfold Chained, on_its_way in *.
  assert (forall item,
            task_holder m = [promise item] ->
            promises w !! promise item = Some None) as Hhead.
  { intros item Hm. apply P. unfold holders. rewrite Em, bind_cons, Hm.
    apply elem_of_app. right. apply elem_of_app. right. left. }
  destruct m as [item [|e]|item [|e]|].
  - (* then, fulfilled *)
    intros pid c item' r'. unfold enqueue. cbn [children with_microtasks microtasks promises].
    rewrite children_onFulfilled, microtasks_onFulfilled, promises_onFulfilled.
    cbn [children with_microtasks microtasks promises].
    intros H1 H2 H3. destruct (C pid c item' r' H1 H2 H3) as [H|[(e & -> & H)|H]].
    + rewrite Em in H. apply elem_of_cons in H as [[= -> ->]|H].
      * right. right. rewrite settle_all_cons. apply settle_all_keeps.
        apply settle_pending. simpl. by apply (Hhead item).
      * left. apply elem_of_app. by left.
    + rewrite Em in H. apply elem_of_cons in H as [?|H]; [done|].
      right. left. exists e. split; [done|]. apply elem_of_app. by left.
    + right. right. apply settle_all_keeps. exact H.
  - (* then, rejected *)
    intros pid c item' r'. unfold enqueue. simpl.
    intros H1 H2 H3. destruct (C pid c item' r' H1 H2 H3) as [H|[(e' & -> & H)|H]].
    + rewrite Em in H. apply elem_of_cons in H as [[= -> ->]|H].
      * right. left. exists e. split; [done|]. apply elem_of_app. right. left.
      * left. apply elem_of_app. by left.
    + rewrite Em in H. apply elem_of_cons in H as [?|H]; [done|].
      right. left. exists e'. split; [done|]. apply elem_of_app. by left.
    + by right; right.
  - (* catch, fulfilled *)
    intros pid c item' r'. unfold enqueue. simpl.
    intros H1 H2 H3. destruct (C pid c item' r' H1 H2 H3) as [H|[(e' & -> & H)|H]].
    + rewrite Em in H. apply elem_of_cons in H as [?|H]; [done|].
      left. apply elem_of_app. by left.
    + rewrite Em in H. apply elem_of_cons in H as [?|H]; [done|].
      right. left. exists e'. split; [done|]. apply elem_of_app. by left.
    + by right; right.
  - (* catch, rejected *)
    intros pid c item' r'. unfold enqueue, onRejected.
    cbn [children with_microtasks microtasks promises].
    rewrite settle_children, settle_microtasks.
    cbn [children with_microtasks microtasks promises].
    intros H1 H2 H3. destruct (C pid c item' r' H1 H2 H3) as [H|[(e' & -> & H)|H]].
    + rewrite Em in H. apply elem_of_cons in H as [?|H]; [done|].
      left. apply elem_of_app. by left.
    + rewrite Em in H. apply elem_of_cons in H as [[= -> ->]|H].
      * right. right. apply settle_pending. simpl.
        by apply (Hhead item).
      * right. left. exists e'. split; [done|]. apply elem_of_app. by left.
    + right. right. by apply settle_keeps.
  - (* finally *)
    apply chained_runNext.
    intros pid c item' r'. simpl.
    intros H1 H2 H3. destruct (C pid c item' r' H1 H2 H3) as [H|[(e' & -> & H)|H]].
    + rewrite Em in H. apply elem_of_cons in H as [?|H]; [done|]. by left.
    + rewrite Em in H. apply elem_of_cons in H as [?|H]; [done|].
      right. left. by exists e'.
    + by right; right.
Qed.

Lemma chained_step w a : Owned w -> Chained w -> Chained (step w a).
Proof.
  intros O C. destruct a as [sig| |sig|pid code|pid|]; simpl.
  - by apply chained_run.
  - done.
  - by apply chained_abort.
  - unfold emitClose. destruct (children w !! pid) as [c|]; [|done].
    destruct (c_listening c); [by apply chained_onClose | done].
  - unfold emitError. destruct (children w !! pid) as [c|]; [|done].
    destruct (c_listening c); [by apply chained_onError | done].
  - by apply chained_tick.
Qed.

Lemma reachable_chained w : reachable w -> Chained w.
Proof.
  induction 1 as [i cmd|w a R IH]; [apply chained_create|].
  apply chained_step; [by apply reachable_owned | done].
Qed.

End ChainFacts.


(** ** The job loop gets there *)

Section Progress.
Implicit Types (w : World) (pid : Pid) (c : Child) (item : QueueItem).

Lemma kept_settle_exec pid r w : kept w (settle_exec pid r w).
Proof.
  intros k r' H. unfold settle_exec. destruct (children w !! pid) as [c|]; [|done].
  destruct (c_state c); [done|]. destruct (c_consumer c); [|done].
  by apply settle_keeps.
Qed.

Lemma kept_dispatchAbort sig w pid : kept w (dispatchAbort sig w pid).
Proof.
  intros k r H. unfold dispatchAbort. destruct (children w !! pid) as [c|]; [|done].
  destruct (hears sig c); [|done]. by apply kept_settle_exec.
Qed.

Lemma kept_dispatchAborts sig pids w : kept w (foldl (dispatchAbort sig) w pids).
Proof.
  revert w. induction pids as [|pid pids IH]; intros w k r H; simpl; [done|].
  by apply IH, kept_dispatchAbort.
Qed.

Lemma kept_exec (osig : option nat) (k0 : Consumer) w : kept w (exec osig k0 w).
Proof.
  intros k r H. destruct (exec_cases osig k0 w) as [[_ ->]|[_ ->]]; [|done].
  destruct k0; simpl; [by apply settle_keeps | done].
Qed.

Lemma kept_step w a : kept w (step w a).
Proof.
  intros k r H. destruct a as [sig| |sig|pid code|pid|]; simpl.
  - unfold run. destruct (is_aborted sig w); [by apply lookup_snoc_old|].
    destruct (is_successful sig w); [by apply lookup_snoc_old|].
    assert (promises (exec sig (Direct (length (promises w))) (new_promise None w)) !! k
            = Some (Some r)) as Hd.
    { apply kept_exec. by apply lookup_snoc_old. }
    destruct sig as [s|]; [|done].
    destruct (_memoize (this w)); [|done].
    cbv zeta. cbn [fst]. rewrite promises_runNext. by apply lookup_snoc_old.
  - done.
  - unfold abort. destruct (bool_decide (sig ∈ aborted w)); [done|].
    by apply kept_dispatchAborts.
  - unfold emitClose. destruct (children w !! pid) as [c|]; [|done].
    destruct (c_listening c); [|done]. rewrite onClose_unfold.
    by apply kept_settle_exec.
  - unfold emitError. destruct (children w !! pid) as [c|]; [|done].
    destruct (c_listening c); [|done]. by apply kept_settle_exec.
  - unfold tick. destruct (microtasks w) as [|m ms]; [done|].
    destruct m as [item [|e]|item [|e]|]; try done.
    + unfold enqueue. cbn [promises with_microtasks].
      rewrite promises_onFulfilled. by apply settle_all_keeps.
    + unfold enqueue, onRejected. cbn [promises with_microtasks].
      by apply settle_keeps.
    + cbv zeta. by rewrite promises_runNext.
Qed.

Lemma kept_steps w tr : kept w (steps w tr).
Proof.
  revert w. induction tr as [|a tr IH]; intros w k r H; simpl; [done|].
  by apply IH, kept_step.
Qed.

Lemma outcome_kept w tr k r :
  outcome w k = Some r -> outcome (steps w tr) k = Some r.
Proof.
  unfold outcome. intros H.
  destruct (promises w !! k) as [[r'|]|] eqn:E; simplify_eq/=.
  by rewrite (kept_steps w tr _ _ E).
Qed.

(** A tick removes the oldest reaction and adds at most one at the end. *)
Lemma microtasks_tick w :
  exists extra, microtasks (tick w) = tail (microtasks w) ++ extra.
Proof.
  unfold tick. destruct (microtasks w) as [|m ms] eqn:Em.
  { exists []. simpl. by rewrite Em. }
  destruct m as [item [|e]|item [|e]|]; simpl.
  - eexists. unfold enqueue. cbn [microtasks with_microtasks].
    by rewrite microtasks_onFulfilled.
  - by eexists.
  - by eexists.
  - eexists. unfold enqueue, onRejected. cbn [microtasks with_microtasks].
    by rewrite settle_microtasks.
  - destruct (microtasks_runNext_cases (with_microtasks ms w)) as [->|(_ & it & ->)].
    + exists []. by rewrite app_nil_r.
    + by eexists.
Qed.

Lemma steps_app w tr1 tr2 : steps w (tr1 ++ tr2) = steps (steps w tr1) tr2.
Proof. apply foldl_app. Qed.

Lemma ticks_add n m : ticks (n + m) = ticks n ++ ticks m.
Proof. apply replicate_add. Qed.

(** Every scheduled reaction reaches the head of the queue. *)
Lemma ticks_to_head pre w job post :
  microtasks w = pre ++ job :: post ->
  exists post', microtasks (steps w (ticks (length pre))) = job :: post'.
Proof.
  revert w post. induction pre as [|m pre IH]; intros w post H; simpl.
  - by exists post.
  - destruct (microtasks_tick w) as [extra He]. rewrite H in He. simpl in He.
    rewrite <- app_assoc in He. simpl in He. by apply (IH _ _ He).
Qed.

(** The [then] callback resolves the promise of its item. *)
Lemma then_resolves w item ms :
  reachable w -> microtasks w = ThenJob item Resolved :: ms ->
  outcome (tick w) (promise item) = Some Resolved.
Proof.
  intros R Em. pose proof (reachable_owned _ R) as [N P D].
  assert (promises w !! promise item = Some None) as Hp.
  { apply P. unfold holders. rewrite Em, bind_cons.
    apply elem_of_app. right. apply elem_of_app. right. left. }
  unfold tick, outcome. rewrite Em. unfold enqueue. cbn [promises with_microtasks].
  rewrite promises_onFulfilled, settle_all_cons.
  rewrite (settle_all_keeps _ _ _ Resolved); [done|]. by apply settle_pending.
Qed.

(** The [catch] callback rejects the promise of its item with the error
    of the execution. *)
Lemma catch_rejects w item e ms :
  reachable w -> microtasks w = CatchJob item (Rejected e) :: ms ->
  outcome (tick w) (promise item) = Some (Rejected e).
Proof.
  intros R Em. pose proof (reachable_owned _ R) as [N P D].
  assert (promises w !! promise item = Some None) as Hp.
  { apply P. unfold holders. rewrite Em, bind_cons.
    apply elem_of_app. right. apply elem_of_app. right. left. }
  unfold tick, outcome. rewrite Em. unfold enqueue, onRejected.
  cbn [promises with_microtasks]. by rewrite settle_pending.
Qed.

Lemma catch_job_settles w item e :
  reachable w -> CatchJob item (Rejected e) ∈ microtasks w ->
  exists n, outcome (steps w (ticks n)) (promise item) = Some (Rejected e).
Proof.
  intros R (pre & post & H)%list_elem_of_split.
  destruct (ticks_to_head _ _ _ _ H) as [post' H'].
  exists (length pre + 1). rewrite ticks_add, steps_app. simpl.
  eapply catch_rejects; [by apply reachable_steps | done].
Qed.

(** What is on its way arrives after finitely many ticks. *)
Lemma on_its_way_settles w item r :
  reachable w -> on_its_way w item r ->
  exists n, outcome (steps w (ticks n)) (promise item) = Some r.
Proof.
  intros R [H|[(e & -> & H)|H]].
  - apply list_elem_of_split in H as (pre & post & H).
    destruct (ticks_to_head _ _ _ _ H) as [post' H'].
    set (w1 := steps w (ticks (length pre))) in *.
    assert (reachable w1) as R1 by by apply reachable_steps.
    destruct r as [|e].
    + exists (length pre + 1). rewrite ticks_add, steps_app. simpl.
      by eapply then_resolves.
    + assert (reachable (tick w1)) as R2 by apply (reach_step w1 Tick R1).
      destruct (catch_job_settles (tick w1) item e R2) as [n Hn].
      { unfold tick. rewrite H'. unfold enqueue. simpl.
        apply elem_of_app. right. left. }
      exists (length pre + (1 + n)). by rewrite !ticks_add, !steps_app.
  - by apply catch_job_settles.
  - exists 0. unfold outcome. simpl. by rewrite H.
Qed.

(** The promise of a drained item is pending while its execution runs,
    and takes the result of the execution once the chain has run. *)
Lemma drained_pending w pid c item :
  reachable w -> children w !! pid = Some c -> c_consumer c = Drained item ->
  c_state c = None -> outcome w (promise item) = None.
Proof.
  intros R H Hc Hs. pose proof (reachable_owned _ R) as [N P D].
  pose proof (running_holder _ _ _ H Hs) as Hin. rewrite Hc in Hin. simpl in Hin.
  unfold outcome. by rewrite (P _ Hin).
Qed.

Lemma drained_settles w pid c item r :
  reachable w -> children w !! pid = Some c -> c_consumer c = Drained item ->
  c_state c = Some r ->
  exists n, forall tr, outcome (steps w (ticks n ++ tr)) (promise item) = Some r.
Proof.
  intros R H Hc Hs. pose proof (reachable_chained _ R _ _ _ _ H Hc Hs) as Hw.
  destruct (on_its_way_settles _ _ _ R Hw) as [n Hn]. exists n. intros tr.
  rewrite steps_app. by apply outcome_kept.
Qed.

End Progress.

(** C5: when the object is not memoized, or the call has no signal, the
    call has succeeded exactly when the ['close'] listener of its own
    child ran with code 0; when it ran with another code the call has
    failed with that code.  Unless the signal is already aborted (then
    nothing is spawned and the call has failed), [run] executes directly:
    it calls [exec] at once, queues nothing and returns the promise of
    that execution.  When [spawn] returns a handle the child runs and the
    call is pending until one of its events; when [spawn] throws there is
    no child, so no exit code, and the call has failed at once. *)
Theorem run_direct_succeeds_iff_exit_zero
    (w : World) (osig : option Signal) (tr : list Action) :
  reachable w -> _memoize (this w) = false \/ osig = None ->
  let w1 := fst (run osig w) in
  let k := snd (run osig w) in
  let pid := spawns w in
  let w2 := steps w1 tr in
  (is_aborted osig w = false ->
   (run osig w = (exec osig (Direct k) (new_promise None w), k)
    /\ queue (this w1) = queue (this w))
   /\ (spawn_throws (command (this w)) = false ->
       (spawns w1 = S (spawns w)
        /\ children w1 !! pid = Some (fresh_child osig (Direct k))
        /\ outcome w1 k = None)
       /\ exists c, children w2 !! pid = Some c /\ c_consumer c = Direct k
            /\ outcome w2 k = resultOf <$> c_event c
            /\ (c_listening c = true -> forall code,
                  outcome (step w2 (Close pid code)) k = Some (closeResult code)))
   /\ (spawn_throws (command (this w)) = true ->
       spawns w1 = spawns w /\ children w1 = children w
       /\ _childProcess (this w1) = _childProcess (this w)
       /\ outcome w1 k = Some (Rejected SpawnThrew)
       /\ outcome w2 k = Some (Rejected SpawnThrew)))
  /\ (outcome w2 k = Some Resolved
      <-> exists c, children w2 !! pid = Some c /\ c_consumer c = Direct k
                    /\ c_event c = Some (EvClose (Some 0%Z)))
  /\ (forall c code, children w2 !! pid = Some c -> c_consumer c = Direct k ->
        c_event c = Some (EvClose code) -> code <> Some 0%Z ->
        outcome w2 k = Some (Rejected (ProcessExitCode code))).
Proof.
  intros R Hm w1 k pid w2.
  assert (reachable w1) as R1 by apply (reach_step w (CallRun osig) R).
  assert (reachable w2) as R2 by by apply reachable_steps.
  assert (command (this w2) = command (this w)) as Hcmd.
  { unfold w2. rewrite command_steps. apply (identity_step w (CallRun osig)). }
  assert (is_aborted osig w = false -> spawn_throws (command (this w)) = false ->
          exists c, children w2 !! pid = Some c /\ c_consumer c = Direct k
            /\ children w1 !! pid = Some (fresh_child osig (Direct k))) as Hchild.
  { intros Ha Ht.
    assert (children w1 !! pid = Some (fresh_child osig (Direct k))) as Hpid.
    { unfold w1, k, pid, spawns. rewrite run_direct by done. simpl.
      rewrite exec_spawned by done. apply lookup_snoc_new. }
    destruct (children_le_steps w1 tr _ _ Hpid) as (c & Hc & Hle).
    apply child_le_same in Hle as [_ Hcons]. by exists c. }
  assert (is_aborted osig w = false -> spawn_throws (command (this w)) = true ->
          w1 = settle k (Rejected SpawnThrew) (new_promise None w)
          /\ outcome w1 k = Some (Rejected SpawnThrew)) as Hthrow.
  { intros Ha Ht.
    assert (w1 = settle k (Rejected SpawnThrew) (new_promise None w)) as E1.
    { unfold w1, k. rewrite run_direct by done. simpl. by rewrite exec_thrown. }
    split; [done|]. rewrite E1. unfold outcome, k. rewrite run_direct by done.
    simpl. rewrite settle_pending; [done|]. apply lookup_snoc_new. }
  split; [|split].
  - intros Ha. split; [|split].
    + split; [unfold k; by rewrite run_direct|].
      unfold w1. rewrite run_direct by done. simpl.
      destruct (exec_cases osig (Direct (length (promises w))) (new_promise None w))
        as [[_ ->]|[_ ->]]; [|done].
      by rewrite this_thrown.
    + intros Ht. destruct (Hchild Ha Ht) as (c & Hc & Hcons & Hpid). split.
      { split; [|split; [done|]].
        - unfold w1, spawns. rewrite run_direct by done. simpl.
          rewrite exec_spawned by done. simpl. rewrite length_app. simpl. lia.
        - by rewrite (direct_outcome w1 pid _ k R1 Hpid). }
      exists c. split; [done|]. split; [done|].
      split; [by apply (direct_outcome w2 pid)|].
      intros Hl code.
      assert (reachable (step w2 (Close pid code))) as R3 by by apply reach_step.
      assert (children (step w2 (Close pid code)) !! pid
              = Some (exited (EvClose code) (closeResult code) c)) as Hc3.
      { simpl. unfold emitClose. rewrite Hc, Hl, children_onClose.
        by rewrite list_lookup_alter_eq, Hc. }
      rewrite (direct_outcome _ pid _ k R3 Hc3) by done. simpl.
      pose proof (reachable_child_ok _ _ _ R2 Hc) as Hok. unfold child_ok in Hok.
      rewrite Hl in Hok. destruct Hok as (_ & _ & _ & _ & ->). done.
    + intros Ht. destruct (Hthrow Ha Ht) as [E1 Ho].
      split; [|split; [|split; [|split]]].
      * unfold spawns. by rewrite E1, settle_children.
      * by rewrite E1, settle_children.
      * by rewrite E1, settle_this.
      * done.
      * by apply outcome_kept.
  - split.
    + intros Ho. destruct (is_aborted osig w) eqn:Ha.
      * (* rejected at once, and a promise settles once *)
        assert (outcome w1 k = Some (Rejected SignalAlreadyAborted)) as Hrej.
        { unfold w1, k, run. rewrite Ha. apply outcome_new. }
        apply (outcome_kept w1 tr) in Hrej. fold w2 in Hrej. congruence.
      * destruct (spawn_throws (command (this w))) eqn:Ht.
        { destruct (Hthrow eq_refl eq_refl) as [_ Hrej].
          apply (outcome_kept w1 tr) in Hrej. fold w2 in Hrej. congruence. }
        destruct (Hchild eq_refl eq_refl) as (c & Hc & Hcons & _).
        exists c. split; [done|]. split; [done|].
        rewrite (direct_outcome w2 pid c k R2 Hc Hcons) in Ho.
        destruct (c_event c) as [ev|]; simplify_eq/=.
        f_equal. by apply resultOf_resolved.
    + intros (c & Hc & Hcons & Hev).
      by rewrite (direct_outcome w2 pid c k R2 Hc Hcons), Hev.
  - intros c code Hc Hcons Hev Hne.
    rewrite (direct_outcome w2 pid c k R2 Hc Hcons), Hev. simpl.
    by rewrite closeResult_nonzero.
Qed.

Lemma run_direct_succeeds_iff_exit_zero_witness :
  let w := steps (create 1 "job") [CallRun (Some 3)] in
  (outcome (steps (fst (run None w)) [Close 1 (Some 0%Z); Close 0 (Some 2%Z)]) 1
   = Some Resolved)
  /\ spawns (fst (run None w)) = 2.
Proof.
  intros w.
  assert (reachable w) as R by apply reachable_steps, reach_create.
  destruct (run_direct_succeeds_iff_exit_zero w None
              [Close 1 (Some 0%Z); Close 0 (Some 2%Z)] R (or_intror eq_refl))
    as (Hdirect & Hiff & _).
  destruct (Hdirect eq_refl) as (_ & Hok & _).
  destruct (Hok eq_refl) as ((H1 & _) & _).
  split; [|exact H1].
  apply Hiff. eexists. split; [by vm_compute|]. by split.
Defined.


(** ** Cancellation *)

Section Cancellation.
Implicit Types (w : World) (pid : Pid) (c : Child) (sig : Signal).

Lemma children_dispatchAbort_lookup sig w p pid :
  children (dispatchAbort sig w p) !! pid
  = if decide (pid = p) then aborting sig <$> children w !! pid
    else children w !! pid.
Proof.
  unfold dispatchAbort. destruct (decide (pid = p)) as [->|Hne].
  - destruct (children w !! p) as [c|] eqn:E; [|by rewrite E].
    unfold aborting. simpl. destruct (hears sig c); [|done].
    by rewrite children_onAbort, list_lookup_alter_eq, E.
  - destruct (children w !! p) as [c|] eqn:E; [|done].
    destruct (hears sig c); [|done].
    by rewrite children_onAbort, list_lookup_alter_ne.
Qed.

Lemma children_dispatchAborts_lookup sig pids w pid :
  NoDup pids ->
  children (foldl (dispatchAbort sig) w pids) !! pid
  = if decide (pid ∈ pids) then aborting sig <$> children w !! pid
    else children w !! pid.
Proof.
  revert w. induction pids as [|p pids IH]; intros w N.
  { cbn [foldl]. case_decide as H; [by apply elem_of_nil in H | done]. }
  apply NoDup_cons in N as [Hp N]. cbn [foldl]. rewrite IH by done.
  rewrite children_dispatchAbort_lookup.
  destruct (decide (pid ∈ pids)) as [Hin|Hnin];
    destruct (decide (pid = p)) as [->|Hne];
    destruct (decide (_ ∈ p :: pids)) as [Hin'|Hnin']; try done.
  - exfalso. apply Hnin'. by right.
  - exfalso. apply Hnin'. left.
  - apply elem_of_cons in Hin' as [?|?]; done.
Qed.

Lemma children_abort_lookup sig w pid :
  sig ∉ aborted w ->
  children (abort sig w) !! pid = aborting sig <$> children w !! pid.
Proof.
  intros Ha. unfold abort. rewrite bool_decide_eq_false_2 by done.
  rewrite children_dispatchAborts_lookup by apply NoDup_seq. simpl.
  destruct (decide (pid ∈ seq 0 (length (children w)))) as [Hin|Hnin]; [done|].
  rewrite elem_of_seq in Hnin.
  rewrite (lookup_ge_None_2 (children w) pid); [done | lia].
Qed.

Lemma slot_dispatchAbort_none sig w p :
  _childProcess (this w) = None -> _childProcess (this (dispatchAbort sig w p)) = None.
Proof.
  intros H. unfold dispatchAbort. destruct (children w !! p) as [c|]; [|done].
  destruct (hears sig c); [|done]. by rewrite this_onAbort.
Qed.

Lemma slot_dispatchAborts_none sig pids w :
  _childProcess (this w) = None ->
  _childProcess (this (foldl (dispatchAbort sig) w pids)) = None.
Proof.
  revert w. induction pids as [|p pids IH]; intros w H; simpl; [done|].
  by apply IH, slot_dispatchAbort_none.
Qed.

(** An abort that nobody hears, or that comes with the slot empty, leaves
    the slot empty. *)
Lemma slot_abort_none sig w :
  _childProcess (this w) = None -> _childProcess (this (abort sig w)) = None.
Proof.
  intros H. unfold abort. destruct (bool_decide (sig ∈ aborted w)); [done|].
  by apply slot_dispatchAborts_none.
Qed.

(** An abort that some execution hears empties the slot. *)
Lemma slot_abort_heard sig w pid c :
  sig ∉ aborted w -> children w !! pid = Some c -> hears sig c = true ->
  _childProcess (this (abort sig w)) = None.
Proof.
  intros Ha H Hh. unfold abort. rewrite bool_decide_eq_false_2 by done.
  assert (pid ∈ seq 0 (length (children w))) as Hin.
  { apply elem_of_seq. apply lookup_lt_Some in H. lia. }
  pose proof (NoDup_seq 0 (length (children w))) as N.
  apply list_elem_of_split in Hin as (l1 & l2 & Hl). rewrite Hl in N |- *.
  rewrite foldl_app. simpl. apply slot_dispatchAborts_none.
  set (wa := foldl _ _ l1).
  assert (children wa !! pid = Some c) as Hwa.
  { unfold wa. apply NoDup_app in N as (N1 & Hdis & _).
    rewrite children_dispatchAborts_lookup by done.
    rewrite decide_False; [done|]. intros Hin. apply (Hdis _ Hin). left. }
  unfold dispatchAbort. rewrite Hwa, Hh. by rewrite this_onAbort.
Qed.

(** The result of an execution reaches the promise of the call it was
    made for: at once for a direct execution, through the chain for a
    drained one.  From then on the promise keeps it. *)
Lemma exec_result_reaches_call w pid c r :
  reachable w -> children w !! pid = Some c -> c_state c = Some r ->
  exists n, forall tr,
    outcome (steps w (ticks n ++ tr)) (consumer_call (c_consumer c)) = Some r.
Proof.
  intros R H Hs. destruct (c_consumer c) as [k|item] eqn:Ec; simpl.
  - exists 0. intros tr. simpl. apply outcome_kept.
    pose proof (reachable_owned _ R) as [N P D]. unfold outcome.
    by rewrite (D _ _ _ _ H Ec Hs).
  - by eapply drained_settles.
Qed.

Lemma exec_pending w pid c :
  reachable w -> children w !! pid = Some c -> c_state c = None ->
  outcome w (consumer_call (c_consumer c)) = None.
Proof.
  intros R H Hs. pose proof (reachable_owned _ R) as [N P D].
  unfold outcome. by rewrite (P _ (running_holder _ _ _ H Hs)).
Qed.

End Cancellation.


(** Every execution that got a handle is cleaned up and settled exactly
    once.  At any time a child has run [cleanup] never or once, and as
    often as it has settled its promise; once it has, no later event
    changes it.  For a running child each of the three events runs
    [cleanup] once, empties the slot and settles the promise: an abort of
    its signal with 'Process aborted by signal.', which is then the
    result of the call.  When abort and termination both happen, the
    first decides: the other finds no listener, the child and the empty
    slot stay as they are and the call keeps its result. *)
Lemma handle_cleaned_and_settled_once (w : World) (pid : Pid) (c : Child) :
  reachable w -> children w !! pid = Some c ->
  let call := consumer_call (c_consumer c) in
  (c_cleanups c <= 1 /\ c_kills c = c_cleanups c /\ c_settles c = c_cleanups c
   /\ (c_listening c = false <-> c_cleanups c = 1)
   /\ (is_Some (c_state c) <-> c_cleanups c = 1))
  /\ (c_listening c = false -> forall tr, children (steps w tr) !! pid = Some c)
  /\ (c_listening c = true ->
      outcome w call = None
      /\ (forall sig, c_signal c = Some sig -> sig ∉ aborted w ->
            let w1 := abort sig w in
            let c1 := exited EvAbort (Rejected ProcessAborted) c in
            children w1 !! pid = Some c1
            /\ (c_cleanups c1 = 1 /\ c_settles c1 = 1
                /\ c_state c1 = Some (Rejected ProcessAborted))
            /\ _childProcess (this w1) = None
            /\ (forall code, emitClose pid code w1 = w1) /\ emitError pid w1 = w1
            /\ exists n, forall tr,
                 outcome (steps w1 (ticks n ++ tr)) call = Some (Rejected ProcessAborted))
      /\ (forall code,
            let w1 := emitClose pid code w in
            let c1 := exited (EvClose code) (closeResult code) c in
            children w1 !! pid = Some c1
            /\ (c_cleanups c1 = 1 /\ c_settles c1 = 1
                /\ c_state c1 = Some (closeResult code))
            /\ _childProcess (this w1) = None
            /\ (forall sig, children (abort sig w1) !! pid = Some c1
                            /\ _childProcess (this (abort sig w1)) = None)
            /\ exists n, forall tr,
                 outcome (steps w1 (ticks n ++ tr)) call = Some (closeResult code))
      /\ (let w1 := emitError pid w in
          let c1 := exited EvError (Rejected ProcessError) c in
          children w1 !! pid = Some c1
          /\ (c_cleanups c1 = 1 /\ c_settles c1 = 1
              /\ c_state c1 = Some (Rejected ProcessError))
          /\ _childProcess (this w1) = None
          /\ (forall sig, children (abort sig w1) !! pid = Some c1
                          /\ _childProcess (this (abort sig w1)) = None)
          /\ exists n, forall tr,
               outcome (steps w1 (ticks n ++ tr)) call = Some (Rejected ProcessError))).
Proof.
  intros R H call. pose proof (reachable_child_ok _ _ _ R H) as Hok.
  unfold child_ok in Hok. split; [|split].
  - destruct (c_listening c).
    + destruct Hok as (-> & -> & -> & -> & _). repeat split; try done; try lia.
    + destruct Hok as (-> & -> & -> & ev & _ & ->). repeat split; try done; lia.
  - intros L tr. by apply exited_frozen.
  - intros L. rewrite L in Hok. destruct Hok as (Hk & Hc & Hs & Hst & Hev).
    split; [by eapply exec_pending|]. split; [|split].
    + (* abort first *)
      intros sig Hsig Ha w1 c1.
      assert (hears sig c = true) as Hh.
      { unfold hears. rewrite L, Hsig. simpl. by apply bool_decide_eq_true. }
      assert (children w1 !! pid = Some c1) as H1.
      { unfold w1. rewrite children_abort_lookup, H by done. simpl.
        unfold aborting. by rewrite Hh. }
      assert (reachable w1) as R1 by apply (reach_step w (Abort sig) R).
      split; [done|]. split.
      { unfold c1. simpl. rewrite Hc, Hs, Hst. done. }
      split; [by eapply slot_abort_heard|].
      split; [|split].
      * intros code. unfold emitClose. by rewrite H1.
      * unfold emitError. by rewrite H1.
      * apply (exec_result_reaches_call w1 pid c1); [done..|].
        unfold c1. simpl. by rewrite Hst.
    + (* close first *)
      intros code w1 c1.
      assert (children w1 !! pid = Some c1) as H1.
      { unfold w1, emitClose. rewrite H, L, children_onClose.
        by rewrite list_lookup_alter_eq, H. }
      assert (_childProcess (this w1) = None) as Hslot.
      { unfold w1, emitClose. rewrite H, L. by rewrite this_onClose. }
      assert (reachable w1) as R1 by apply (reach_step w (Close pid code) R).
      split; [done|]. split.
      { unfold c1. simpl. rewrite Hc, Hs, Hst. done. }
      split; [done|]. split.
      * intros sig. split; [|by apply slot_abort_none].
        by apply (exited_frozen w1 [Abort sig]).
      * apply (exec_result_reaches_call w1 pid c1); [done..|].
        unfold c1. simpl. by rewrite Hst.
    + (* error first *)
      intros w1 c1.
      assert (children w1 !! pid = Some c1) as H1.
      { unfold w1, emitError. rewrite H, L, children_onError.
        by rewrite list_lookup_alter_eq, H. }
      assert (_childProcess (this w1) = None) as Hslot.
      { unfold w1, emitError. rewrite H, L. by rewrite this_onError. }
      assert (reachable w1) as R1 by apply (reach_step w (Error pid) R).
      split; [done|]. split.
      { unfold c1. simpl. rewrite Hc, Hs, Hst. done. }
      split; [done|]. split.
      * intros sig. split; [|by apply slot_abort_none].
        by apply (exited_frozen w1 [Abort sig]).
      * apply (exec_result_reaches_call w1 pid c1); [done..|].
        unfold c1. simpl. by rewrite Hst.
Qed.

(** C3 (the claim at an input where it fails): the command is the empty
    string, so [spawn] throws inside the executor of [exec].  The call
    went through [exec] and its promise is settled, but [cleanup] has
    not run: there is no handle to clean, and no execution of the object
    has run [cleanup] once. *)
Lemma exec_throw_settles_without_cleanup :
  let w0 := create 1 "" in
  let w := fst (run None w0) in
  run None w0 = (exec None (Direct 0) (new_promise None w0), 0)
  /\ outcome w 0 = Some (Rejected SpawnThrew)
  /\ spawns w = 0 /\ _childProcess (this w) = None
  /\ ~ (exists pid c, children w !! pid = Some c /\ c_cleanups c = 1).
Proof.
  intros w0 w. split; [done|]. split; [by vm_compute|]. split; [done|].
  split; [done|]. intros (pid & c & H & _).
  assert (children w = []) as E by by vm_compute.
  rewrite E in H. by rewrite lookup_nil in H.
Qed.

(** C3 (amended): every call of [exec] settles its promise exactly once,
    and every execution that got a handle runs [cleanup] exactly once, on
    each of its exit paths.  When [spawn] throws, the promise of [exec]
    is rejected with what was thrown and that is all: the children, the
    slot and the signals are untouched, so there is nothing to clean, and
    an object with such a command never has a child.  When [spawn]
    returns, the handle is stored in the slot, and for that child: an
    abort of its signal while it runs cleans up and fails the call with
    'Process aborted by signal.'; when abort and termination both
    happen, the first decides, the other is a no-op, and the slot ends
    empty whichever came first. *)
Theorem exec_cleanup_and_settle_once
    (w : World) (osig : option Signal) (k : Consumer) (pid : Pid) (c : Child) :
  (spawn_throws (command (this w)) = true ->
   let w' := exec osig k w in
   children w' = children w /\ this w' = this w /\ aborted w' = aborted w
   /\ match k with
      | Direct call =>
          microtasks w' = microtasks w
          /\ (promises w !! call = Some None ->
              outcome w' call = Some (Rejected SpawnThrew))
          /\ (forall j, j <> call -> promises w' !! j = promises w !! j)
      | Drained item =>
          microtasks w' = microtasks w ++ [ThenJob item (Rejected SpawnThrew)]
          /\ promises w' = promises w
      end
   /\ (reachable w -> children w = [] /\ _childProcess (this w) = None))
  /\ (spawn_throws (command (this w)) = false ->
      let w' := exec osig k w in
      children w' = children w ++ [fresh_child osig k]
      /\ _childProcess (this w') = Some (spawns w)
      /\ promises w' = promises w /\ microtasks w' = microtasks w
      /\ aborted w' = aborted w)
  /\ (reachable w -> children w !! pid = Some c ->
      let call := consumer_call (c_consumer c) in
      spawn_throws (command (this w)) = false
      /\ (c_cleanups c <= 1 /\ c_kills c = c_cleanups c /\ c_settles c = c_cleanups c
          /\ (c_listening c = false <-> c_cleanups c = 1)
          /\ (is_Some (c_state c) <-> c_cleanups c = 1))
      /\ (c_listening c = false -> forall tr, children (steps w tr) !! pid = Some c)
      /\ (c_listening c = true ->
          outcome w call = None
          /\ (forall sig, c_signal c = Some sig -> sig ∉ aborted w ->
                let w1 := abort sig w in
                let c1 := exited EvAbort (Rejected ProcessAborted) c in
                children w1 !! pid = Some c1
                /\ (c_cleanups c1 = 1 /\ c_settles c1 = 1
                    /\ c_state c1 = Some (Rejected ProcessAborted))
                /\ _childProcess (this w1) = None
                /\ (forall code, emitClose pid code w1 = w1) /\ emitError pid w1 = w1
                /\ exists n, forall tr,
                     outcome (steps w1 (ticks n ++ tr)) call
                     = Some (Rejected ProcessAborted))
          /\ (forall code,
                let w1 := emitClose pid code w in
                let c1 := exited (EvClose code) (closeResult code) c in
                children w1 !! pid = Some c1
                /\ (c_cleanups c1 = 1 /\ c_settles c1 = 1
                    /\ c_state c1 = Some (closeResult code))
                /\ _childProcess (this w1) = None
                /\ (forall sig, children (abort sig w1) !! pid = Some c1
                                /\ _childProcess (this (abort sig w1)) = None)
                /\ exists n, forall tr,
                     outcome (steps w1 (ticks n ++ tr)) call = Some (closeResult code))
          /\ (let w1 := emitError pid w in
              let c1 := exited EvError (Rejected ProcessError) c in
              children w1 !! pid = Some c1
              /\ (c_cleanups c1 = 1 /\ c_settles c1 = 1
                  /\ c_state c1 = Some (Rejected ProcessError))
              /\ _childProcess (this w1) = None
              /\ (forall sig, children (abort sig w1) !! pid = Some c1
                              /\ _childProcess (this (abort sig w1)) = None)
              /\ exists n, forall tr,
                   outcome (steps w1 (ticks n ++ tr)) call
                   = Some (Rejected ProcessError)))).
Proof.
  split; [|split].
  - intros Ht w'. unfold w'. rewrite exec_thrown by done.
    rewrite children_thrown, this_thrown, aborted_thrown.
    split; [done|]. split; [done|]. split; [done|]. split.
    + destruct k as [call|item]; simpl.
      * split; [apply settle_microtasks|]. split.
        -- intros Hp. unfold outcome. by rewrite settle_pending.
        -- intros j Hj. by apply settle_other.
      * done.
    + intros R. by destruct (reachable_barren w R Ht) as (? & ? & _).
  - intros Ht w'. unfold w'. by rewrite exec_spawned.
  - intros R H call. split; [by apply (child_accepted w pid c)|].
    apply (handle_cleaned_and_settled_once w pid c R H).
Qed.

Lemma exec_cleanup_and_settle_once_witness :
  let w := steps (create 1 "job") [CallRun (Some 4)] in
  let v := create 2 "" in
  (children (steps w [Abort 4; Close 0 (Some 0%Z)]) !! 0
   = Some (mkChild (Some 4) (Direct 0) false 1 1 1
             (Some (Rejected ProcessAborted)) (Some EvAbort))
   /\ children (steps w [Close 0 (Some 0%Z); Abort 4]) !! 0
      = Some (mkChild (Some 4) (Direct 0) false 1 1 1
                (Some Resolved) (Some (EvClose (Some 0%Z))))
   /\ _childProcess (this (steps w [Close 0 (Some 0%Z); Abort 4])) = None)
  /\ (children (exec None (Direct 0) (new_promise None v)) = []
      /\ outcome (exec None (Direct 0) (new_promise None v)) 0
         = Some (Rejected SpawnThrew))
  /\ children (exec (Some 4) (Direct 1) (new_promise None w))
     = children w ++ [fresh_child (Some 4) (Direct 1)].
Proof.
  intros w v.
  assert (reachable w) as R by apply reachable_steps, reach_create.
  split; [|split].
  - destruct (exec_cleanup_and_settle_once w None (Direct 0) 0
                (fresh_child (Some 4) (Direct 0))) as (_ & _ & Hchild).
    destruct (Hchild R eq_refl) as (_ & _ & _ & Hrun).
    destruct (Hrun eq_refl) as (_ & Habort & Hclose & _).
    split; [|split].
    + assert (4 ∉ aborted w) as Ha by (apply (bool_decide_unpack _); by vm_compute).
      destruct (Habort 4 eq_refl Ha) as (H1 & _ & _ & H2 & _).
      simpl. rewrite H2. exact H1.
    + destruct (Hclose (Some 0%Z)) as (_ & _ & _ & H2 & _).
      apply (H2 4).
    + destruct (Hclose (Some 0%Z)) as (_ & _ & _ & H2 & _).
      apply (H2 4).
  - destruct (exec_cleanup_and_settle_once (new_promise None v) None (Direct 0) 0
                (fresh_child None (Direct 0))) as (Hthrow & _).
    destruct (Hthrow eq_refl) as (H1 & _ & _ & (_ & H2 & _) & _).
    split; [exact H1 | by apply H2].
  - destruct (exec_cleanup_and_settle_once (new_promise None w) (Some 4) (Direct 1) 0
                (fresh_child None (Direct 0))) as (_ & Hok & _).
    by destruct (Hok eq_refl) as (H1 & _).
Defined.


(** ** The steps of the queue, one by one *)

Section QueueSteps.
Implicit Types (w : World) (pid : Pid) (c : Child) (item : QueueItem) (sig : Signal).

Lemma runNext_busy w p : _childProcess (this w) = Some p -> runNext w = w.
Proof. intros H. unfold runNext. by rewrite H. Qed.

Lemma runNext_empty w :
  _childProcess (this w) = None -> queue (this w) = [] -> runNext w = w.
Proof. intros H1 H2. unfold runNext. by rewrite H1, H2. Qed.

Lemma runNext_drain w item rest :
  _childProcess (this w) = None -> queue (this w) = item :: rest ->
  _memoize (this w) = true ->
  runNext w = exec (Some (signal item)) (Drained item) (with_this (set_queue rest) w).
Proof. intros H1 H2 H3. unfold runNext. by rewrite H1, H2, H3. Qed.

Lemma tick_then_resolved w item ms :
  microtasks w = ThenJob item Resolved :: ms ->
  tick w = enqueue (CatchJob item Resolved) (onFulfilled item (with_microtasks ms w)).
Proof. intros H. unfold tick. by rewrite H. Qed.

Lemma tick_then_rejected w item e ms :
  microtasks w = ThenJob item (Rejected e) :: ms ->
  tick w = with_microtasks (ms ++ [CatchJob item (Rejected e)]) w.
Proof. intros H. unfold tick. by rewrite H. Qed.

Lemma tick_catch_resolved w item ms :
  microtasks w = CatchJob item Resolved :: ms ->
  tick w = with_microtasks (ms ++ [FinallyJob]) w.
Proof. intros H. unfold tick. by rewrite H. Qed.

Lemma tick_catch_rejected w item e ms :
  microtasks w = CatchJob item (Rejected e) :: ms ->
  tick w = enqueue FinallyJob (settle (promise item) (Rejected e) (with_microtasks ms w)).
Proof. intros H. unfold tick. by rewrite H. Qed.

Lemma tick_finally w ms :
  microtasks w = FinallyJob :: ms -> tick w = runNext (with_microtasks ms w).
Proof. intros H. unfold tick. by rewrite H. Qed.

(** A call of [run] that finds the object idle: the item is queued and
    drained at once. *)
Lemma run_idle sig w :
  spawn_throws (command (this w)) = false ->
  sig ∉ aborted w -> _memoize (this w) = true ->
  sig ∉ successfulList (this w) ->
  _childProcess (this w) = None -> queue (this w) = [] ->
  let w1 := fst (run (Some sig) w) in
  let item := mkItem (length (promises w)) sig in
  snd (run (Some sig) w) = length (promises w)
  /\ children w1 = children w ++ [fresh_child (Some sig) (Drained item)]
  /\ promises w1 = promises w ++ [None]
  /\ microtasks w1 = microtasks w /\ aborted w1 = aborted w
  /\ _childProcess (this w1) = Some (length (children w))
  /\ queue (this w1) = []
  /\ same_config (this w) (this w1).
Proof.
  intros Ht Ha Hm Hs Hc Hq w1 item. unfold w1. rewrite run_enqueue by done.
  cbn [fst snd]. rewrite (runNext_drain _ item []); [| by simpl | simpl | by simpl].
  - rewrite exec_spawned by done. by repeat split.
  - by rewrite Hq.
Qed.

(** A call of [run] while an execution is in the slot: the item waits. *)
Lemma run_busy sig w p :
  sig ∉ aborted w -> _memoize (this w) = true ->
  sig ∉ successfulList (this w) -> _childProcess (this w) = Some p ->
  let w1 := fst (run (Some sig) w) in
  let item := mkItem (length (promises w)) sig in
  snd (run (Some sig) w) = length (promises w)
  /\ children w1 = children w
  /\ promises w1 = promises w ++ [None]
  /\ microtasks w1 = microtasks w /\ aborted w1 = aborted w
  /\ _childProcess (this w1) = Some p
  /\ queue (this w1) = queue (this w) ++ [item]
  /\ same_config (this w) (this w1).
Proof.
  intros Ha Hm Hs Hc w1 item. unfold w1. rewrite run_enqueue by done.
  cbn [fst snd]. rewrite (runNext_busy _ p) by by simpl.
  by repeat split.
Qed.

(** A handler on a running drained execution: the result goes to the
    first reaction of the chain; the queue is not looked at. *)
Lemma handler_drained ev r pid w c item :
  children w !! pid = Some c -> c_state c = None -> c_consumer c = Drained item ->
  let w1 := handler ev r pid w in
  children w1 = alter (exited ev r) pid (children w)
  /\ promises w1 = promises w
  /\ microtasks w1 = microtasks w ++ [ThenJob item r]
  /\ aborted w1 = aborted w
  /\ this w1 = set_childProcess None (this w).
Proof.
  intros H Hs Hc w1. unfold w1, handler.
  split.
  { rewrite children_settle_exec, children_cleanup, children_note.
    unfold exited. by rewrite !list_alter_alter_eq. }
  rewrite this_settle_exec, aborted_settle_exec.
  unfold settle_exec. rewrite children_cleanup, children_note.
  rewrite !list_lookup_alter_eq, H. simpl. rewrite Hs, Hc. done.
Qed.

Lemma emitClose_running w pid c code :
  children w !! pid = Some c -> c_listening c = true ->
  emitClose pid code w = handler (EvClose code) (closeResult code) pid w.
Proof. intros H L. unfold emitClose. rewrite H, L. apply onClose_unfold. Qed.


End QueueSteps.


(** ** The success branch *)

Section Success.
Implicit Types (w : World) (pid : Pid) (c : Child) (item : QueueItem) (sig : Signal).

Lemma then_job_holders w item r ms :
  microtasks w = ThenJob item r :: ms ->
  holders w
  ≡ₚ (promise item :: (promise <$> sameSignal (signal item) (queue (this w))))
     ++ ((promise <$> otherSignal (signal item) (queue (this w)))
         ++ (children w ≫= child_holder) ++ (ms ≫= task_holder)).
Proof.
  intros Em. unfold holders. rewrite Em, bind_cons.
  change (task_holder (ThenJob item r)) with [promise item].
  rewrite (sameSignal_otherSignal_perm (signal item) (queue (this w))) at 1.
  rewrite fmap_app. simpl. perm_front.
Qed.

(** What the [then] callback does, for a reachable world. *)
Lemma then_callback w item ms :
  reachable w -> microtasks w = ThenJob item Resolved :: ms ->
  let w' := tick w in
  successfulList (this w') = successfulList (this w) ++ [signal item]
  /\ outcome w' (promise item) = Some Resolved
  /\ queue (this w') = otherSignal (signal item) (queue (this w))
  /\ (forall elm, elm ∈ queue (this w) -> signal elm = signal item ->
        outcome w' (promise elm) = Some Resolved /\ elm ∉ queue (this w'))
  /\ (forall elm, elm ∈ queue (this w) -> signal elm <> signal item ->
        elm ∈ queue (this w') /\ outcome w' (promise elm) = None)
  /\ children w' = children w
  /\ _childProcess (this w') = _childProcess (this w)
  /\ microtasks w' = ms ++ [CatchJob item Resolved].
Proof.
  intros R Em w'. pose proof (reachable_owned _ R) as [N P D].
  pose proof (then_job_holders _ _ _ _ Em) as Hh.
  set (ks := promise item :: (promise <$> sameSignal (signal item) (queue (this w)))) in *.
  rewrite Hh in N. apply NoDup_app in N as (Nk & Hdis & _).
  assert (forall k, k ∈ ks -> promises w !! k = Some None) as Hpend.
  { intros k Hk. apply P. rewrite Hh. apply elem_of_app. by left. }
  assert (promises w' = promises (settle_all ks Resolved w)) as Hp.
  { unfold w'. rewrite (tick_then_resolved _ _ _ Em). unfold enqueue.
    cbn [promises with_microtasks]. rewrite promises_onFulfilled.
    by apply settle_all_promises_ext. }
  assert (this w' = set_queue (otherSignal (signal item) (queue (this w)))
            (set_successfulList (successfulList (this w) ++ [signal item]) (this w)))
    as Ht.
  { unfold w'. rewrite (tick_then_resolved _ _ _ Em). unfold enqueue.
    cbn [this with_microtasks]. by rewrite this_onFulfilled. }
  split; [by rewrite Ht|]. split; [by eapply then_resolves|].
  split; [by rewrite Ht|]. split; [|split; [|split; [|split]]].
  - intros elm Hin Hsig. split.
    + unfold outcome. rewrite Hp, (settle_all_pending ks); [done| |done..].
      right. apply list_elem_of_fmap_2. unfold sameSignal.
      by apply list_elem_of_filter.
    + rewrite Ht. simpl. unfold otherSignal. rewrite list_elem_of_filter.
      by intros [? _].
  - intros elm Hin Hsig. split.
    + rewrite Ht. simpl. unfold otherSignal. by apply list_elem_of_filter.
    + unfold outcome. rewrite Hp, settle_all_other.
      * rewrite P; [done|]. unfold holders. apply elem_of_app. left.
        by apply list_elem_of_fmap_2.
      * intros Hk. apply (Hdis _ Hk). apply elem_of_app. left.
        apply list_elem_of_fmap_2. unfold otherSignal.
        by apply list_elem_of_filter.
  - unfold w'. rewrite (tick_then_resolved _ _ _ Em). unfold enqueue.
    cbn [children with_microtasks]. by rewrite children_onFulfilled.
  - by rewrite Ht.
  - unfold w'. rewrite (tick_then_resolved _ _ _ Em). unfold enqueue.
    cbn [microtasks with_microtasks]. by rewrite microtasks_onFulfilled.
Qed.

End Success.

Section SameSignalTwice.
Implicit Types (w : World) (sig : Signal).

(** Two calls with the same signal on an idle memoized object, then the
    child exits with code 0 and the chain runs. *)
Lemma two_runs_one_spawn w sig :
  reachable w -> spawn_throws (command (this w)) = false ->
  _memoize (this w) = true -> _childProcess (this w) = None ->
  queue (this w) = [] -> microtasks w = [] ->
  sig ∉ aborted w -> sig ∉ successfulList (this w) ->
  let k1 := length (promises w) in
  let k2 := S k1 in
  let pid := spawns w in
  let w2 := steps w [CallRun (Some sig); CallRun (Some sig)] in
  let w3 := steps w2 [Close pid (Some 0%Z); Tick; Tick; Tick] in
  (snd (run (Some sig) w) = k1
   /\ snd (run (Some sig) (fst (run (Some sig) w))) = k2)
  /\ (spawns w2 = S (spawns w) /\ live w2 pid = true
      /\ outcome w2 k1 = None /\ outcome w2 k2 = None)
  /\ (spawns w3 = S (spawns w)
      /\ outcome w3 k1 = Some Resolved /\ outcome w3 k2 = Some Resolved
      /\ sig ∈ successfulList (this w3)
      /\ queue (this w3) = [] /\ _childProcess (this w3) = None).
Proof.
  intros R Ht Hm Hc Hq Hmt Ha Hs k1 k2 pid w2 w3.
  set (item1 := mkItem k1 sig). set (item2 := mkItem k2 sig).
  (* first call *)
  set (w1 := fst (run (Some sig) w)).
  destruct (run_idle sig w Ht Ha Hm Hs Hc Hq)
    as (Hk1 & Hch1 & Hp1 & Hmt1 & Ha1 & Hc1 & Hq1 & (_ & _ & Hm1 & Hs1)).
  fold w1 in Hch1, Hp1, Hmt1, Ha1, Hc1, Hq1, Hm1, Hs1. fold k1 item1 in Hch1.
  (* second call *)
  assert (w2 = fst (run (Some sig) w1)) as Ew2 by done.
  assert (length (promises w1) = k2) as Hlen1.
  { rewrite Hp1, length_app. simpl. unfold k2, k1. lia. }
  destruct (run_busy sig w1 (length (children w)))
    as (Hk2 & Hch2 & Hp2 & Hmt2 & Ha2 & Hc2 & Hq2 & (_ & _ & Hm2 & Hs2));
    [by rewrite Ha1 | by rewrite Hm1 | by rewrite Hs1 | done |].
  rewrite <- Ew2 in Hch2, Hp2, Hmt2, Ha2, Hc2, Hq2, Hm2, Hs2.
  rewrite Hlen1 in Hk2, Hq2. fold item2 in Hq2. rewrite Hq1 in Hq2. simpl in Hq2.
  assert (children w2 !! pid = Some (fresh_child (Some sig) (Drained item1))) as Hpid.
  { rewrite Hch2, Hch1. apply lookup_snoc_new. }
  assert (reachable w2) as R2 by by apply reachable_steps.
  split; [by split|]. split.
  { split; [|split; [|split]].
    - unfold spawns. rewrite Hch2, Hch1, length_app. simpl. lia.
    - unfold live. by rewrite Hpid.
    - unfold outcome. rewrite Hp2, Hp1.
      by rewrite (lookup_snoc_old _ _ k1 None) by apply lookup_snoc_new.
    - unfold outcome. rewrite Hp2, <- Hlen1. by rewrite lookup_snoc_new. }
  (* the child closes with code 0 *)
  set (wc := emitClose pid (Some 0%Z) w2).
  assert (reachable wc) as Rc by apply (reach_step w2 (Close pid (Some 0%Z)) R2).
  destruct (handler_drained (EvClose (Some 0%Z)) (closeResult (Some 0%Z)) pid w2 _ item1
              Hpid eq_refl eq_refl)
    as (Hch3 & Hp3 & Hmt3 & Ha3 & Ht3).
  rewrite <- (emitClose_running w2 pid _ (Some 0%Z) Hpid eq_refl) in Hch3, Hp3, Hmt3, Ha3, Ht3.
  fold wc in Hch3, Hp3, Hmt3, Ha3, Ht3. rewrite Hmt2, Hmt1, Hmt in Hmt3.
  rewrite closeResult_zero in Hmt3. simpl in Hmt3.
  (* the then callback *)
  destruct (then_callback wc item1 [] Rc Hmt3)
    as (Hs4 & Ho1 & Hq4 & Hsame & _ & Hch4 & Hc4 & Hmt4).
  set (w4 := tick wc) in *.
  assert (queue (this wc) = [item2]) as Hqc by by rewrite Ht3.
  assert (outcome w4 k2 = Some Resolved) as Ho2.
  { apply (Hsame item2); [|done]. rewrite Hqc. left. }
  rewrite Hqc in Hq4. unfold otherSignal in Hq4. rewrite filter_cons in Hq4.
  rewrite decide_False in Hq4 by (intros Hne; by apply Hne). simpl in Hq4.
  rewrite Ht3 in Hc4. simpl in Hc4. simpl in Hmt4.
  (* the rest of the chain *)
  assert (w3 = tick (tick w4)) as Ew3 by done.
  rewrite (tick_catch_resolved w4 item1 [] Hmt4) in Ew3.
  rewrite (tick_finally _ []) in Ew3 by done.
  rewrite runNext_empty in Ew3 by done.
  split; [|split; [|split; [|split; [|split]]]].
  - rewrite Ew3. unfold spawns. simpl. rewrite Hch4, Hch3, length_alter.
    rewrite Hch2, Hch1, length_app. simpl. lia.
  - change w3 with (steps w4 [Tick; Tick]). by apply outcome_kept.
  - change w3 with (steps w4 [Tick; Tick]). by apply outcome_kept.
  - rewrite Ew3. simpl. rewrite Hs4. apply elem_of_app. right. left.
  - by rewrite Ew3.
  - by rewrite Ew3.
Qed.

End SameSignalTwice.

(** The success branch of [runNext], in every reachable world: when the
    execution drained for an item exits with code 0 the [then] callback
    runs: it appends the signal of the item to [successfulList], resolves
    the promise of the item, and resolves and removes every item of the
    queue with the same signal, without executing any of them; the items
    with another signal stay in the queue, in order and pending.  On an
    idle object whose command [spawn] accepts, and as long as nothing else
    happens in between, two calls of [run] with the same signal spawn
    once, and both promises are resolved once that child has exited with
    code 0. *)
Lemma success_resolves_same_signal_waiters
    (w : World) (item : QueueItem) (ms : list Microtask) (sig : Signal) :
  reachable w ->
  (forall pid c, children w !! pid = Some c -> c_listening c = true ->
     c_consumer c = Drained item ->
     microtasks (emitClose pid (Some 0%Z) w) = microtasks w ++ [ThenJob item Resolved])
  /\ (microtasks w = ThenJob item Resolved :: ms ->
      let w' := tick w in
      successfulList (this w') = successfulList (this w) ++ [signal item]
      /\ outcome w' (promise item) = Some Resolved
      /\ queue (this w') = otherSignal (signal item) (queue (this w))
      /\ (forall elm, elm ∈ queue (this w) -> signal elm = signal item ->
            outcome w' (promise elm) = Some Resolved /\ elm ∉ queue (this w'))
      /\ (forall elm, elm ∈ queue (this w) -> signal elm <> signal item ->
            elm ∈ queue (this w') /\ outcome w' (promise elm) = None)
      /\ spawns w' = spawns w
      /\ _childProcess (this w') = _childProcess (this w))
  /\ (spawn_throws (command (this w)) = false ->
      _memoize (this w) = true -> _childProcess (this w) = None ->
      queue (this w) = [] -> microtasks w = [] ->
      sig ∉ aborted w -> sig ∉ successfulList (this w) ->
      let k1 := length (promises w) in
      let k2 := S k1 in
      let pid := spawns w in
      let w2 := steps w [CallRun (Some sig); CallRun (Some sig)] in
      let w3 := steps w2 [Close pid (Some 0%Z); Tick; Tick; Tick] in
      (snd (run (Some sig) w) = k1
       /\ snd (run (Some sig) (fst (run (Some sig) w))) = k2)
      /\ (spawns w2 = S (spawns w) /\ live w2 pid = true
          /\ outcome w2 k1 = None /\ outcome w2 k2 = None)
      /\ (spawns w3 = S (spawns w)
          /\ outcome w3 k1 = Some Resolved /\ outcome w3 k2 = Some Resolved
          /\ sig ∈ successfulList (this w3)
          /\ queue (this w3) = [] /\ _childProcess (this w3) = None)).
Proof.
  intros R. split; [|split].
  - intros pid c H L Hc.
    pose proof (reachable_child_ok _ _ _ R H) as Hok. unfold child_ok in Hok.
    rewrite L in Hok. destruct Hok as (_ & _ & _ & Hs & _).
    rewrite (emitClose_running _ _ _ _ H L).
    destruct (handler_drained (EvClose (Some 0%Z)) (closeResult (Some 0%Z)) pid w c item
                H Hs Hc) as (_ & _ & -> & _).
    by rewrite closeResult_zero.
  - intros Em w'.
    destruct (then_callback w item ms R Em) as (H1 & H2 & H3 & H4 & H5 & H6 & H7 & _).
    fold w' in H1, H2, H3, H4, H5, H6, H7.
    split; [done|]. split; [done|]. split; [done|]. split; [done|].
    split; [done|]. split; [|done]. unfold spawns. by rewrite H6.
  - by apply two_runs_one_spawn.
Qed.

Lemma success_resolves_same_signal_waiters_witness :
  let w0 := steps (create 1 "job") [CallMemoize] in
  let w := steps w0 [CallRun (Some 5); CallRun (Some 6); CallRun (Some 5);
                     Close 0 (Some 0%Z)] in
  (outcome (tick w) 0 = Some Resolved /\ outcome (tick w) 2 = Some Resolved
   /\ outcome (tick w) 1 = None
   /\ queue (this (tick w)) = [mkItem 1 6] /\ spawns (tick w) = 1)
  /\ (spawns (steps w0 [CallRun (Some 5); CallRun (Some 5)]) = 1
      /\ outcome (steps w0 [CallRun (Some 5); CallRun (Some 5);
                            Close 0 (Some 0%Z); Tick; Tick; Tick]) 1 = Some Resolved).
Proof.
  intros w0 w.
  assert (reachable w0) as R0 by apply reachable_steps, reach_create.
  assert (reachable w) as R by by apply reachable_steps.
  split.
  - destruct (success_resolves_same_signal_waiters w (mkItem 0 5) [] 5 R)
      as (_ & Hthen & _).
    destruct (Hthen eq_refl) as (_ & H0 & Hq & Hsame & Hother & Hsp & _).
    split; [exact H0|]. split; [|split; [|split]].
    + apply (Hsame (mkItem 2 5)); [|reflexivity].
      apply (bool_decide_unpack _). by vm_compute.
    + apply (Hother (mkItem 1 6)); [|by vm_compute].
      apply (bool_decide_unpack _). by vm_compute.
    + rewrite Hq. by vm_compute.
    + rewrite Hsp. by vm_compute.
  - destruct (success_resolves_same_signal_waiters w0 (mkItem 0 5) [] 5 R0)
      as (_ & _ & Htwice).
    assert (5 ∉ aborted w0) as Ha by (apply (bool_decide_unpack _); by vm_compute).
    assert (5 ∉ successfulList (this w0)) as Hs
      by (apply (bool_decide_unpack _); by vm_compute).
    destruct (Htwice eq_refl eq_refl eq_refl eq_refl eq_refl Ha Hs)
      as (_ & (H1 & _) & (_ & _ & H2 & _)).
    split; [exact H1 | exact H2].
Defined.


(** ** The failure branch *)

Section Failure.
Implicit Types (w : World) (pid : Pid) (c : Child) (item : QueueItem) (sig : Signal).



End Failure.


(** ** A signal aborted while its item waits *)

Section AbortedWhileQueued.
Implicit Types (w : World) (pid : Pid) (sig : Signal).

Lemma queue_dispatchAborts sig pids w :
  queue (this (foldl (dispatchAbort sig) w pids)) = queue (this w).
Proof.
  revert w. induction pids as [|p pids IH]; intros w; simpl; [done|].
  rewrite IH. unfold dispatchAbort. destruct (children w !! p) as [c|]; [|done].
  destruct (hears sig c); [|done]. by rewrite this_onAbort.
Qed.

(** [abort] does not look at the queue. *)
Lemma queue_abort sig w : queue (this (abort sig w)) = queue (this w).
Proof.
  unfold abort. destruct (bool_decide (sig ∈ aborted w)); [done|].
  by rewrite queue_dispatchAborts.
Qed.

Lemma closeResult_not_aborted code : closeResult code <> Rejected ProcessAborted.
Proof. unfold closeResult. by destruct (decide (code = Some 0%Z)). Qed.

End AbortedWhileQueued.

(** C10: aborting the signal of an item that waits in the queue neither
    removes the item nor settles its promise.  When the chain of the
    previous execution then calls [runNext], the item is taken and
    executed without a look at the flag: a child is spawned.  An abort of
    that signal does nothing any more, so [onAbort] never runs for this
    child, and the promise of the item takes the result of the ['close']
    event, which is never 'Process aborted by signal.'. *)
Theorem aborted_while_queued_still_executes
    (w : World) (item : QueueItem) (rest : list QueueItem) (ms : list Microtask) :
  reachable w ->
  (forall elm, elm ∈ queue (this w) ->
     let w' := abort (signal elm) w in
     signal elm ∈ aborted w' /\ queue (this w') = queue (this w)
     /\ outcome w' (promise elm) = None)
  /\ (microtasks w = FinallyJob :: ms -> _memoize (this w) = true ->
      _childProcess (this w) = None -> queue (this w) = item :: rest ->
      signal item ∈ aborted w ->
      let pid := spawns w in
      let w1 := tick w in
      (spawns w1 = S (spawns w)
       /\ children w1 !! pid = Some (fresh_child (Some (signal item)) (Drained item))
       /\ _childProcess (this w1) = Some pid /\ queue (this w1) = rest
       /\ outcome w1 (promise item) = None)
      /\ abort (signal item) w1 = w1
      /\ forall code,
           let w2 := emitClose pid code w1 in
           children w2 !! pid
           = Some (exited (EvClose code) (closeResult code)
                     (fresh_child (Some (signal item)) (Drained item)))
           /\ closeResult code <> Rejected ProcessAborted
           /\ exists n, forall tr,
                outcome (steps w2 (ticks n ++ tr)) (promise item)
                = Some (closeResult code)).
Proof.
  intros R. split.
  - intros elm Hin w'.
    assert (reachable w') as R' by apply (reach_step w (Abort (signal elm)) R).
    split; [|split].
    + unfold w'. rewrite aborted_abort. apply elem_of_union. left.
      by apply elem_of_singleton.
    + apply queue_abort.
    + pose proof (reachable_owned _ R') as [N P D]. unfold outcome.
      rewrite P; [done|]. unfold holders. apply elem_of_app. left.
      apply list_elem_of_fmap_2. unfold w'. by rewrite queue_abort.
  - intros Em Hm Hc Hq Ha pid w1.
    assert (spawn_throws (command (this w)) = false) as Ht.
    { apply item_accepted; [done|]. by rewrite Hq. }
    assert (w1 = spawned (Some (signal item)) (Drained item)
                   (with_this (set_queue rest) (with_microtasks ms w))) as E1.
    { unfold w1. rewrite (tick_finally _ _ Em).
      rewrite (runNext_drain _ item rest) by done. by apply exec_spawned. }
    assert (reachable w1) as R1 by apply (reach_step w Tick R).
    assert (children w1 !! pid
            = Some (fresh_child (Some (signal item)) (Drained item))) as Hpid.
    { rewrite E1. simpl. apply lookup_snoc_new. }
    split; [|split].
    + split; [|split; [done|split; [|split]]].
      * rewrite E1. unfold spawns. simpl. rewrite length_app. simpl. lia.
      * by rewrite E1.
      * by rewrite E1.
      * by apply (drained_pending w1 pid _ item R1 Hpid).
    + unfold abort. rewrite bool_decide_eq_true_2; [done|]. by rewrite E1.
    + intros code w2.
      assert (reachable w2) as R2 by apply (reach_step w1 (Close pid code) R1).
      assert (children w2 !! pid
              = Some (exited (EvClose code) (closeResult code)
                        (fresh_child (Some (signal item)) (Drained item)))) as H2.
      { unfold w2, emitClose. rewrite Hpid. simpl.
        by rewrite children_onClose, list_lookup_alter_eq, Hpid. }
      split; [done|]. split; [apply closeResult_not_aborted|].
      by apply (drained_settles w2 pid _ item _ R2 H2).
Qed.

Lemma aborted_while_queued_still_executes_witness :
  let w := steps (create 1 "job")
             [CallMemoize; CallRun (Some 1); CallRun (Some 2); Abort 2;
              Close 0 (Some 0%Z); Tick; Tick] in
  spawns (tick w) = 2
  /\ abort 2 (tick w) = tick w
  /\ children (emitClose 1 (Some 0%Z) (tick w)) !! 1
     = Some (mkChild (Some 2) (Drained (mkItem 1 2)) false 1 1 1
               (Some Resolved) (Some (EvClose (Some 0%Z)))).
Proof.
  intros w.
  assert (reachable w) as R by apply reachable_steps, reach_create.
  destruct (aborted_while_queued_still_executes w (mkItem 1 2) [] [] R) as (_ & H).
  assert (2 ∈ aborted w) as Ha by (apply (bool_decide_unpack _); by vm_compute).
  destruct (H eq_refl eq_refl eq_refl eq_refl Ha) as ((H1 & _) & H3 & H4).
  split; [exact H1|]. split; [exact H3|].
  exact (proj1 (H4 (Some 0%Z))).
Defined.


(** ** Serialization of the drained executions *)

Section Serialization.
Implicit Types (w : World) (pid : Pid) (c : Child) (item : QueueItem) (sig : Signal).

Lemma alldrained_back w a : AllDrained (step w a) -> AllDrained w.
Proof.
  intros H pid c Hc. destruct (children_le_step w a _ _ Hc) as (c' & Hc' & Hle).
  apply child_le_same in Hle as [_ <-]. by apply (H pid).
Qed.

(** After a handler has run on the execution in the slot, none runs. *)
Lemma slot_exited w w' p c ev r :
  SlotOwned w -> children w !! p = Some c -> c_listening c = true ->
  children w' = alter (exited ev r) p (children w) -> SlotOwned w'.
Proof.
  intros S H L Hch pid c'. rewrite Hch. destruct (decide (p = pid)) as [<-|Hne].
  - rewrite list_lookup_alter_eq, H. simpl. by intros [= <-].
  - rewrite list_lookup_alter_ne by done. intros H' L'.
    pose proof (S _ _ H L). pose proof (S _ _ H' L'). congruence.
Qed.

Lemma slot_ext w w' :
  children w' = children w -> _childProcess (this w') = _childProcess (this w) ->
  SlotOwned w -> SlotOwned w'.
Proof. intros Hc Hs S pid c. rewrite Hc, Hs. apply S. Qed.

Lemma slot_runNext w : SlotOwned w -> SlotOwned (runNext w).
Proof.
  intros S. unfold runNext. destruct (_childProcess (this w)) eqn:Es; [done|].
  destruct (queue (this w)) as [|item rest]; [done|].
  destruct (_memoize (this w)).
  - destruct (exec_cases (Some (signal item)) (Drained item)
                (with_this (set_queue rest) w)) as [[_ ->]|[_ ->]].
    { apply (slot_ext w); [| |done]; by rewrite ?children_thrown, ?this_thrown. }
    intros pid c. simpl. intros [H|[Hlen H]]%lookup_app_Some L.
    + pose proof (S _ _ H L). congruence.
    + apply list_lookup_singleton_Some in H as [Hi _]. f_equal. lia.
  - by apply (slot_ext w).
Qed.

Lemma slot_dispatchAbort sig w p : SlotOwned w -> SlotOwned (dispatchAbort sig w p).
Proof.
  intros S. unfold dispatchAbort. destruct (children w !! p) as [c|] eqn:E; [|done].
  destruct (hears sig c) eqn:Eh; [|done].
  eapply (slot_exited w _ p c); [done..| |apply children_onAbort].
  unfold hears in Eh. by apply andb_prop in Eh as [? _].
Qed.

Lemma slot_step w a : SlotOwned w -> AllDrained (step w a) -> SlotOwned (step w a).
Proof.
  intros S A. destruct a as [osig| |sig|pid code|pid|]; simpl in *.
  - unfold run in *. destruct (is_aborted osig w); [done|].
    destruct (is_successful osig w); [done|].
    assert (AllDrained (exec osig (Direct (length (promises w))) (new_promise None w))
            -> SlotOwned (exec osig (Direct (length (promises w))) (new_promise None w)))
      as Hno.
    { destruct (exec_cases osig (Direct (length (promises w))) (new_promise None w))
        as [[_ ->]|[_ ->]].
      - intros _. apply (slot_ext w); [| |done]; by rewrite ?children_thrown, ?this_thrown.
      - intros HA.
        destruct (HA (length (children w)) _ (lookup_snoc_new _ _)) as [? ?]. done. }
    destruct osig as [s|]; [|by apply Hno].
    destruct (_memoize (this w)); [|by apply Hno].
    by apply slot_runNext, (slot_ext w).
  - done.
  - unfold abort. destruct (bool_decide (sig ∈ aborted w)); [done|].
    assert (SlotOwned (with_aborted ({[sig]} ∪ aborted w) w)) as S' by done.
    revert S'. generalize (with_aborted ({[sig]} ∪ aborted w) w). clear.
    induction (seq 0 (length (children w))) as [|p pids IH]; intros w' S'; simpl.
    + done.
    + by apply IH, slot_dispatchAbort.
  - unfold emitClose. destruct (children w !! pid) as [c|] eqn:E; [|done].
    destruct (c_listening c) eqn:L; [|done].
    eapply (slot_exited w _ pid c); [done..|apply children_onClose].
  - unfold emitError. destruct (children w !! pid) as [c|] eqn:E; [|done].
    destruct (c_listening c) eqn:L; [|done].
    eapply (slot_exited w _ pid c); [done..|apply children_onError].
  - unfold tick. destruct (microtasks w) as [|m ms]; [done|].
    destruct m as [item [|e]|item [|e]|].
    + apply (slot_ext w); [| |done]; unfold enqueue; cbn [children this with_microtasks].
      * by rewrite children_onFulfilled.
      * by rewrite this_onFulfilled.
    + by apply (slot_ext w).
    + by apply (slot_ext w).
    + apply (slot_ext w); [| |done]; unfold enqueue, onRejected;
        cbn [children this with_microtasks].
      * by rewrite settle_children.
      * by rewrite settle_this.
    + by apply slot_runNext, (slot_ext w).
Qed.

(** What does hold: as long as every execution of the object is a
    drained one, the running execution is the one in the slot, so at most
    one runs at a time. *)
Lemma drained_one_at_a_time w :
  reachable w -> AllDrained w ->
  SlotOwned w
  /\ forall pid1 pid2 c1 c2,
       children w !! pid1 = Some c1 -> children w !! pid2 = Some c2 ->
       c_listening c1 = true -> c_listening c2 = true -> pid1 = pid2.
Proof.
  intros R A. assert (SlotOwned w) as S.
  { induction R as [i cmd|w a R IH].
    - intros pid c H. simpl in H. by rewrite lookup_nil in H.
    - apply slot_step; [|done]. by apply IH, (alldrained_back w a). }
  split; [done|]. intros pid1 pid2 c1 c2 H1 H2 L1 L2.
  pose proof (S _ _ H1 L1). pose proof (S _ _ H2 L2). congruence.
Qed.

(** The queue is first in, first out: [runNext] executes the head of the
    queue and nothing else, and [run] appends at the end. *)
Lemma drain_takes_head w :
  children (runNext w) = children w
  \/ exists item rest,
       queue (this w) = item :: rest /\ queue (this (runNext w)) = rest
       /\ children (runNext w)
          = children w ++ [fresh_child (Some (signal item)) (Drained item)].
Proof.
  unfold runNext. destruct (_childProcess (this w)); [by left|].
  destruct (queue (this w)) as [|item rest]; [by left|].
  destruct (_memoize (this w)); [|by left].
  destruct (exec_cases (Some (signal item)) (Drained item)
              (with_this (set_queue rest) w)) as [[_ ->]|[_ ->]].
  - left. by rewrite children_thrown.
  - right. by exists item, rest.
Qed.

End Serialization.


(** ** Direct executions on a memoized object *)

(** C2 (the code at a failing input): a call without signal on a memoized
    object executes directly.  It overwrites the slot, and its [cleanup]
    empties the slot although the execution drained for the first item
    is still running; the next call of [run] then drains the second item.
    The items are taken in their order of arrival, but the executions of
    two items with different signals run at the same time: the second
    child is spawned while the first has not run [cleanup]. *)
Theorem direct_run_breaks_serialization :
  let before := steps (create 1 "job")
                  [CallMemoize; CallRun (Some 1); CallRun (Some 2); CallRun None;
                   Close 1 (Some 0%Z)] in
  let w := step before (CallRun (Some 3)) in
  (queue (this before) = [mkItem 1 2] /\ _childProcess (this before) = None
   /\ live before 0 = true /\ spawns before = 2)
  /\ children w !! 0 = Some (fresh_child (Some 1) (Drained (mkItem 0 1)))
  /\ children w !! 2 = Some (fresh_child (Some 2) (Drained (mkItem 1 2)))
  /\ live w 0 = true /\ live w 2 = true
  /\ queue (this w) = [mkItem 3 3]
  /\ spawns w = 3.
Proof. by vm_compute. Qed.

(** C1 (the code at a failing input): two calls of [run] with the same
    signal are made on a memoized object before either settles; the first
    is executed, the second waits in the queue.  A call without signal
    then executes directly, and its [cleanup] empties the slot while the
    child of the first call is still running, so the next call of [run]
    drains the second call: a second child is spawned for the same
    signal, and both run at the same time.  When the first child exits
    with code 0 the [then] callback finds no item of that signal in the
    queue: the first call is resolved, the second stays pending until its
    own child exits. *)
Theorem same_signal_twice_spawns_twice_behind_direct_run :
  let w := steps (create 1 "job")
             [CallMemoize; CallRun (Some 1); CallRun (Some 1); CallRun None;
              Close 1 (Some 0%Z); CallRun (Some 2)] in
  let w' := steps w [Close 0 (Some 0%Z); Tick; Tick; Tick] in
  (children w !! 0 = Some (fresh_child (Some 1) (Drained (mkItem 0 1)))
   /\ children w !! 2 = Some (fresh_child (Some 1) (Drained (mkItem 1 1)))
   /\ live w 0 = true /\ live w 2 = true
   /\ outcome w 0 = None /\ outcome w 1 = None
   /\ queue (this w) = [mkItem 3 2]
   /\ successfulList (this w) = [])
  /\ (live w' 0 = false /\ live w' 2 = true
      /\ successfulList (this w') = [1]
      /\ outcome w' 0 = Some Resolved
      /\ outcome w' 1 = None
      /\ microtasks w' = []).
Proof. by vm_compute. Qed.

Section Stuck.

Lemma dispatchAborts_unheard sig pids w :
  (forall pid c, children w !! pid = Some c -> hears sig c = false) ->
  foldl (dispatchAbort sig) w pids = w.
Proof.
  intros H. induction pids as [|p pids IH]; simpl; [done|].
  assert (dispatchAbort sig w p = w) as ->; [|done].
  unfold dispatchAbort. destruct (children w !! p) as [c|] eqn:E; [|done].
  by rewrite (H _ _ E).
Qed.

(** In a world without running execution and without scheduled reaction,
    nothing but a call of [run] has an effect on the queue. *)
Lemma quiet_step w w' a :
  (forall pid c, children w !! pid = Some c -> c_listening c = false) ->
  _childProcess (this w) = None -> microtasks w = [] ->
  same_but_flags w w' -> (forall sig, a <> CallRun sig) ->
  same_but_flags w (step w' a).
Proof.
  intros Hdead Hslot Hmt (Hq & Hc & Hm & Hch & Hp) Hne.
  assert (forall pid c, children w' !! pid = Some c -> c_listening c = false) as Hdead'.
  { intros pid c. rewrite Hch. apply Hdead. }
  destruct a as [sig| |sig|pid code|pid|]; simpl.
  - by destruct (Hne sig).
  - done.
  - unfold abort. destruct (bool_decide (sig ∈ aborted w')); [done|].
    rewrite dispatchAborts_unheard; [done|]. simpl.
    intros pid c H. unfold hears. by rewrite (Hdead' _ _ H).
  - unfold emitClose. destruct (children w' !! pid) as [c|] eqn:E; [|done].
    by rewrite (Hdead' _ _ E).
  - unfold emitError. destruct (children w' !! pid) as [c|] eqn:E; [|done].
    by rewrite (Hdead' _ _ E).
  - unfold tick. by rewrite Hm, Hmt.
Qed.

Lemma quiet_steps w w' tr :
  (forall pid c, children w !! pid = Some c -> c_listening c = false) ->
  _childProcess (this w) = None -> microtasks w = [] ->
  same_but_flags w w' -> Forall (fun a => forall sig, a <> CallRun sig) tr ->
  same_but_flags w (steps w' tr).
Proof.
  intros Hdead Hslot Hmt. revert w'.
  induction tr as [|a tr IH]; intros w' Hs Htr; simpl; [done|].
  apply Forall_cons in Htr as [Ha Htr]. apply IH; [|done].
  by apply quiet_step.
Qed.

(** A handler of a direct execution settles the promise of its call and
    that is all: nothing is scheduled, so [runNext] is not called and the
    queue stays as it is. *)
Lemma direct_exit_does_not_drain ev r pid w c k :
  children w !! pid = Some c -> c_consumer c = Direct k ->
  let w1 := handler ev r pid w in
  queue (this w1) = queue (this w) /\ microtasks w1 = microtasks w
  /\ spawns w1 = spawns w.
Proof.
  intros H Hc w1. unfold w1, handler. split; [|split].
  - by rewrite this_settle_exec.
  - unfold settle_exec. rewrite children_cleanup, children_note.
    rewrite !list_lookup_alter_eq, H. simpl. destruct (c_state c); [done|].
    rewrite Hc. by rewrite settle_microtasks.
  - unfold spawns.
    by rewrite children_settle_exec, children_cleanup, children_note, !length_alter.
Qed.

End Stuck.

(** C8 (the code at a failing input): [runNext] is called after every
    enqueue and by the [finally] of the chain of a drained execution, but
    a direct execution does not call it.  An item that is queued while a
    direct execution is in the slot therefore stays queued when that
    execution has finished: the slot is empty, nothing runs, nothing is
    scheduled, and whatever happens next (an abort, an event of a child, a
    tick, [memoize]) the item stays in the queue with its promise pending,
    until some other call of [run] happens to drain it. *)
Theorem queued_behind_direct_run_is_not_drained :
  let w := steps (create 1 "job")
             [CallMemoize; CallRun None; CallRun (Some 1); Close 0 (Some 0%Z)] in
  (queue (this w) = [mkItem 1 1] /\ _childProcess (this w) = None
   /\ microtasks w = [] /\ live w 0 = false /\ spawns w = 1
   /\ outcome w 0 = Some Resolved /\ outcome w 1 = None)
  /\ forall tr, Forall (fun a => forall sig, a <> CallRun sig) tr ->
       queue (this (steps w tr)) = [mkItem 1 1]
       /\ outcome (steps w tr) 1 = None
       /\ spawns (steps w tr) = 1.
Proof.
  intros w. split; [by vm_compute|]. intros tr Htr.
  destruct (quiet_steps w w tr) as (Hq & _ & _ & Hch & Hp); try done.
  - intros [|pid] c; [by intros [= <-] | done].
  - unfold outcome, spawns. by rewrite Hq, Hch, Hp.
Qed.

Lemma queued_behind_direct_run_is_not_drained_witness :
  let w := steps (create 1 "job")
             [CallMemoize; CallRun None; CallRun (Some 1); Close 0 (Some 0%Z)] in
  let tr := [Tick; Abort 1; Close 0 (Some 0%Z); Error 0; CallMemoize; Tick] in
  queue (this (steps w tr)) = [mkItem 1 1] /\ outcome (steps w tr) 1 = None.
Proof.
  intros w tr.
  destruct queued_behind_direct_run_is_not_drained as [_ H].
  destruct (H tr) as (H1 & H2 & _); [|by split].
  by repeat constructor.
Defined.


(** * Further properties *)

(** ** What a step adds to the table of executions *)

Section Growth.
Implicit Types (w : World) (pid : Pid) (c : Child) (sig : Signal).

(** [runNext], [run] and a tick leave the children they find as they are
    and add at most one, which is new. *)
Lemma children_exec_app (osig : option nat) (k0 : Consumer) w :
  exists extra, children (exec osig k0 w) = children w ++ extra
    /\ Forall (fun c => exists s k, c = fresh_child s k) extra.
Proof.
  destruct (exec_cases osig k0 w) as [[_ ->]|[_ ->]].
  - exists []. by rewrite children_thrown, app_nil_r.
  - eexists. split; [done|]. apply Forall_singleton. by eexists _, _.
Qed.

Lemma children_runNext_app w :
  exists extra, children (runNext w) = children w ++ extra
    /\ Forall (fun c => exists s k, c = fresh_child s k) extra.
Proof.
  unfold runNext. destruct (_childProcess (this w)).
  { exists []. by rewrite app_nil_r. }
  destruct (queue (this w)) as [|item rest].
  { exists []. by rewrite app_nil_r. }
  destruct (_memoize (this w)).
  - apply (children_exec_app _ _ (with_this (set_queue rest) w)).
  - exists []. by rewrite app_nil_r.
Qed.

Lemma children_run_app osig w :
  exists extra, children (fst (run osig w)) = children w ++ extra
    /\ Forall (fun c => exists s k, c = fresh_child s k) extra.
Proof.
  unfold run. destruct (is_aborted osig w).
  { exists []. by rewrite app_nil_r. }
  destruct (is_successful osig w).
  { exists []. by rewrite app_nil_r. }
  assert (exists extra,
            children (exec osig (Direct (length (promises w))) (new_promise None w))
            = children w ++ extra
            /\ Forall (fun c => exists s k, c = fresh_child s k) extra) as Hd.
  { apply (children_exec_app _ _ (new_promise None w)). }
  destruct osig as [s|]; [|done].
  destruct (_memoize (this w)); [|done].
  apply (children_runNext_app (with_this _ (new_promise None w))).
Qed.

Lemma children_tick_app w :
  exists extra, children (tick w) = children w ++ extra
    /\ Forall (fun c => exists s k, c = fresh_child s k) extra.
Proof.
  unfold tick. destruct (microtasks w) as [|m ms].
  { exists []. by rewrite app_nil_r. }
  destruct m as [item [|e]|item [|e]|].
  - exists []. unfold enqueue. cbn [children with_microtasks].
    by rewrite children_onFulfilled, app_nil_r.
  - exists []. by rewrite app_nil_r.
  - exists []. by rewrite app_nil_r.
  - exists []. unfold enqueue, onRejected. cbn [children with_microtasks].
    by rewrite settle_children, app_nil_r.
  - apply (children_runNext_app (with_microtasks ms w)).
Qed.

Lemma aborted_tick w : aborted (tick w) = aborted w.
Proof.
  unfold tick. destruct (microtasks w) as [|m ms]; [done|].
  destruct m as [item [|e]|item [|e]|]; try done.
  - unfold enqueue. cbn [aborted with_microtasks]. by rewrite aborted_onFulfilled.
  - unfold enqueue, onRejected. cbn [aborted with_microtasks].
    by rewrite settle_aborted.
  - cbv zeta. by rewrite aborted_runNext.
Qed.

Lemma aborted_run osig w : aborted (fst (run osig w)) = aborted w.
Proof.
  unfold run. destruct (is_aborted osig w); [done|].
  destruct (is_successful osig w); [done|].
  assert (aborted (exec osig (Direct (length (promises w))) (new_promise None w))
          = aborted w) as Hd by by rewrite aborted_exec.
  destruct osig as [s|]; [|done]. destruct (_memoize (this w)); [|done].
  cbv zeta. cbn [fst]. by rewrite aborted_runNext.
Qed.

(** Only [abort] sets the flag of a signal, and nothing clears one. *)
Lemma aborted_step w a :
  aborted (step w a)
  = match a with Abort sig => {[sig]} ∪ aborted w | _ => aborted w end.
Proof.
  destruct a as [osig| |sig|pid code|pid|]; simpl.
  - apply aborted_run.
  - done.
  - apply aborted_abort.
  - unfold emitClose. destruct (children w !! pid) as [c|]; [|done].
    destruct (c_listening c); [|done]. rewrite onClose_unfold.
    by rewrite aborted_settle_exec.
  - unfold emitError. destruct (children w !! pid) as [c|]; [|done].
    destruct (c_listening c); [|done]. unfold onError.
    by rewrite aborted_settle_exec.
  - apply aborted_tick.
Qed.

Lemma aborted_mono w a sig : sig ∈ aborted w -> sig ∈ aborted (step w a).
Proof.
  intros H. rewrite aborted_step. destruct a; try done.
  apply elem_of_union. by right.
Qed.

(** An execution whose [onAbort] ran has a signal, and that signal is
    aborted. *)
Lemma abort_has_cause w pid c :
  reachable w -> children w !! pid = Some c -> c_event c = Some EvAbort ->
  exists sig, c_signal c = Some sig /\ sig ∈ aborted w.
Proof.
  intros R. revert pid c. induction R as [i cmd|w a R IH]; intros pid c H Hev.
  { simpl in H. by rewrite lookup_nil in H. }
  assert (forall extra,
            children (step w a) = children w ++ extra ->
            Forall (fun c => exists s k, c = fresh_child s k) extra ->
            exists sig, c_signal c = Some sig /\ sig ∈ aborted (step w a)) as Happ.
  { intros extra Hch Hfresh. rewrite Hch in H.
    apply lookup_app_Some in H as [H|[_ H]].
    - destruct (IH _ _ H Hev) as (sig & Hs & Ha). exists sig. split; [done|].
      by apply aborted_mono.
    - apply list_elem_of_lookup_2 in H. rewrite Forall_forall in Hfresh.
      destruct (Hfresh _ H) as (s & k & ->). done. }
  assert (forall p ev r,
            children (step w a) = alter (exited ev r) p (children w) ->
            ev <> EvAbort ->
            exists sig, c_signal c = Some sig /\ sig ∈ aborted (step w a)) as Halt.
  { intros p ev r Hch Hne. rewrite Hch in H.
    destruct (decide (p = pid)) as [->|Hp].
    - rewrite list_lookup_alter_eq in H.
      destruct (children w !! pid) as [c0|] eqn:E; [|done]. simpl in H.
      injection H as <-. simpl in Hev.
      destruct (c_event c0) as [ev0|] eqn:E0; [|congruence].
      injection Hev as ->. destruct (IH _ _ E E0) as (sig & Hs & Ha).
      exists sig. split; [done|]. by apply aborted_mono.
    - rewrite list_lookup_alter_ne in H by done.
      destruct (IH _ _ H Hev) as (sig & Hs & Ha). exists sig. split; [done|].
      by apply aborted_mono. }
  destruct a as [osig| |sig|p code|p|].
  - destruct (children_run_app osig w) as (extra & Hch & Hf). by apply (Happ extra).
  - apply (Happ []); [by rewrite app_nil_r | done].
  - destruct (decide (sig ∈ aborted w)) as [Hin|Hnin].
    + apply (Happ []); [|done]. simpl. unfold abort.
      by rewrite bool_decide_eq_true_2, app_nil_r.
    + simpl in H. rewrite children_abort_lookup in H by done.
      destruct (children w !! pid) as [c0|] eqn:E; [|done]. simpl in H.
      injection H as <-. unfold aborting in *.
      destruct (hears sig c0) eqn:Eh.
      * exists sig. unfold hears in Eh. apply andb_prop in Eh as [_ Eh].
        apply bool_decide_eq_true in Eh. split; [done|]. simpl.
        rewrite aborted_abort. apply elem_of_union. left. by apply elem_of_singleton.
      * destruct (IH _ _ E Hev) as (sig' & Hs & Ha). exists sig'. split; [done|].
        by apply (aborted_mono w (Abort sig)).
  - simpl in *. unfold emitClose in *.
    destruct (children w !! p) as [c0|] eqn:E;
      [|apply (Happ []); [by rewrite ?E, app_nil_r | done]].
    destruct (c_listening c0);
      [|apply (Happ []); [by rewrite ?E, app_nil_r | done]].
    apply (Halt p (EvClose code) (closeResult code)); [|done].
    by rewrite ?E, children_onClose.
  - simpl in *. unfold emitError in *.
    destruct (children w !! p) as [c0|] eqn:E;
      [|apply (Happ []); [by rewrite ?E, app_nil_r | done]].
    destruct (c_listening c0);
      [|apply (Happ []); [by rewrite ?E, app_nil_r | done]].
    apply (Halt p EvError (Rejected ProcessError)); [|done].
    by rewrite ?E, children_onError.
  - destruct (children_tick_app w) as (extra & Hch & Hf). by apply (Happ extra).
Qed.

End Growth.

(** X1: an abort of a signal reaches the running executions that were
    started with that signal, all of them, and no other execution: a
    child with another signal, with none, or that has exited is not
    changed.  In every reachable world an execution that was aborted has
    a signal, that signal is aborted, and its result is
    'Process aborted by signal.'. *)
Theorem abort_reaches_its_own_executions_only
    (w : World) (sig : Signal) (pid : Pid) (c : Child) :
  children w !! pid = Some c ->
  (c_signal c <> Some sig \/ c_listening c = false ->
   children (abort sig w) !! pid = Some c)
  /\ (sig ∉ aborted w -> c_signal c = Some sig -> c_listening c = true ->
      children (abort sig w) !! pid
      = Some (exited EvAbort (Rejected ProcessAborted) c))
  /\ (reachable w -> c_event c = Some EvAbort ->
      c_state c = Some (Rejected ProcessAborted)
      /\ exists sig', c_signal c = Some sig' /\ sig' ∈ aborted w).
Proof.
  intros H. split; [|split].
  - intros Hno. destruct (decide (sig ∈ aborted w)) as [Hin|Hnin].
    { unfold abort. by rewrite bool_decide_eq_true_2. }
    rewrite children_abort_lookup, H by done. simpl. unfold aborting.
    assert (hears sig c = false) as ->; [|done].
    unfold hears. destruct Hno as [Hs| ->]; [|done].
    rewrite bool_decide_eq_false_2 by done. apply andb_false_r.
  - intros Hnin Hs L. rewrite children_abort_lookup, H by done. simpl.
    unfold aborting, hears. rewrite L, Hs.
    by rewrite bool_decide_eq_true_2.
  - intros R Hev. split; [|by eapply abort_has_cause].
    pose proof (reachable_child_ok _ _ _ R H) as Hok. unfold child_ok in Hok.
    destruct (c_listening c).
    + destruct Hok as (_ & _ & _ & _ & Hn). congruence.
    + destruct Hok as (_ & _ & _ & ev & Hev' & ->).
      assert (ev = EvAbort) as -> by congruence. done.
Qed.

Lemma abort_reaches_its_own_executions_only_witness :
  let w := steps (create 1 "job") [CallRun (Some 1); CallRun (Some 2); CallRun (Some 1);
                                   CallRun None] in
  children (abort 1 w) !! 1 = Some (fresh_child (Some 2) (Direct 1))
  /\ children (abort 1 w) !! 3 = Some (fresh_child None (Direct 3))
  /\ children (abort 1 w) !! 0
     = Some (exited EvAbort (Rejected ProcessAborted) (fresh_child (Some 1) (Direct 0)))
  /\ children (abort 1 w) !! 2
     = Some (exited EvAbort (Rejected ProcessAborted) (fresh_child (Some 1) (Direct 2))).
Proof.
  intros w.
  assert (1 ∉ aborted w) as Ha by (apply (bool_decide_unpack _); by vm_compute).
  split; [|split; [|split]].
  - apply (abort_reaches_its_own_executions_only w 1 1 _ eq_refl). by left.
  - apply (abort_reaches_its_own_executions_only w 1 3 _ eq_refl). by left.
  - by apply (abort_reaches_its_own_executions_only w 1 0 _ eq_refl).
  - by apply (abort_reaches_its_own_executions_only w 1 2 _ eq_refl).
Defined.


(** ** An object that was never memoized *)

Section Plain.
Implicit Types (w : World) (pid : Pid) (c : Child) (sig : Signal).

Lemma alldirect_alter (g : Child -> Child) p w pid c :
  AllDirect w -> (forall c, c_consumer (g c) = c_consumer c) ->
  alter g p (children w) !! pid = Some c -> exists k, c_consumer c = Direct k.
Proof.
  intros A Hg. destruct (decide (p = pid)) as [<-|Hne].
  - rewrite list_lookup_alter_eq. destruct (children w !! p) as [c0|] eqn:E; [|done].
    simpl. intros [= <-]. rewrite Hg. by apply (A p).
  - rewrite list_lookup_alter_ne by done. apply A.
Qed.

Lemma plain_onAbort p w :
  AllDirect w ->
  AllDirect (onAbort p w) /\ microtasks (onAbort p w) = microtasks w.
Proof.
  intros A. split.
  - intros pid c. rewrite children_onAbort. by apply alldirect_alter.
  - destruct (children w !! p) as [c|] eqn:E.
    + destruct (A _ _ E) as [k Hk].
      by destruct (direct_exit_does_not_drain EvAbort (Rejected ProcessAborted)
                     p w c k E Hk) as (_ & ? & _).
    + unfold onAbort, settle_exec. rewrite children_cleanup, children_note.
      by rewrite !list_lookup_alter_eq, E.
Qed.

Lemma plain_dispatchAborts sig pids w :
  AllDirect w ->
  AllDirect (foldl (dispatchAbort sig) w pids)
  /\ microtasks (foldl (dispatchAbort sig) w pids) = microtasks w.
Proof.
  revert w. induction pids as [|p pids IH]; intros w A; simpl; [done|].
  assert (AllDirect (dispatchAbort sig w p)
          /\ microtasks (dispatchAbort sig w p) = microtasks w) as [A' Hm].
  { unfold dispatchAbort. destruct (children w !! p) as [c|]; [|done].
    destruct (hears sig c); [by apply plain_onAbort | done]. }
  destruct (IH _ A') as [A'' Hm']. split; [done | congruence].
Qed.

(** As long as [memoize] was not called the queue, the list of successful
    signals and the chain are not used: every execution is a direct one. *)
Lemma plain_object w :
  reachable w -> _memoize (this w) = false ->
  queue (this w) = [] /\ successfulList (this w) = [] /\ microtasks w = []
  /\ AllDirect w.
Proof.
  induction 1 as [i cmd|w a R IH]; intros Hm.
  { repeat split. intros pid c H. simpl in H. by rewrite lookup_nil in H. }
  rewrite memoize_step in Hm.
  assert (_memoize (this w) = false) as Hm0 by by destruct a.
  destruct (IH Hm0) as (Hq & Hs & Hmt & A).
  destruct a as [osig| |sig|p code|p|]; simpl; try done.
  - unfold run. destruct (is_aborted osig w); [done|].
    assert (is_successful osig w = false) as ->.
    { unfold is_successful. destruct osig; [|done]. by rewrite Hm0. }
    assert (let w' := exec osig (Direct (length (promises w))) (new_promise None w) in
            queue (this w') = [] /\ successfulList (this w') = []
            /\ microtasks w' = [] /\ AllDirect w') as A'.
    { destruct (exec_cases osig (Direct (length (promises w))) (new_promise None w))
        as [[_ ->]|[_ ->]]; cbv zeta.
      - simpl. rewrite settle_this, settle_microtasks. repeat split; try done.
        intros pid c. rewrite settle_children. apply A.
      - repeat split; try done.
        intros pid c. simpl. intros [H|[_ H]]%lookup_app_Some; [by apply (A pid)|].
        apply list_lookup_singleton_Some in H as [_ <-]. by eexists. }
    destruct osig as [s|]; [|done]. by rewrite Hm0.
  - split; [by rewrite queue_abort|].
    split; [by rewrite (proj2 (proj2 (proj2 (config_abort sig w))))|].
    unfold abort. destruct (bool_decide (sig ∈ aborted w)); [done|].
    destruct (plain_dispatchAborts sig (seq 0 (length (children w)))
                (with_aborted ({[sig]} ∪ aborted w) w) A) as [A' Hm'].
    split; [by rewrite Hm' | done].
  - unfold emitClose. destruct (children w !! p) as [c|] eqn:E; [|done].
    destruct (c_listening c); [|done]. destruct (A _ _ E) as [k Hk].
    rewrite onClose_unfold.
    destruct (direct_exit_does_not_drain (EvClose code) (closeResult code) p w c k E Hk)
      as (Hq' & Hm' & _).
    unfold handler in Hq', Hm'. split; [congruence|].
    split; [by rewrite this_settle_exec|]. split; [congruence|].
    intros pid c'. rewrite children_settle_exec, children_cleanup, children_note.
    rewrite !list_alter_alter_eq. by apply alldirect_alter.
  - unfold emitError. destruct (children w !! p) as [c|] eqn:E; [|done].
    destruct (c_listening c); [|done]. destruct (A _ _ E) as [k Hk].
    destruct (direct_exit_does_not_drain EvError (Rejected ProcessError) p w c k E Hk)
      as (Hq' & Hm' & _).
    unfold handler in Hq', Hm'. unfold onError. split; [congruence|].
    split; [by rewrite this_settle_exec|]. split; [congruence|].
    intros pid c'. rewrite children_settle_exec, children_cleanup, children_note.
    rewrite !list_alter_alter_eq. by apply alldirect_alter.
  - unfold tick. by rewrite Hmt.
Qed.

End Plain.




(** ** Calls and executions *)

Section Calls.
Implicit Types (w : World) (pid : Pid) (c : Child) (sig : Signal).

Lemma StronglySorted_sublist {A} (R : relation A) (l1 l2 : list A) :
  l1 `sublist_of` l2 -> StronglySorted R l2 -> StronglySorted R l1.
Proof.
  induction 1 as [|x l1 l2 Hsub IH|x l1 l2 Hsub IH]; intros Hs.
  - constructor.
  - apply StronglySorted_cons in Hs as [Hx Hs]. apply StronglySorted_cons.
    split; [|by apply IH]. rewrite Forall_forall in Hx |- *.
    intros y Hy. apply Hx. by eapply elem_of_sublist.
  - apply StronglySorted_cons in Hs as [_ Hs]. by apply IH.
Qed.

Lemma drained_call_sub c : drained_call c `sublist_of` [child_call c].
Proof.
  unfold drained_call, child_call. destruct (c_consumer c); simpl.
  - apply sublist_nil_l.
  - done.
Qed.

Lemma fifo_in_calls w k : k ∈ fifo w -> k ∈ calls w.
Proof.
  unfold fifo, calls. rewrite !elem_of_app. intros [H|H]; [|by right]. left.
  apply list_elem_of_bind in H as (c & Hk & Hc).
  pose proof (elem_of_sublist _ _ _ Hk (drained_call_sub c)) as Hk'.
  apply list_elem_of_singleton in Hk' as ->. by apply list_elem_of_fmap_2.
Qed.

Lemma settle_all_length ks r w :
  length (promises (settle_all ks r w)) = length (promises w).
Proof.
  revert w. induction ks as [|k ks IH]; intros w; [done|].
  by rewrite settle_all_cons, IH, settle_length.
Qed.

Lemma ordered_create i cmd : Ordered (create i cmd).
Proof. split; unfold calls, fifo; simpl; constructor. Qed.

(** Fewer calls in the table and the queue, in the same order. *)
Lemma ordered_sub w w' :
  calls w' `sublist_of` calls w -> fifo w' `sublist_of` fifo w ->
  length (promises w) <= length (promises w') -> Ordered w -> Ordered w'.
Proof.
  intros Hc Hf Hl [B N S]. split.
  - rewrite Forall_forall in B |- *. intros k Hk.
    pose proof (B k (elem_of_sublist _ _ _ Hk Hc)). lia.
  - by eapply sublist_NoDup.
  - by eapply StronglySorted_sublist.
Qed.

Lemma ordered_same w w' :
  child_call <$> children w' = child_call <$> children w ->
  children w' ≫= drained_call = children w ≫= drained_call ->
  queue (this w') = queue (this w) ->
  length (promises w) <= length (promises w') -> Ordered w -> Ordered w'.
Proof.
  intros H1 H2 H3 H4. apply ordered_sub; [| |done]; unfold calls, fifo.
  - by rewrite H1, H3.
  - by rewrite H2, H3.
Qed.

(** A handler changes neither the call of a child nor the queue. *)
Lemma ordered_alter (g : Child -> Child) p w w' :
  (forall c, c_consumer (g c) = c_consumer c) ->
  children w' = alter g p (children w) -> queue (this w') = queue (this w) ->
  length (promises w) <= length (promises w') -> Ordered w -> Ordered w'.
Proof.
  intros Hg Hch Hq Hl. apply ordered_same; [| |done..].
  - rewrite Hch. rewrite (list_fmap_alter child_call g (fun k => k)).
    + by apply list_alter_id.
    + apply Forall_forall. intros c _. unfold child_call. by rewrite Hg.
  - rewrite Hch. apply bind_alter_same. intros c _. unfold drained_call.
    by rewrite Hg.
Qed.

Lemma ordered_handler ev r p w : Ordered w -> Ordered (handler ev r p w).
Proof.
  apply (ordered_alter (exited ev r) p).
  - done.
  - unfold handler. rewrite children_settle_exec, children_cleanup, children_note.
    unfold exited. by rewrite !list_alter_alter_eq.
  - unfold handler. by rewrite this_settle_exec.
  - unfold handler, settle_exec.
    destruct (children (cleanup p (note p ev w)) !! p) as [c|]; [|done].
    destruct (c_state c); [done|]. destruct (c_consumer c); [|done].
    by rewrite settle_length.
Qed.

Lemma ordered_runNext w : Ordered w -> Ordered (runNext w).
Proof.
  intros O. unfold runNext. destruct (_childProcess (this w)); [done|].
  destruct (queue (this w)) as [|item rest] eqn:Eq; [done|].
  destruct (_memoize (this w)).
  - destruct (exec_cases (Some (signal item)) (Drained item)
                (with_this (set_queue rest) w)) as [[_ ->]|[_ ->]].
    { (* [spawn] throws: the head of the queue is dropped *)
      revert O. apply ordered_sub; [| |done]; unfold calls, fifo;
        rewrite children_thrown, this_thrown; simpl; rewrite Eq.
      - apply sublist_app; [done|]. simpl. by apply sublist_cons.
      - apply sublist_app; [done|]. simpl. by apply sublist_cons. }
    (* the head of the queue becomes the last child *)
    revert O. apply ordered_sub; [| |done]; unfold calls, fifo; simpl.
    + rewrite Eq, fmap_app, <- app_assoc. done.
    + rewrite Eq, bind_app, <- app_assoc. done.
  - revert O. apply ordered_sub; [| |done]; unfold calls, fifo; simpl; rewrite Eq.
    + apply sublist_app; [done|]. simpl. by apply sublist_cons.
    + apply sublist_app; [done|]. simpl. by apply sublist_cons.
Qed.

Lemma ordered_dispatchAborts sig pids w :
  Ordered w -> Ordered (foldl (dispatchAbort sig) w pids).
Proof.
  revert w. induction pids as [|p pids IH]; intros w O; simpl; [done|].
  apply IH. unfold dispatchAbort. destruct (children w !! p) as [c|]; [|done].
  destruct (hears sig c); [|done]. by apply (ordered_handler EvAbort).
Qed.

Lemma ordered_step w a : Ordered w -> Ordered (step w a).
Proof.
  intros O. destruct a as [osig| |sig|p code|p|]; simpl.
  - unfold run.
    assert (forall s, Ordered (new_promise s w)) as Hnew.
    { intros s. revert O. apply ordered_same; try done.
      unfold new_promise. simpl. rewrite length_app. lia. }
    destruct (is_aborted osig w); [apply Hnew|].
    destruct (is_successful osig w); [apply Hnew|].
    destruct O as [B N S].
    assert (length (promises w) ∉ calls w) as Hfresh.
    { intros Hin. rewrite Forall_forall in B. pose proof (B _ Hin). lia. }
    assert (Forall (fun k => k < length (promises (new_promise None w)))
              (calls w ++ [length (promises w)])) as B'.
    { unfold new_promise. simpl. rewrite length_app. simpl. apply Forall_app. split.
      - eapply Forall_impl; [exact B|]. simpl. intros; lia.
      - apply Forall_singleton. lia. }
    assert (Ordered (exec osig (Direct (length (promises w))) (new_promise None w)))
      as Hd.
    { destruct (exec_cases osig (Direct (length (promises w))) (new_promise None w))
        as [[_ ->]|[_ ->]].
      { generalize (Hnew None). apply ordered_same; simpl;
          rewrite ?settle_children, ?settle_this, ?settle_length; done. }
      assert (calls (spawned osig (Direct (length (promises w))) (new_promise None w))
              ≡ₚ calls w ++ [length (promises w)]) as Hperm.
      { unfold calls. simpl. rewrite fmap_app. simpl. rewrite <- !app_assoc. simpl.
        by rewrite <- !Permutation_middle, app_nil_r. }
      split.
      - rewrite Hperm. exact B'.
      - rewrite Hperm. apply NoDup_app. split; [done|].
        split; [|apply NoDup_singleton].
        intros k Hk ->%list_elem_of_singleton. done.
      - unfold fifo. simpl. rewrite bind_app. simpl. by rewrite app_nil_r. }
    destruct osig as [s|]; [|done].
    destruct (_memoize (this w)); [|done].
    apply ordered_runNext. split.
    + unfold calls. simpl. rewrite fmap_app, app_assoc. exact B'.
    + unfold calls. simpl. rewrite fmap_app, app_assoc.
      apply NoDup_app. split; [done|]. split; [|apply NoDup_singleton].
      intros k Hk ->%list_elem_of_singleton. done.
    + unfold fifo. simpl. rewrite fmap_app, app_assoc.
      apply StronglySorted_app_2; [|done|repeat constructor].
      intros k1 k2 Hk1 ->%list_elem_of_singleton.
      rewrite Forall_forall in B. apply B. by apply fifo_in_calls.
  - revert O. by apply ordered_same.
  - unfold abort. destruct (bool_decide (sig ∈ aborted w)); [done|].
    apply ordered_dispatchAborts. revert O. by apply ordered_same.
  - unfold emitClose. destruct (children w !! p) as [c|]; [|done].
    destruct (c_listening c); [|done]. rewrite onClose_unfold.
    by apply (ordered_handler (EvClose code)).
  - unfold emitError. destruct (children w !! p) as [c|]; [|done].
    destruct (c_listening c); [|done]. by apply (ordered_handler EvError).
  - unfold tick. destruct (microtasks w) as [|m ms]; [done|].
    destruct m as [item [|e]|item [|e]|].
    + revert O. apply ordered_sub; unfold calls, fifo, enqueue;
        cbn [children this promises with_microtasks];
        rewrite ?children_onFulfilled, ?this_onFulfilled, ?promises_onFulfilled.
      * apply sublist_app; [done|]. simpl. apply fmap_sublist, sublist_filter.
      * apply sublist_app; [done|]. simpl. apply fmap_sublist, sublist_filter.
      * by rewrite settle_all_length.
    + revert O. by apply ordered_same.
    + revert O. by apply ordered_same.
    + revert O. apply ordered_same; unfold enqueue, onRejected;
        cbn [children this promises with_microtasks];
        rewrite ?settle_children, ?settle_this, ?settle_length; done.
    + apply ordered_runNext. revert O. by apply ordered_same.
Qed.

Lemma reachable_ordered w : reachable w -> Ordered w.
Proof.
  induction 1 as [i cmd|w a _ IH]; [apply ordered_create | by apply ordered_step].
Qed.

Lemma bounded_nodup_length (l : list nat) n :
  NoDup l -> Forall (fun k => k < n) l -> length l <= n.
Proof.
  intros N B. rewrite <- (length_seq n 0). apply submseteq_length.
  apply NoDup_submseteq; [done|]. intros k Hk. apply elem_of_seq.
  rewrite Forall_forall in B. pose proof (B k Hk). lia.
Qed.

End Calls.

(** X3: a call of [run] is executed at most once.  In every reachable
    world two executions are for two different calls, a call that waits
    in the queue has not been executed and waits there once, and every
    execution and every waiting item belongs to a call that was made: the
    spawns and the waiting items together are at most as many as the
    calls. *)
Theorem call_is_executed_at_most_once (w : World) :
  reachable w ->
  (forall p1 p2 c1 c2,
     children w !! p1 = Some c1 -> children w !! p2 = Some c2 ->
     child_call c1 = child_call c2 -> p1 = p2)
  /\ (forall elm pid c, elm ∈ queue (this w) -> children w !! pid = Some c ->
        child_call c <> promise elm)
  /\ NoDup (promise <$> queue (this w))
  /\ (forall pid c, children w !! pid = Some c ->
        child_call c < length (promises w))
  /\ spawns w + length (queue (this w)) <= length (promises w).
Proof.
  intros R. destruct (reachable_ordered _ R) as [B N _]. unfold calls in *.
  apply NoDup_app in N as (Nc & Hdis & Nq).
  split; [|split; [|split; [done|split]]].
  - intros p1 p2 c1 c2 H1 H2 Heq.
    apply (NoDup_lookup (child_call <$> children w) p1 p2 (child_call c1)); [done|..].
    + by rewrite list_lookup_fmap, H1.
    + by rewrite list_lookup_fmap, H2, Heq.
  - intros elm pid c Hin Hc Heq. apply (Hdis (child_call c)).
    + apply list_elem_of_fmap_2. by eapply list_elem_of_lookup_2.
    + rewrite Heq. by apply list_elem_of_fmap_2.
  - intros pid c Hc. rewrite Forall_forall in B. apply B.
    apply elem_of_app. left. apply list_elem_of_fmap_2.
    by eapply list_elem_of_lookup_2.
  - pose proof (bounded_nodup_length _ _ (ord_nodup _ (reachable_ordered _ R)) B) as Hl.
    unfold calls in Hl. rewrite length_app, !length_fmap in Hl. unfold spawns. lia.
Qed.

Lemma call_is_executed_at_most_once_witness :
  let w := steps (create 1 "job")
             [CallRun None; CallMemoize; CallRun (Some 1); CallRun (Some 1);
              CallRun (Some 2); Close 0 (Some 0%Z); CallRun (Some 1)] in
  NoDup (promise <$> queue (this w))
  /\ spawns w + length (queue (this w)) <= length (promises w).
Proof.
  intros w.
  assert (reachable w) as R by apply reachable_steps, reach_create.
  destruct (call_is_executed_at_most_once w R) as (_ & _ & H1 & _ & H2).
  split; [exact H1 | exact H2].
Defined.

(** X4: the queue is first in, first out.  The number of a call says
    when it was made.  In every reachable world the items wait in the
    order of their calls, the executions that were drained were spawned
    in the order of their calls, and whatever still waits was called
    after everything that was ever drained: no item overtakes another. *)
Theorem queue_is_first_in_first_out (w : World) :
  reachable w ->
  StronglySorted lt (promise <$> queue (this w))
  /\ (forall p1 p2 c1 c2 it1 it2,
        p1 < p2 -> children w !! p1 = Some c1 -> children w !! p2 = Some c2 ->
        c_consumer c1 = Drained it1 -> c_consumer c2 = Drained it2 ->
        promise it1 < promise it2)
  /\ (forall pid c it elm,
        children w !! pid = Some c -> c_consumer c = Drained it ->
        elm ∈ queue (this w) -> promise it < promise elm)
  /\ (forall sig, snd (run (Some sig) w) = length (promises w)
        /\ forall elm, elm ∈ queue (this w) -> promise elm < snd (run (Some sig) w)).
Proof.
  intros R. destruct (reachable_ordered _ R) as [B _ S]. unfold fifo in S.
  assert (forall pid c it, children w !! pid = Some c -> c_consumer c = Drained it ->
            forall l, l `sublist_of` children w -> c ∈ l ->
            promise it ∈ l ≫= drained_call) as Hin.
  { intros pid c it Hc Hd l _ Hl. apply list_elem_of_bind. exists c. split; [|done].
    unfold drained_call. rewrite Hd. left. }
  split; [by eapply StronglySorted_app_1_r|]. split; [|split].
  - intros p1 p2 c1 c2 it1 it2 Hlt H1 H2 Hd1 Hd2.
    apply StronglySorted_app_1_l in S.
    rewrite <- (take_drop_middle _ _ _ H2), bind_app, bind_cons in S.
    apply (StronglySorted_app_1_elem_of _ _ _ (promise it1) (promise it2)) in S; [done| |].
    + apply (Hin p1 c1 it1 H1 Hd1); [apply sublist_take|].
      apply (list_elem_of_lookup_2 _ p1). by rewrite lookup_take_lt.
    + apply elem_of_app. left. unfold drained_call. rewrite Hd2. left.
  - intros pid c it elm Hc Hd Helm.
    apply (StronglySorted_app_1_elem_of _ _ _ (promise it) (promise elm)) in S; [done| |].
    + apply (Hin pid c it Hc Hd); [done|]. by eapply list_elem_of_lookup_2.
    + by apply list_elem_of_fmap_2.
  - intros sig. assert (snd (run (Some sig) w) = length (promises w)) as ->.
    { unfold run. destruct (is_aborted (Some sig) w); [done|].
      destruct (is_successful (Some sig) w); [done|].
      by destruct (_memoize (this w)). }
    split; [done|]. intros elm Helm. rewrite Forall_forall in B. apply B.
    unfold calls. apply elem_of_app. right. by apply list_elem_of_fmap_2.
Qed.

Lemma queue_is_first_in_first_out_witness :
  let w := steps (create 1 "job")
             [CallMemoize; CallRun (Some 1); CallRun (Some 2); CallRun (Some 3);
              CallRun (Some 2); Close 0 (Some 0%Z); Tick; Tick; Tick] in
  StronglySorted lt (promise <$> queue (this w))
  /\ (forall elm, elm ∈ queue (this w) -> 1 < promise elm).
Proof.
  intros w.
  assert (reachable w) as R by apply reachable_steps, reach_create.
  destruct (queue_is_first_in_first_out w R) as (H1 & _ & H2 & _).
  split; [exact H1|]. intros elm Helm.
  apply (H2 1 (fresh_child (Some 2) (Drained (mkItem 1 2))) (mkItem 1 2) elm);
    [by vm_compute | reflexivity | exact Helm].
Defined.



(** ** Where a recorded signal comes from *)

Section Recorded.
Implicit Types (w : World) (pid : Pid) (c : Child) (sig : Signal) (item : QueueItem).

(** A child that has settled is not touched by a step. *)
Lemma settled_persists c pid l l' :
  child_ok c -> children_le l l' -> l !! pid = Some c -> is_Some (c_state c) ->
  l' !! pid = Some c.
Proof.
  intros Hok Hle H [r Hs]. destruct (Hle _ _ H) as (c' & H' & [->|[L _]]); [done|].
  unfold child_ok in Hok. rewrite L in Hok. destruct Hok as (_ & _ & _ & Hn & _).
  congruence.
Qed.

Lemma microtasks_exec_direct (osig : option nat) k w :
  microtasks (exec osig (Direct k) w) = microtasks w.
Proof.
  destruct (exec_cases osig (Direct k) w) as [[_ ->]|[_ ->]]; [|done].
  simpl. apply settle_microtasks.
Qed.

(** [run] schedules a reaction only when [spawn] throws for an item. *)
Lemma microtasks_run_cases osig w :
  microtasks (fst (run osig w)) = microtasks w
  \/ (spawn_throws (command (this w)) = true
      /\ exists item, microtasks (fst (run osig w))
                      = microtasks w ++ [ThenJob item (Rejected SpawnThrew)]).
Proof.
  unfold run. destruct (is_aborted osig w); [by left|].
  destruct (is_successful osig w); [by left|].
  assert (microtasks (exec osig (Direct (length (promises w))) (new_promise None w))
          = microtasks w) as Hd by by rewrite microtasks_exec_direct.
  destruct osig as [s|]; [|by left]. destruct (_memoize (this w)); [|by left].
  cbv zeta. cbn [fst].
  match goal with |- context [runNext ?x] => exact (microtasks_runNext_cases x) end.
Qed.

Lemma microtasks_run osig w :
  spawn_throws (command (this w)) = false ->
  microtasks (fst (run osig w)) = microtasks w.
Proof.
  intros H. destruct (microtasks_run_cases osig w) as [?|[? _]]; [done | congruence].
Qed.

(** A tick schedules a first reaction only when [spawn] throws. *)
Lemma thenjob_tick w item r :
  ThenJob item r ∈ microtasks (tick w) ->
  ThenJob item r ∈ microtasks w
  \/ (r = Rejected SpawnThrew /\ spawn_throws (command (this w)) = true).
Proof.
  unfold tick. destruct (microtasks w) as [|m ms] eqn:Em; [rewrite Em; by left|].
  assert (forall w' m', microtasks w' = ms -> m' <> ThenJob item r ->
            ThenJob item r ∈ microtasks (enqueue m' w') -> ThenJob item r ∈ m :: ms)
    as Henq.
  { intros w' m' Hw' Hne. unfold enqueue. simpl. rewrite Hw'.
    intros [H|H%list_elem_of_singleton]%elem_of_app; [by right | congruence]. }
  destruct m as [it [|e]|it [|e]|].
  - intros H. left. revert H. apply Henq; [|done]. by rewrite microtasks_onFulfilled.
  - intros H. left. revert H. by apply Henq.
  - intros H. left. revert H. by apply Henq.
  - intros H. left. revert H. apply Henq; [|done].
    unfold onRejected. by rewrite settle_microtasks.
  - cbv zeta.
    destruct (microtasks_runNext_cases (with_microtasks ms w)) as [->|(Ht & it & ->)].
    + simpl. intros H. left. by right.
    + simpl. intros [H|H%list_elem_of_singleton]%elem_of_app.
      * left. by right.
      * right. by injection H as _ ->.
Qed.

Lemma thenjob_run osig w item r :
  ThenJob item r ∈ microtasks (fst (run osig w)) ->
  ThenJob item r ∈ microtasks w
  \/ (r = Rejected SpawnThrew /\ spawn_throws (command (this w)) = true).
Proof.
  destruct (microtasks_run_cases osig w) as [->|(Ht & it & ->)]; [by left|].
  intros [H|H%list_elem_of_singleton]%elem_of_app; [by left|].
  right. by injection H as _ ->.
Qed.

Lemma microtasks_handler ev r p w c :
  children w !! p = Some c -> c_state c = None ->
  microtasks (handler ev r p w)
  = microtasks w ++ match c_consumer c with
                    | Drained item => [ThenJob item r]
                    | Direct _ => []
                    end.
Proof.
  intros H Hs. destruct (c_consumer c) as [k|item] eqn:Ec.
  - destruct (direct_exit_does_not_drain ev r p w c k H Ec) as (_ & -> & _).
    by rewrite app_nil_r.
  - by destruct (handler_drained ev r p w c item H Hs Ec) as (_ & _ & -> & _).
Qed.

Lemma sourced_handler ev r p w c :
  Tidy w -> children w !! p = Some c -> c_listening c = true ->
  Sourced w -> Sourced (handler ev r p w).
Proof.
  intros T H L S item r'.
  assert (child_ok c) as Hok by (unfold Tidy in T; by eapply Forall_lookup_1).
  unfold child_ok in Hok. rewrite L in Hok. destruct Hok as (_ & _ & _ & Hs & _).
  assert (children (handler ev r p w) = alter (exited ev r) p (children w)) as Hch.
  { unfold handler. rewrite children_settle_exec, children_cleanup, children_note.
    unfold exited. by rewrite !list_alter_alter_eq. }
  assert (command (this (handler ev r p w)) = command (this w)) as ->.
  { unfold handler. by rewrite this_settle_exec. }
  rewrite (microtasks_handler ev r p w c H Hs), Hch.
  intros [Hin|Hin]%elem_of_app.
  - destruct (S _ _ Hin) as [?|(pid & c' & Hc' & Hd & Hs')]; [by left|].
    right. exists pid, c'. split; [|done]. rewrite list_lookup_alter_ne; [done|].
    intros <-. congruence.
  - destruct (c_consumer c) as [k|it] eqn:Ec; [by apply elem_of_nil in Hin|].
    apply list_elem_of_singleton in Hin as [= -> ->].
    right. exists p, (exited ev r c). split; [by rewrite list_lookup_alter_eq, H|].
    split; [done|]. simpl. by rewrite Hs.
Qed.

Lemma sourced_dispatchAborts sig pids w :
  Tidy w -> Sourced w ->
  Tidy (foldl (dispatchAbort sig) w pids) /\ Sourced (foldl (dispatchAbort sig) w pids).
Proof.
  revert w. induction pids as [|p pids IH]; intros w T S; simpl; [done|].
  apply IH; [by apply tidy_dispatchAbort|].
  unfold dispatchAbort. destruct (children w !! p) as [c|] eqn:E; [|done].
  destruct (hears sig c) eqn:Eh; [|done].
  apply (sourced_handler EvAbort _ p w c); try done.
  unfold hears in Eh. by apply andb_prop in Eh as [? _].
Qed.

Lemma sourced_app w w' extra :
  children w' = children w ++ extra -> command (this w') = command (this w) ->
  (forall item r, ThenJob item r ∈ microtasks w' ->
     ThenJob item r ∈ microtasks w
     \/ (r = Rejected SpawnThrew /\ spawn_throws (command (this w)) = true)) ->
  Sourced w -> Sourced w'.
Proof.
  intros Hch Hcmd Hm S item r Hin. rewrite Hcmd.
  destruct (Hm _ _ Hin) as [Hin'|?]; [|by left].
  destruct (S _ _ Hin') as [?|(pid & c & Hc & Hd)]; [by left|].
  right. exists pid, c. split; [|done]. rewrite Hch. by apply lookup_app_l_Some.
Qed.

Lemma reachable_sourced w : reachable w -> Sourced w.
Proof.
  induction 1 as [i cmd|w a R IH].
  { intros item r H. simpl in H. by apply elem_of_nil in H. }
  pose proof (reachable_tidy _ R) as T.
  destruct a as [osig| |sig|p code|p|]; simpl.
  - destruct (children_run_app osig w) as (extra & Hch & _).
    apply (sourced_app w _ extra); [done| | |done].
    + apply (identity_step w (CallRun osig)).
    + apply thenjob_run.
  - done.
  - unfold abort. destruct (bool_decide (sig ∈ aborted w)); [done|].
    by apply sourced_dispatchAborts.
  - unfold emitClose. destruct (children w !! p) as [c|] eqn:E; [|done].
    destruct (c_listening c) eqn:L; [|done]. rewrite onClose_unfold.
    by apply (sourced_handler (EvClose code) _ p w c).
  - unfold emitError. destruct (children w !! p) as [c|] eqn:E; [|done].
    destruct (c_listening c) eqn:L; [|done].
    by apply (sourced_handler EvError _ p w c).
  - destruct (children_tick_app w) as (extra & Hch & _).
    apply (sourced_app w _ extra); [done| | |done].
    + apply (identity_step w Tick).
    + apply thenjob_tick.
Qed.

(** A signal in [successfulList] is the signal of an item whose drained
    execution closed with code 0. *)
Lemma recorded_has_exited_zero w sig :
  reachable w -> sig ∈ successfulList (this w) ->
  exists pid c item,
    children w !! pid = Some c /\ c_consumer c = Drained item
    /\ signal item = sig /\ c_event c = Some (EvClose (Some 0%Z)).
Proof.
  intros R. revert sig. induction R as [i cmd|w a R IH]; intros sig Hin.
  { simpl in Hin. by apply elem_of_nil in Hin. }
  assert (forall pid c item,
            children w !! pid = Some c -> c_consumer c = Drained item ->
            signal item = sig -> c_event c = Some (EvClose (Some 0%Z)) ->
            exists pid c item,
              children (step w a) !! pid = Some c /\ c_consumer c = Drained item
              /\ signal item = sig /\ c_event c = Some (EvClose (Some 0%Z))) as Hkeep.
  { intros pid c item Hc Hd Hs Hev. exists pid, c, item. split; [|done].
    pose proof (reachable_child_ok _ _ _ R Hc) as Hok.
    apply (settled_persists c pid (children w)); [done|apply children_le_step|done|].
    unfold child_ok in Hok. destruct (c_listening c).
    - destruct Hok as (_ & _ & _ & _ & Hn). congruence.
    - destruct Hok as (_ & _ & _ & ev & _ & ->). by eexists. }
  rewrite successfulList_step in Hin.
  assert (sig ∈ successfulList (this w) ->
          exists pid c item,
            children (step w a) !! pid = Some c /\ c_consumer c = Drained item
            /\ signal item = sig /\ c_event c = Some (EvClose (Some 0%Z))) as Hold.
  { intros Hin'. destruct (IH _ Hin') as (pid & c & item & Hc & Hd & Hs & Hev).
    by eapply Hkeep. }
  destruct a as [osig| |s|p code|p|]; try by apply Hold.
  destruct (microtasks w) as [|[item [|e]|item r|] ms] eqn:Em; try by apply Hold.
  apply elem_of_app in Hin as [Hin|Hin%list_elem_of_singleton]; [by apply Hold|].
  destruct (reachable_sourced _ R item Resolved) as [[? _]|(pid & c & Hc & Hd & Hs)];
    [rewrite Em; left | done |].
  apply (Hkeep pid c item); [done..|].
  pose proof (reachable_child_ok _ _ _ R Hc) as Hok. unfold child_ok in Hok.
  destruct (c_listening c).
  - destruct Hok as (_ & _ & _ & Hn & _). congruence.
  - destruct Hok as (_ & _ & _ & ev & Hev & Hst). rewrite Hev. f_equal.
    apply resultOf_resolved. congruence.
Qed.

End Recorded.

(** X5: only a success is memoized.  In every reachable world each
    signal in [successfulList] is the signal of an item that was drained
    and whose child closed with code 0; the list is empty as long as no
    drained execution has closed with code 0, so an error, another exit
    code or an abort never puts a signal there. *)
Theorem successful_signal_has_exited_with_zero (w : World) (sig : Signal) :
  reachable w -> sig ∈ successfulList (this w) ->
  _memoize (this w) = true
  /\ exists pid c item,
       children w !! pid = Some c /\ c_consumer c = Drained item
       /\ signal item = sig /\ c_event c = Some (EvClose (Some 0%Z))
       /\ c_state c = Some Resolved /\ c_listening c = false.
Proof.
  intros R Hin. split.
  - destruct (_memoize (this w)) eqn:E; [done|].
    destruct (plain_object w R E) as (_ & Hs & _). rewrite Hs in Hin.
    by apply elem_of_nil in Hin.
  - destruct (recorded_has_exited_zero w sig R Hin) as (pid & c & item & Hc & Hd & Hs & Hev).
    exists pid, c, item. repeat (split; [done|]).
    pose proof (reachable_child_ok _ _ _ R Hc) as Hok. unfold child_ok in Hok.
    destruct (c_listening c).
    + destruct Hok as (_ & _ & _ & _ & Hn). congruence.
    + destruct Hok as (_ & _ & _ & ev & Hev' & ->).
      assert (ev = EvClose (Some 0%Z)) as -> by congruence. done.
Qed.

Lemma successful_signal_has_exited_with_zero_witness :
  let w := steps (create 1 "job")
             [CallMemoize; CallRun (Some 1); CallRun (Some 2); Error 0; Tick; Tick; Tick;
              Close 1 (Some 0%Z); Tick] in
  successfulList (this w) = [2]
  /\ exists pid c item,
       children w !! pid = Some c /\ c_consumer c = Drained item
       /\ signal item = 2 /\ c_event c = Some (EvClose (Some 0%Z)).
Proof.
  intros w. split; [by vm_compute|].
  assert (reachable w) as R by apply reachable_steps, reach_create.
  assert (2 ∈ successfulList (this w)) as Hin
    by (apply (bool_decide_unpack _); by vm_compute).
  destruct (successful_signal_has_exited_with_zero w 2 R Hin)
    as (_ & pid & c & item & H1 & H2 & H3 & H4 & _).
  by exists pid, c, item.
Defined.


(** ** The slot and the queue *)

Section Wake.
Implicit Types (w : World) (pid : Pid) (c : Child) (sig : Signal) (item : QueueItem).

Lemma children_handler ev r p w :
  children (handler ev r p w) = alter (exited ev r) p (children w).
Proof.
  unfold handler. rewrite children_settle_exec, children_cleanup, children_note.
  unfold exited. by rewrite !list_alter_alter_eq.
Qed.

Lemma slotlive_ext w w' :
  children w' = children w -> _childProcess (this w') = _childProcess (this w) ->
  SlotLive w -> SlotLive w'.
Proof. intros Hc Hs S p. unfold live. rewrite Hc, Hs. apply S. Qed.

Lemma slotlive_exec osig (k0 : Consumer) w : SlotLive w -> SlotLive (exec osig k0 w).
Proof.
  intros S. destruct (exec_cases osig k0 w) as [[_ ->]|[_ ->]].
  - apply (slotlive_ext w); [| |done]; by rewrite ?children_thrown, ?this_thrown.
  - intros p. simpl. intros [= <-]. unfold live. simpl. by rewrite lookup_snoc_new.
Qed.

Lemma slotlive_runNext w : SlotLive w -> SlotLive (runNext w).
Proof.
  intros S. unfold runNext. destruct (_childProcess (this w)) eqn:Es; [done|].
  destruct (queue (this w)) as [|item rest]; [done|].
  destruct (_memoize (this w)).
  - apply slotlive_exec. intros p. simpl. by rewrite Es.
  - intros p. simpl. by rewrite Es.
Qed.

Lemma slotlive_dispatchAborts sig pids w :
  SlotLive w -> SlotLive (foldl (dispatchAbort sig) w pids).
Proof.
  revert w. induction pids as [|p pids IH]; intros w S; simpl; [done|].
  apply IH. unfold dispatchAbort. destruct (children w !! p) as [c|]; [|done].
  destruct (hears sig c); [|done]. intros q. by rewrite this_onAbort.
Qed.

Lemma slotlive_step w a : SlotLive w -> SlotLive (step w a).
Proof.
  intros S. destruct a as [osig| |sig|p code|p|]; simpl.
  - unfold run. destruct (is_aborted osig w); [done|].
    destruct (is_successful osig w); [done|].
    destruct osig as [s|]; [|by apply slotlive_exec, (slotlive_ext w)].
    destruct (_memoize (this w)); [|by apply slotlive_exec, (slotlive_ext w)].
    cbn [fst]. by apply slotlive_runNext, (slotlive_ext w).
  - done.
  - unfold abort. destruct (bool_decide (sig ∈ aborted w)); [done|].
    by apply slotlive_dispatchAborts.
  - unfold emitClose. destruct (children w !! p) as [c|]; [|done].
    destruct (c_listening c); [|done]. intros q. by rewrite this_onClose.
  - unfold emitError. destruct (children w !! p) as [c|]; [|done].
    destruct (c_listening c); [|done]. intros q. by rewrite this_onError.
  - unfold tick. destruct (microtasks w) as [|m ms]; [done|].
    destruct m as [item [|e]|item [|e]|].
    + apply (slotlive_ext w); [| |done].
      * by rewrite children_enqueue, children_onFulfilled.
      * by rewrite this_enqueue, this_onFulfilled.
    + by apply (slotlive_ext w).
    + by apply (slotlive_ext w).
    + apply (slotlive_ext w); [| |done]; unfold onRejected.
      * by rewrite children_enqueue, settle_children.
      * by rewrite this_enqueue, settle_this.
    + by apply slotlive_runNext, (slotlive_ext w).
Qed.

Lemma reachable_slotlive w : reachable w -> SlotLive w.
Proof.
  induction 1 as [i cmd|w a _ IH]; [done | by apply slotlive_step].
Qed.

(** After [runNext] an execution is in the slot, or the queue is empty,
    or [spawn] has thrown and the first reaction is scheduled. *)
Lemma awake_runNext w :
  (queue (this w) <> [] -> _memoize (this w) = true) -> Awake (runNext w).
Proof.
  intros Hm. unfold Awake, runNext. destruct (_childProcess (this w)) eqn:Es.
  { by rewrite Es. }
  destruct (queue (this w)) as [|item rest] eqn:Eq; [by rewrite Eq|].
  rewrite Hm by done.
  destruct (exec_cases (Some (signal item)) (Drained item)
              (with_this (set_queue rest) w)) as [[_ ->]|[_ ->]]; [|done].
  intros _ _. simpl. by intros [? ?]%app_eq_nil.
Qed.

Lemma queue_needs_memoize w :
  reachable w -> queue (this w) <> [] -> _memoize (this w) = true.
Proof.
  intros R Hq. destruct (_memoize (this w)) eqn:E; [done|].
  by destruct (plain_object w R E) as [? _].
Qed.

Lemma alldrained_handler ev r p w : AllDrained w -> AllDrained (handler ev r p w).
Proof.
  intros A pid c. rewrite children_handler. destruct (decide (p = pid)) as [<-|Hne].
  - rewrite list_lookup_alter_eq. destruct (children w !! p) as [c0|] eqn:E; [|done].
    simpl. intros [= <-]. destruct (A p c0 E) as [item Hc]. by exists item.
  - rewrite list_lookup_alter_ne by done. apply A.
Qed.

Lemma alldrained_runNext w : AllDrained w -> AllDrained (runNext w).
Proof.
  intros A. destruct (drain_takes_head w) as [H|(item & rest & _ & _ & H)];
    intros pid c; rewrite H; [apply A|].
  intros [Hc|[_ Hc]]%lookup_app_Some; [by apply (A pid)|].
  apply list_lookup_singleton_Some in Hc as [_ <-]. by exists item.
Qed.

Lemma alldrained_tick w : AllDrained w -> AllDrained (tick w).
Proof.
  intros A. unfold tick. destruct (microtasks w) as [|m ms]; [done|].
  destruct m as [item [|e]|item [|e]|].
  - intros pid c. rewrite children_enqueue, children_onFulfilled. apply A.
  - exact A.
  - exact A.
  - intros pid c. unfold onRejected. rewrite children_enqueue, settle_children.
    apply A.
  - by apply alldrained_runNext.
Qed.

Lemma alldrained_ticks n w : AllDrained w -> AllDrained (steps w (ticks n)).
Proof.
  revert w. induction n as [|n IH]; intros w A; [done|].
  change (steps w (ticks (S n))) with (steps (tick w) (ticks n)).
  by apply IH, alldrained_tick.
Qed.

(** The handler of a drained execution schedules the first reaction. *)
Lemma awake_handler ev r p w c :
  Tidy w -> AllDrained w -> children w !! p = Some c -> c_listening c = true ->
  Awake (handler ev r p w).
Proof.
  intros T A H L _ _.
  assert (child_ok c) as Hok by (unfold Tidy in T; by eapply Forall_lookup_1).
  unfold child_ok in Hok. rewrite L in Hok. destruct Hok as (_ & _ & _ & Hs & _).
  destruct (A _ _ H) as [item Hc].
  rewrite (microtasks_handler ev r p w c H Hs), Hc. by intros [? ?]%app_eq_nil.
Qed.

Lemma awake_dispatchAborts sig pids w :
  Tidy w -> AllDrained w -> Awake w -> Awake (foldl (dispatchAbort sig) w pids).
Proof.
  revert w. induction pids as [|p pids IH]; intros w T A W; simpl; [done|].
  apply IH; [by apply tidy_dispatchAbort|..];
    unfold dispatchAbort; destruct (children w !! p) as [c|] eqn:E; try done;
    destruct (hears sig c) eqn:Eh; try done.
  - by apply alldrained_handler.
  - apply (awake_handler _ _ p w c); try done.
    unfold hears in Eh. by apply andb_prop in Eh as [? _].
Qed.

Lemma awake_step w a : reachable w -> AllDrained w -> Awake w -> Awake (step w a).
Proof.
  intros R A W. pose proof (reachable_tidy _ R) as T.
  pose proof (queue_needs_memoize w R) as Hm.
  destruct a as [osig| |sig|p code|p|]; simpl.
  - unfold run. destruct (is_aborted osig w); [done|].
    destruct (is_successful osig w); [done|].
    assert (forall k, Awake (exec osig (Direct k) (new_promise None w))) as Hd.
    { intros k. destruct (exec_cases osig (Direct k) (new_promise None w))
        as [[_ ->]|[_ ->]]; [|by intros Hs].
      unfold Awake. simpl. rewrite settle_this, settle_microtasks. exact W. }
    destruct osig as [s|]; [|apply Hd].
    destruct (_memoize (this w)) eqn:Em; [|apply Hd].
    cbn [fst]. apply awake_runNext. by intros _.
  - exact W.
  - unfold abort. destruct (bool_decide (sig ∈ aborted w)); [done|].
    by apply awake_dispatchAborts.
  - unfold emitClose. destruct (children w !! p) as [c|] eqn:E; [|done].
    destruct (c_listening c) eqn:L; [|done]. rewrite onClose_unfold.
    by apply (awake_handler _ _ p w c).
  - unfold emitError. destruct (children w !! p) as [c|] eqn:E; [|done].
    destruct (c_listening c) eqn:L; [|done].
    by apply (awake_handler EvError _ p w c).
  - unfold tick. destruct (microtasks w) as [|m ms] eqn:Em.
    { exact W. }
    assert (forall m' w', Awake (enqueue m' w')) as He.
    { intros m' w' _ _. rewrite microtasks_enqueue. by intros [? ?]%app_eq_nil. }
    destruct m as [item [|e]|item [|e]|]; try apply He.
    apply awake_runNext. exact Hm.
Qed.

Lemma reachable_awake w : reachable w -> AllDrained w -> Awake w.
Proof.
  induction 1 as [i cmd|w a R IH]; intros A.
  - by intros _ Hq.
  - pose proof (alldrained_back w a A) as A0. by apply awake_step; [| |apply IH].
Qed.

(** Each tick runs one reaction of a chain. *)
Lemma weight_tick w : reachable w -> weight (tick w) = pred (weight w).
Proof.
  intros R.
  unfold weight, tick. destruct (microtasks w) as [|m ms] eqn:Em; [by rewrite Em|].
  destruct m as [item [|e]|item [|e]|].
  - rewrite microtasks_enqueue, microtasks_onFulfilled. simpl.
    rewrite sum_list_with_app. simpl. lia.
  - rewrite microtasks_enqueue. simpl. rewrite sum_list_with_app. simpl. lia.
  - rewrite microtasks_enqueue. simpl. rewrite sum_list_with_app. simpl. lia.
  - unfold onRejected. rewrite microtasks_enqueue, settle_microtasks. simpl.
    rewrite sum_list_with_app. simpl. lia.
  - destruct (spawn_throws (command (this w))) eqn:Ht.
    + (* nothing waits behind a command that [spawn] refuses *)
      destruct (reachable_barren w R Ht) as (_ & Hs & Hq).
      rewrite runNext_empty by done. simpl. lia.
    + rewrite microtasks_runNext by done. simpl. lia.
Qed.

Lemma ticks_drain n w :
  reachable w -> weight w <= n -> microtasks (steps w (ticks n)) = [].
Proof.
  revert w. induction n as [|n IH]; intros w R Hw.
  - unfold weight in Hw. destruct (microtasks w) as [|m ms] eqn:Em; [done|].
    simpl in Hw. destruct m; simpl in Hw; lia.
  - change (steps w (ticks (S n))) with (steps (tick w) (ticks n)).
    apply IH; [apply (reach_step w Tick R)|]. rewrite weight_tick by done. lia.
Qed.

End Wake.

(** X6: the queue of an object without direct executions does not stall.
    In every reachable world the process in the slot is one that is still
    running.  If moreover every execution was a drained one, then an idle
    world (empty slot, nothing scheduled) has an empty queue, and from any
    world the job loop comes to rest after [weight w] ticks in a world
    where nothing waits or an execution is running in the slot. *)
Theorem drained_queue_never_stalls (w : World) :
  reachable w ->
  (forall p, _childProcess (this w) = Some p -> live w p = true)
  /\ (AllDrained w ->
      (_childProcess (this w) = None -> microtasks w = [] -> queue (this w) = [])
      /\ let w' := steps w (ticks (weight w)) in
         microtasks w' = []
         /\ (queue (this w') = []
             \/ exists p, _childProcess (this w') = Some p /\ live w' p = true)).
Proof.
  intros R. split; [apply (reachable_slotlive w R)|]. intros A.
  assert (forall x, reachable x -> AllDrained x ->
            _childProcess (this x) = None -> microtasks x = [] -> queue (this x) = [])
    as Hidle.
  { intros x Rx Ax Hs Hm. destruct (queue (this x)) as [|item rest] eqn:Eq; [done|].
    destruct (reachable_awake x Rx Ax Hs); [by rewrite Eq | done]. }
  split; [by apply Hidle|]. intros w'.
  assert (reachable w') as R' by by apply reachable_steps.
  assert (AllDrained w') as A' by by apply alldrained_ticks.
  assert (microtasks w' = []) as Hm by by apply ticks_drain.
  split; [done|]. destruct (_childProcess (this w')) as [p|] eqn:Es.
  - right. exists p. split; [done|]. by apply (reachable_slotlive w' R').
  - left. by apply Hidle.
Qed.

Lemma drained_queue_never_stalls_witness :
  let w := steps (create 1 "job")
             [CallMemoize; CallRun (Some 1); CallRun (Some 2); Close 0 (Some 1%Z)] in
  let w' := steps w (ticks 3) in
  _childProcess (this w) = None /\ (promise <$> queue (this w)) = [1]
  /\ microtasks w' = []
  /\ (queue (this w') = []
      \/ exists p, _childProcess (this w') = Some p /\ live w' p = true).
Proof.
  intros w w'. split; [by vm_compute|]. split; [by vm_compute|].
  assert (reachable w) as R by apply reachable_steps, reach_create.
  assert (AllDrained w) as A.
  { intros pid c H. apply list_elem_of_lookup_2 in H. revert H. vm_compute.
    intros H. repeat (apply elem_of_cons in H as [->|H]; [by eexists|]).
    by apply elem_of_nil in H. }
  destruct (drained_queue_never_stalls w R) as [_ H].
  destruct (H A) as [_ H']. exact H'.
Defined.


(** ** Who settles a pending call *)

Section HeldFacts.
Implicit Types (w : World) (pid : Pid) (c : Child) (k j : CallId) (r : Settled).

Lemma settle_pending_inv k j r w :
  promises (settle k r w) !! j = Some None -> promises w !! j = Some None /\ k <> j.
Proof.
  intros H. destruct (decide (k = j)) as [->|Hne]; [|by rewrite settle_other in H].
  exfalso. destruct (promises w !! j) as [[r'|]|] eqn:E.
  - rewrite (settle_settled _ _ _ _ E) in H. congruence.
  - rewrite (settle_pending _ _ _ E) in H. congruence.
  - unfold settle in H. rewrite E in H. congruence.
Qed.

Lemma settle_all_pending_inv ks j r w :
  promises (settle_all ks r w) !! j = Some None ->
  promises w !! j = Some None /\ j ∉ ks.
Proof.
  revert w. induction ks as [|k ks IH]; intros w H.
  - split; [done|]. apply not_elem_of_nil.
  - rewrite settle_all_cons in H. apply IH in H as [H Hn].
    apply settle_pending_inv in H as [H Hne]. split; [done|].
    apply not_elem_of_cons. split; [congruence | done].
Qed.

(** The promises settled leave the holders; the others keep theirs. *)
Lemma held_settle_all ks r w w' :
  holders w ≡ₚ ks ++ holders w' -> promises w' = promises (settle_all ks r w) ->
  Held w -> Held w'.
Proof.
  intros Hh Hp H j Hj. rewrite Hp in Hj.
  apply settle_all_pending_inv in Hj as [Hj Hn].
  apply H in Hj. rewrite Hh in Hj. by apply elem_of_app in Hj as [?|?].
Qed.

Lemma held_ext w w' :
  holders w' ≡ₚ holders w -> promises w' = promises w -> Held w -> Held w'.
Proof. intros Hh Hp H j. rewrite Hp, Hh. apply H. Qed.

Lemma held_new_promise r w : Held w -> Held (new_promise (Some r) w).
Proof.
  intros H j. unfold new_promise; simpl.
  intros [Hj|[_ Hj]]%lookup_app_Some; [by apply H|].
  by apply list_lookup_singleton_Some in Hj as [_ ?].
Qed.

Lemma held_exec_direct osig w :
  Held w -> Held (exec osig (Direct (length (promises w))) (new_promise None w)).
Proof.
  intros H j.
  destruct (exec_cases osig (Direct (length (promises w))) (new_promise None w))
    as [[_ ->]|[_ ->]].
  { (* [spawn] throws: the new promise is rejected at once *)
    rewrite holders_thrown. simpl. intros [Hj Hne]%settle_pending_inv. simpl in Hj.
    apply lookup_app_Some in Hj as [Hj|[Hlen Hj]]; [by apply H|].
    apply list_lookup_singleton_Some in Hj as [Hj _]. lia. }
  rewrite holders_spawned. simpl.
  intros [Hj|[Hlen Hj]]%lookup_app_Some.
  - right. by apply H.
  - apply list_lookup_singleton_Some in Hj as [Hj _].
    assert (j = length (promises w)) as -> by lia. left.
Qed.

Lemma held_runNext w :
  (queue (this w) <> [] -> _memoize (this w) = true) -> Held w -> Held (runNext w).
Proof.
  intros Hm H. unfold runNext. destruct (_childProcess (this w)); [done|].
  destruct (queue (this w)) as [|item rest] eqn:Eq; [done|].
  rewrite Hm by done. intros j Hj.
  assert (holders (exec (Some (signal item)) (Drained item) (with_this (set_queue rest) w))
          ≡ₚ promise item :: holders (with_this (set_queue rest) w)) as ->.
  { destruct (exec_cases (Some (signal item)) (Drained item)
                (with_this (set_queue rest) w)) as [[_ ->]|[_ ->]].
    - by rewrite holders_thrown.
    - by rewrite holders_spawned. }
  rewrite promises_exec_drained in Hj.
  apply H in Hj. unfold holders in Hj. rewrite Eq in Hj. exact Hj.
Qed.

Lemma handler_direct ev r pid w c k :
  children w !! pid = Some c -> c_state c = None -> c_consumer c = Direct k ->
  promises (handler ev r pid w) = promises (settle k r w).
Proof.
  intros H Hs Hc. unfold handler, settle_exec. rewrite children_cleanup, children_note.
  rewrite !list_lookup_alter_eq, H. simpl. rewrite Hs, Hc.
  unfold settle. simpl. by destruct (promises w !! k) as [[?|]|].
Qed.

(** A handler of [exec] settles the promise of a direct call, or hands
    the promise of the item over to the first reaction of the chain. *)
Lemma held_handler ev r p w c :
  Tidy w -> children w !! p = Some c -> c_listening c = true ->
  Held w -> Held (handler ev r p w).
Proof.
  intros T H L Hd.
  assert (child_ok c) as Hok by (unfold Tidy in T; by eapply Forall_lookup_1).
  unfold child_ok in Hok. rewrite L in Hok. destruct Hok as (_ & _ & _ & Hs & _).
  assert (child_holder c = [consumer_call (c_consumer c)]) as Hc1.
  { unfold child_holder. by rewrite Hs. }
  assert (child_holder (exited ev r c) = []) as Hc2.
  { unfold child_holder. simpl. by rewrite Hs. }
  assert (holders w
          ≡ₚ consumer_call (c_consumer c)
             :: ((promise <$> queue (this w))
                 ++ (delete p (children w) ≫= child_holder)
                 ++ (microtasks w ≫= task_holder))) as Hh.
  { unfold holders. rewrite (bind_lookup_perm child_holder _ _ _ H), Hc1. simpl.
    symmetry. apply Permutation_middle. }
  destruct (c_consumer c) as [k|item] eqn:Ec.
  - destruct (direct_exit_does_not_drain ev r p w c k H Ec) as (Hq & Hm & _).
    apply (held_settle_all [k] r w); [|by apply (handler_direct ev r p w c)|done].
    rewrite Hh. unfold holders at 1. rewrite Hq, Hm, children_handler.
    rewrite (bind_alter_perm child_holder _ _ _ _ H), Hc2. done.
  - destruct (handler_drained ev r p w c item H Hs Ec) as (Hch & Hp & Hm & _ & Ht).
    apply (held_ext w); [|done|done].
    rewrite Hh. unfold holders. rewrite Hch, Hm, Ht.
    rewrite (bind_alter_perm child_holder _ _ _ _ H), Hc2, bind_app.
    change ([ThenJob item r] ≫= task_holder) with [promise item]. simpl.
    rewrite !app_assoc. by rewrite <- Permutation_cons_append.
Qed.

Lemma held_dispatchAborts sig pids w :
  Tidy w -> Held w -> Held (foldl (dispatchAbort sig) w pids).
Proof.
  revert w. induction pids as [|p pids IH]; intros w T Hd; simpl; [done|].
  apply IH; [by apply tidy_dispatchAbort|].
  unfold dispatchAbort. destruct (children w !! p) as [c|] eqn:E; [|done].
  destruct (hears sig c) eqn:Eh; [|done].
  apply (held_handler EvAbort _ p w c); try done.
  unfold hears in Eh. by apply andb_prop in Eh as [? _].
Qed.

Lemma held_tick w :
  (queue (this w) <> [] -> _memoize (this w) = true) -> Held w -> Held (tick w).
Proof.
  intros Hmem Hd. destruct (microtasks w) as [|m ms] eqn:Em.
  { unfold tick. by rewrite Em. }
  destruct m as [item [|e]|item [|e]|].
  - rewrite (tick_then_resolved _ _ _ Em).
    eapply (held_settle_all _ Resolved w); [| |done].
    + rewrite (then_job_holders _ _ _ _ Em). apply Permutation_app_head.
      unfold holders. rewrite this_enqueue, children_enqueue, microtasks_enqueue.
      rewrite this_onFulfilled, children_onFulfilled, microtasks_onFulfilled.
      rewrite bind_app.
      change ([CatchJob item Resolved] ≫= task_holder) with (@nil nat).
      by rewrite app_nil_r.
    + unfold enqueue. cbn [promises with_microtasks]. rewrite promises_onFulfilled.
      by apply settle_all_promises_ext.
  - rewrite (tick_then_rejected _ _ _ _ Em). apply (held_ext w); [|done|done].
    unfold holders; simpl. rewrite Em, bind_cons, bind_app.
    change ([CatchJob item (Rejected e)] ≫= task_holder) with [promise item].
    change (task_holder (ThenJob item (Rejected e))) with [promise item].
    simpl. perm_front.
  - rewrite (tick_catch_resolved _ _ _ Em). apply (held_ext w); [|done|done].
    unfold holders; simpl. rewrite Em, bind_cons, bind_app.
    change ([FinallyJob] ≫= task_holder) with (@nil nat).
    change (task_holder (CatchJob item Resolved)) with (@nil nat).
    simpl. by rewrite app_nil_r.
  - rewrite (tick_catch_rejected _ _ _ _ Em).
    apply (held_settle_all [promise item] (Rejected e) w); [| |done].
    + unfold holders. rewrite this_enqueue, children_enqueue, microtasks_enqueue.
      rewrite settle_this, settle_children, settle_microtasks. simpl.
      rewrite Em, bind_cons, bind_app.
      change ([FinallyJob] ≫= task_holder) with (@nil nat).
      change (task_holder (CatchJob item (Rejected e))) with [promise item].
      rewrite app_nil_r. simpl. perm_front.
    + unfold enqueue. cbn [promises with_microtasks].
      by apply (settle_all_promises_ext [promise item]).
  - rewrite (tick_finally _ _ Em). apply held_runNext; [done|].
    apply (held_ext w); [|done|done].
    unfold holders; simpl. by rewrite Em, bind_cons.
Qed.

Lemma held_run osig w :
  (queue (this w) <> [] -> _memoize (this w) = true) ->
  Held w -> Held (fst (run osig w)).
Proof.
  intros Hmem Hd. unfold run.
  destruct (is_aborted osig w); [by apply held_new_promise|].
  destruct (is_successful osig w); [by apply held_new_promise|].
  destruct osig as [s|]; [|by apply held_exec_direct].
  destruct (_memoize (this w)) eqn:Em; [|by apply held_exec_direct].
  cbn [fst]. apply held_runNext; [by intros _|].
  intros j. unfold holders. simpl. rewrite fmap_app, !elem_of_app. simpl.
  intros [Hj|[Hlen Hj]]%lookup_app_Some.
  - apply Hd in Hj. unfold holders in Hj. rewrite !elem_of_app in Hj. tauto.
  - apply list_lookup_singleton_Some in Hj as [Hj _].
    assert (j = length (promises w)) as -> by lia.
    left. right. apply list_elem_of_singleton. done.
Qed.

Lemma held_step w a : reachable w -> Held w -> Held (step w a).
Proof.
  intros R Hd. pose proof (reachable_tidy _ R) as T.
  pose proof (queue_needs_memoize w R) as Hmem.
  destruct a as [osig| |sig|p code|p|]; simpl.
  - by apply held_run.
  - exact Hd.
  - unfold abort. destruct (bool_decide (sig ∈ aborted w)); [done|].
    by apply held_dispatchAborts.
  - unfold emitClose. destruct (children w !! p) as [c|] eqn:E; [|done].
    destruct (c_listening c) eqn:L; [|done]. rewrite onClose_unfold.
    by apply (held_handler _ _ p w c).
  - unfold emitError. destruct (children w !! p) as [c|] eqn:E; [|done].
    destruct (c_listening c) eqn:L; [|done].
    by apply (held_handler EvError _ p w c).
  - by apply held_tick.
Qed.

Lemma reachable_held w : reachable w -> Held w.
Proof.
  induction 1 as [i cmd|w a R IH].
  - intros k H. simpl in H. by rewrite lookup_nil in H.
  - by apply held_step.
Qed.

(** Who a holder is. *)
Lemma holder_cases w k :
  Tidy w -> k ∈ holders w ->
  (exists item, item ∈ queue (this w) /\ promise item = k)
  \/ (exists pid c, children w !! pid = Some c /\ c_listening c = true
                    /\ child_call c = k)
  \/ (exists item r, promise item = k
                     /\ (ThenJob item r ∈ microtasks w
                         \/ CatchJob item r ∈ microtasks w)).
Proof.
  intros T. unfold holders. rewrite !elem_of_app.
  intros [H|[H|H]].
  - left. apply list_elem_of_fmap in H as (item & -> & H). by exists item.
  - right. left. apply list_elem_of_bind in H as (c & H & Hc).
    apply list_elem_of_lookup in Hc as [pid Hc]. exists pid, c.
    assert (child_ok c) as Hok by (unfold Tidy in T; by eapply Forall_lookup_1).
    unfold child_holder in H. unfold child_ok in Hok.
    destruct (c_state c) as [r|] eqn:Es; [by apply elem_of_nil in H|].
    apply list_elem_of_singleton in H as ->.
    destruct (c_listening c); [done|].
    destruct Hok as (_ & _ & _ & ev & _ & ?). congruence.
  - right. right. apply list_elem_of_bind in H as (m & H & Hm).
    destruct m as [item r|item [|e]|]; simpl in H.
    + apply list_elem_of_singleton in H as ->. exists item, r. auto.
    + by apply elem_of_nil in H.
    + apply list_elem_of_singleton in H as ->. exists item, (Rejected e). auto.
    + by apply elem_of_nil in H.
Qed.

End HeldFacts.

(** X7: no call is lost.  In every reachable world a call of [run]
    whose promise is pending waits in the queue, or a running execution
    was spawned for it, or a reaction of the chain of its execution is
    scheduled.  So when no execution runs, nothing is scheduled and the
    queue is empty, every call has settled; if every execution was a
    drained one, an empty slot and an idle job loop are enough. *)
Theorem pending_call_is_accounted_for (w : World) :
  reachable w ->
  (forall k, promises w !! k = Some None ->
     (exists item, item ∈ queue (this w) /\ promise item = k)
     \/ (exists pid c, children w !! pid = Some c /\ c_listening c = true
                       /\ child_call c = k)
     \/ (exists item r, promise item = k
                        /\ (ThenJob item r ∈ microtasks w
                            \/ CatchJob item r ∈ microtasks w)))
  /\ ((forall pid, live w pid = false) -> microtasks w = [] -> queue (this w) = [] ->
      forall k, k < length (promises w) -> exists r, outcome w k = Some r)
  /\ (AllDrained w -> _childProcess (this w) = None -> microtasks w = [] ->
      forall k, k < length (promises w) -> exists r, outcome w k = Some r).
Proof.
  intros R. pose proof (reachable_tidy _ R) as T.
  assert (forall k, promises w !! k = Some None ->
     (exists item, item ∈ queue (this w) /\ promise item = k)
     \/ (exists pid c, children w !! pid = Some c /\ c_listening c = true
                       /\ child_call c = k)
     \/ (exists item r, promise item = k
                        /\ (ThenJob item r ∈ microtasks w
                            \/ CatchJob item r ∈ microtasks w))) as Hacc.
  { intros k Hk. by apply holder_cases, reachable_held. }
  assert ((forall pid, live w pid = false) -> microtasks w = [] ->
          queue (this w) = [] ->
          forall k, k < length (promises w) -> exists r, outcome w k = Some r) as Hquiet.
  { intros Hdead Hm Hq k Hk. unfold outcome.
    destruct (lookup_lt_is_Some_2 _ _ Hk) as [[r|] Hr]; rewrite Hr; [by exists r|].
    exfalso. destruct (Hacc k Hr) as [(item & Hin & _)|[(pid & c & Hc & L & _)|H]].
    - rewrite Hq in Hin. by apply elem_of_nil in Hin.
    - specialize (Hdead pid). unfold live in Hdead. rewrite Hc in Hdead. congruence.
    - destruct H as (item & r & _ & [Hin|Hin]); rewrite Hm in Hin;
        by apply elem_of_nil in Hin. }
  split; [done|]. split; [done|]. intros A Hs Hm. apply Hquiet; [|done|].
  - intros pid. unfold live. destruct (children w !! pid) as [c|] eqn:Hc; [|done].
    destruct (c_listening c) eqn:L; [|done].
    destruct (drained_one_at_a_time w R A) as [S _].
    pose proof (S _ _ Hc L). congruence.
  - destruct (queue (this w)) as [|item rest] eqn:Eq; [done|].
    destruct (reachable_awake w R A Hs); [by rewrite Eq | done].
Qed.

Lemma pending_call_is_accounted_for_witness :
  let w := steps (create 1 "job")
             [CallMemoize; CallRun (Some 1); CallRun (Some 2); CallRun None;
              Close 0 (Some 0%Z); Tick; Tick; Tick; Error 2; Close 1 (Some 3%Z);
              Tick; Tick; Tick] in
  length (promises w) = 3
  /\ forall k, k < length (promises w) -> exists r, outcome w k = Some r.
Proof.
  intros w. split; [by vm_compute|].
  assert (reachable w) as R by apply reachable_steps, reach_create.
  destruct (pending_call_is_accounted_for w R) as (_ & H & _).
  apply H.
  - intros pid. unfold live.
    destruct (children w !! pid) as [c|] eqn:Hc; [|done].
    apply list_elem_of_lookup_2 in Hc. revert Hc. vm_compute.
    intros Hc. repeat (apply elem_of_cons in Hc as [->|Hc]; [done|]).
    by apply elem_of_nil in Hc.
  - by vm_compute.
  - by vm_compute.
Defined.


(** ** Where a result comes from *)

Section Causes.
Implicit Types (w : World) (pid : Pid) (c : Child) (k j : CallId) (r : Settled).

Lemma settle_exec_frame pid r w :
  length (promises (settle_exec pid r w)) = length (promises w)
  /\ (forall m, m ∈ microtasks w -> m ∈ microtasks (settle_exec pid r w))
  /\ (forall item r', CatchJob item r' ∈ microtasks (settle_exec pid r w) ->
        CatchJob item r' ∈ microtasks w).
Proof.
  unfold settle_exec. destruct (children w !! pid) as [c|]; [|done].
  destruct (c_state c); [done|]. destruct (c_consumer c) as [k|item].
  - rewrite settle_length, settle_microtasks. done.
  - split; [done|]. rewrite microtasks_enqueue. split.
    + intros m Hm. apply elem_of_app. by left.
    + intros it r' [H|H%list_elem_of_singleton]%elem_of_app; done.
Qed.

Lemma handler_frame ev r p w :
  queue (this (handler ev r p w)) = queue (this w)
  /\ length (promises (handler ev r p w)) = length (promises w)
  /\ (forall m, m ∈ microtasks w -> m ∈ microtasks (handler ev r p w))
  /\ (forall item r', CatchJob item r' ∈ microtasks (handler ev r p w) ->
        CatchJob item r' ∈ microtasks w).
Proof.
  unfold handler. rewrite this_settle_exec. split; [done|].
  apply (settle_exec_frame p r (cleanup p (note p ev w))).
Qed.

Lemma dispatchAborts_frame sig pids w :
  queue (this (foldl (dispatchAbort sig) w pids)) = queue (this w)
  /\ length (promises (foldl (dispatchAbort sig) w pids)) = length (promises w)
  /\ (forall m, m ∈ microtasks w -> m ∈ microtasks (foldl (dispatchAbort sig) w pids))
  /\ (forall item r', CatchJob item r' ∈ microtasks (foldl (dispatchAbort sig) w pids) ->
        CatchJob item r' ∈ microtasks w).
Proof.
  revert w. induction pids as [|p pids IH]; intros w; simpl; [done|].
  destruct (IH (dispatchAbort sig w p)) as (Hq & Hl & Hm & Hc).
  assert (queue (this (dispatchAbort sig w p)) = queue (this w)
          /\ length (promises (dispatchAbort sig w p)) = length (promises w)
          /\ (forall m, m ∈ microtasks w -> m ∈ microtasks (dispatchAbort sig w p))
          /\ (forall item r', CatchJob item r' ∈ microtasks (dispatchAbort sig w p) ->
                CatchJob item r' ∈ microtasks w)) as (Hq1 & Hl1 & Hm1 & Hc1).
  { unfold dispatchAbort. destruct (children w !! p) as [c|]; [|done].
    destruct (hears sig c); [|done]. apply (handler_frame EvAbort). }
  rewrite Hq, Hl, Hq1, Hl1. split; [done|]. split; [done|]. split; [auto|].
  intros item r' H. by apply Hc1, Hc.
Qed.

(** An abort and the events of a child leave the queue alone, settle
    promises that exist, and only add first reactions. *)
Lemma event_frame w a :
  (forall osig, a <> CallRun osig) -> a <> Tick ->
  queue (this (step w a)) = queue (this w)
  /\ length (promises (step w a)) = length (promises w)
  /\ (forall m, m ∈ microtasks w -> m ∈ microtasks (step w a))
  /\ (forall item r', CatchJob item r' ∈ microtasks (step w a) ->
        CatchJob item r' ∈ microtasks w).
Proof.
  intros H1 H2. destruct a as [osig| |sig|p code|p|]; simpl.
  - by destruct (H1 osig).
  - done.
  - unfold abort. destruct (bool_decide (sig ∈ aborted w)); [done|].
    apply (dispatchAborts_frame sig _ (with_aborted _ w)).
  - unfold emitClose. destruct (children w !! p) as [c|]; [|done].
    destruct (c_listening c); [|done]. rewrite onClose_unfold.
    apply (handler_frame (EvClose code)).
  - unfold emitError. destruct (children w !! p) as [c|]; [|done].
    destruct (c_listening c); [|done]. apply (handler_frame EvError).
  - done.
Qed.

(** A promise that such a step settles is the promise of the call of an
    execution that the step has ended, with the result of its event. *)
Lemma event_settles w a k r :
  reachable w -> (forall osig, a <> CallRun osig) -> a <> Tick ->
  promises (step w a) !! k = Some (Some r) ->
  promises w !! k = Some (Some r)
  \/ exists pid c ev, children (step w a) !! pid = Some c /\ child_call c = k
                      /\ c_event c = Some ev /\ resultOf ev = r.
Proof.
  intros R H1 H2 Hs. destruct (event_frame w a H1 H2) as (Hq & Hl & Hm & _).
  assert (reachable (step w a)) as R' by by constructor.
  pose proof (reachable_owned _ R') as [N' P' D'].
  destruct (promises w !! k) as [[r'|]|] eqn:Hk.
  - left. pose proof (kept_step w a _ _ Hk). congruence.
  - right.
    assert (k ∉ holders (step w a)) as Hn.
    { intros Hin. apply P' in Hin. congruence. }
    pose proof (reachable_held w R k Hk) as Hin. unfold holders in Hin.
    rewrite !elem_of_app in Hin. destruct Hin as [Hin|[Hin|Hin]].
    + destruct Hn. unfold holders. rewrite Hq. apply elem_of_app. by left.
    + apply list_elem_of_bind in Hin as (c & Hin & Hc).
      apply list_elem_of_lookup in Hc as [pid Hc].
      unfold child_holder in Hin.
      destruct (c_state c) eqn:Es; [by apply elem_of_nil in Hin|].
      apply list_elem_of_singleton in Hin.
      destruct (children_le_step w a _ _ Hc) as (c' & Hc' & [->|(L & ev & ->)]).
      * destruct Hn. unfold holders. rewrite !elem_of_app. right. left.
        apply list_elem_of_bind. exists c. split; [|by eapply list_elem_of_lookup_2].
        unfold child_holder. rewrite Es. by apply list_elem_of_singleton.
      * pose proof (reachable_child_ok _ _ _ R Hc) as Hok. unfold child_ok in Hok.
        rewrite L in Hok. destruct Hok as (_ & _ & _ & _ & Hev).
        exists pid, (exited ev (resultOf ev) c), ev. split; [done|].
        split; [by rewrite Hin|]. split; [simpl; by rewrite Hev|].
        assert (c_state (exited ev (resultOf ev) c) = Some (resultOf ev)) as Hst.
        { simpl. by rewrite Es. }
        destruct (c_consumer c) as [k0|item] eqn:Ec; simpl in Hin; subst k.
        -- pose proof (D' pid _ k0 (resultOf ev) Hc' Ec Hst). congruence.
        -- destruct (reachable_chained _ R' pid _ item (resultOf ev) Hc' Ec Hst)
             as [Ht|[(e & He & Ht)|Ht]]; [| |congruence].
           ++ destruct Hn. unfold holders. rewrite !elem_of_app. right. right.
              apply list_elem_of_bind. eexists. split; [|exact Ht]. simpl. left.
           ++ destruct Hn. unfold holders. rewrite !elem_of_app. right. right.
              apply list_elem_of_bind. eexists. split; [|exact Ht].
              rewrite He. simpl. left.
    + apply list_elem_of_bind in Hin as (m & Hin & Hmm). destruct Hn.
      unfold holders. rewrite !elem_of_app. right. right.
      apply list_elem_of_bind. exists m. split; [done|]. by apply Hm.
  - exfalso. apply lookup_ge_None in Hk. apply lookup_lt_Some in Hs. lia.
Qed.

Lemma settle_settled_inv k j r r' w :
  promises (settle k r w) !! j = Some (Some r') ->
  promises w !! j = Some (Some r') \/ (j = k /\ r' = r).
Proof.
  intros H. destruct (decide (k = j)) as [->|Hne].
  - destruct (promises w !! j) as [[r0|]|] eqn:E.
    + rewrite (settle_settled _ _ _ _ E) in H. left. congruence.
    + rewrite (settle_pending _ _ _ E) in H. right. split; congruence.
    + unfold settle in H. rewrite E in H. congruence.
  - rewrite settle_other in H by done. by left.
Qed.

Lemma settle_all_settled_inv ks j r r' w :
  promises (settle_all ks r w) !! j = Some (Some r') ->
  promises w !! j = Some (Some r') \/ (j ∈ ks /\ r' = r).
Proof.
  revert w. induction ks as [|k ks IH]; intros w H; [by left|].
  rewrite settle_all_cons in H. destruct (IH _ H) as [H'|[Hin ->]].
  - destruct (settle_settled_inv _ _ _ _ _ H') as [?|[-> ->]]; [by left|].
    right. split; [left | done].
  - right. split; [by right | done].
Qed.

(** An execution that has ended is not touched again. *)
Lemma done_persists w a pid c :
  children w !! pid = Some c -> c_listening c = false ->
  children (step w a) !! pid = Some c.
Proof.
  intros Hc L. destruct (children_le_step w a _ _ Hc) as (c' & Hc' & [->|[L' _]]).
  - done.
  - congruence.
Qed.

Lemma settled_done w pid c r :
  reachable w -> children w !! pid = Some c -> c_state c = Some r ->
  c_listening c = false /\ exists ev, c_event c = Some ev /\ resultOf ev = r.
Proof.
  intros R Hc Hs. pose proof (reachable_child_ok _ _ _ R Hc) as Hok.
  unfold child_ok in Hok. destruct (c_listening c).
  - destruct Hok as (_ & _ & _ & Hn & _). congruence.
  - split; [done|]. destruct Hok as (_ & _ & _ & ev & Hev & Hst).
    exists ev. split; [done | congruence].
Qed.

Lemma catchjob_step w a item e :
  CatchJob item (Rejected e) ∈ microtasks (step w a) ->
  CatchJob item (Rejected e) ∈ microtasks w
  \/ ThenJob item (Rejected e) ∈ microtasks w.
Proof.
  destruct a as [osig| |sig|p code|p|].
  - simpl. destruct (microtasks_run_cases osig w) as [->|(_ & it & ->)]; [by left|].
    intros [H|H%list_elem_of_singleton]%elem_of_app; [by left | done].
  - by left.
  - intros H. left. revert H. by apply event_frame.
  - intros H. left. revert H. by apply event_frame.
  - intros H. left. revert H. by apply event_frame.
  - simpl. unfold tick. destruct (microtasks w) as [|m ms] eqn:Em.
    { rewrite Em. by left. }
    assert (forall m' w', microtasks w' = ms -> m' <> CatchJob item (Rejected e) ->
              CatchJob item (Rejected e) ∈ microtasks (enqueue m' w') ->
              CatchJob item (Rejected e) ∈ m :: ms) as Henq.
    { intros m' w' Hw' Hm'. rewrite microtasks_enqueue, Hw'.
      intros [H|H%list_elem_of_singleton]%elem_of_app; [by right | congruence]. }
    destruct m as [it [|e']|it [|e']|].
    + intros H. left. revert H. apply Henq; [|done]. by rewrite microtasks_onFulfilled.
    + rewrite microtasks_enqueue. simpl.
      intros [H|H%list_elem_of_singleton]%elem_of_app.
      * left. by right.
      * right. injection H as -> ->. left.
    + intros H. left. revert H. by apply Henq.
    + intros H. left. revert H. apply Henq; [|done].
      unfold onRejected. by rewrite settle_microtasks.
    + destruct (microtasks_runNext_cases (with_microtasks ms w)) as [->|(_ & it & ->)];
        simpl.
      * intros H. left. by right.
      * intros [H|H%list_elem_of_singleton]%elem_of_app; [left; by right | done].
Qed.

Lemma reachable_passed w : reachable w -> Passed w.
Proof.
  induction 1 as [i cmd|w a R IH].
  { intros item e H. simpl in H. by apply elem_of_nil in H. }
  intros item e Hin. destruct (identity_step w a) as [_ ->].
  assert ((e = SpawnThrew /\ spawn_throws (command (this w)) = true)
          \/ exists pid c, children w !! pid = Some c /\ c_consumer c = Drained item
                           /\ c_state c = Some (Rejected e))
    as [?|(pid & c & Hc & Hd & Hs)]; [|by left|].
  { destruct (catchjob_step _ _ _ _ Hin) as [H|H].
    - by apply IH.
    - destruct (reachable_sourced w R _ _ H) as [[[= ->] ?]|?]; [by left | by right]. }
  right. exists pid, c. split; [|done]. apply done_persists; [done|].
  by destruct (settled_done w pid c _ R Hc Hs) as [? _].
Qed.

Lemma caused_step w a k r : reachable w -> caused w k r -> caused (step w a) k r.
Proof.
  intros R [->|[[-> Ht]|(pid & c & ev & Hc & Hev & Hr & Hk)]]; [by left| |].
  { right. left. split; [done|]. by destruct (identity_step w a) as [_ ->]. }
  right. right. exists pid, c, ev. split; [|done]. apply done_persists; [done|].
  pose proof (reachable_child_ok _ _ _ R Hc) as Hok. unfold child_ok in Hok.
  destruct (c_listening c); [|done]. destruct Hok as (_ & _ & _ & _ & Hn). congruence.
Qed.

(** The promise of a direct call whose [spawn] throws is rejected when
    [run] returns. *)
Lemma promises_exec_direct (osig : option nat) w :
  promises (exec osig (Direct (length (promises w))) (new_promise None w))
  = promises w ++ [if spawn_throws (command (this w))
                   then Some (Rejected SpawnThrew) else None].
Proof.
  unfold exec. simpl. destruct (spawn_throws (command (this w))); [|done].
  unfold settle. simpl. rewrite lookup_snoc_new. simpl.
  rewrite insert_app_r_alt by done. by rewrite Nat.sub_diag.
Qed.

Lemma promises_run osig w :
  promises (fst (run osig w))
  = promises w
    ++ [if is_aborted osig w then Some (Rejected SignalAlreadyAborted)
        else if is_successful osig w then Some Resolved
        else if match osig with Some _ => _memoize (this w) | None => false end
             then None
             else if spawn_throws (command (this w))
                  then Some (Rejected SpawnThrew) else None].
Proof.
  unfold run. destruct (is_aborted osig w); [done|].
  destruct (is_successful osig w); [done|].
  destruct osig as [s|]; [|apply promises_exec_direct].
  destruct (_memoize (this w)); [|apply promises_exec_direct].
  cbn [fst]. by rewrite promises_runNext.
Qed.

Lemma justified_step w a : reachable w -> Justified w -> Justified (step w a).
Proof.
  intros R J k r Hs.
  assert (promises w !! k = Some (Some r) -> caused (step w a) k r) as Hold.
  { intros Hk. by apply caused_step, J. }
  assert (forall pid c, children w !! pid = Some c -> c_state c = Some r ->
            (child_call c = k \/ (r = Resolved /\ exists item, c_consumer c = Drained item)) ->
            caused (step w a) k r) as Hnew.
  { intros pid c Hc Hst Hk.
    destruct (settled_done w pid c r R Hc Hst) as (L & ev & Hev & Hr).
    right. right. exists pid, c, ev. split; [by apply done_persists|done]. }
  assert (r = Rejected SpawnThrew -> spawn_throws (command (this w)) = true ->
          caused (step w a) k r) as Hthrow.
  { intros -> Ht. right. left. split; [done|].
    by destruct (identity_step w a) as [_ ->]. }
  destruct a as [osig| |sig|p code|p|].
  - simpl in Hs. rewrite promises_run in Hs.
    apply lookup_app_Some in Hs as [Hs|[_ Hs]]; [by apply Hold|].
    apply list_lookup_singleton_Some in Hs as [_ Hs].
    destruct (is_aborted osig w); [left; congruence|].
    destruct (is_successful osig w) eqn:Hsucc.
    + injection Hs as <-. unfold is_successful in Hsucc.
      destruct osig as [s|]; [|done]. apply andb_prop in Hsucc as [_ Hin].
      apply bool_decide_eq_true in Hin.
      destruct (recorded_has_exited_zero w s R Hin)
        as (pid & c & item & Hc & Hd & _ & Hev).
      pose proof (reachable_child_ok _ _ _ R Hc) as Hok. unfold child_ok in Hok.
      destruct (c_listening c) eqn:L.
      { destruct Hok as (_ & _ & _ & _ & Hn). congruence. }
      destruct Hok as (_ & _ & _ & ev & Hev' & Hst).
      apply (Hnew pid c Hc).
      * rewrite Hst. f_equal. apply resultOf_resolved. congruence.
      * right. split; [done|]. by exists item.
    + destruct (match osig with Some _ => _memoize (this w) | None => false end);
        [done|].
      destruct (spawn_throws (command (this w))) eqn:Ht; [|done].
      injection Hs as <-. by apply Hthrow.
  - by apply Hold.
  - destruct (event_settles w (Abort sig) k r R)
      as [?|(pid & c & ev & Hc & Hk & Hev & Hr)]; [done..|by apply Hold|].
    right. right. exists pid, c, ev. auto.
  - destruct (event_settles w (Close p code) k r R)
      as [?|(pid & c & ev & Hc & Hk & Hev & Hr)]; [done..|by apply Hold|].
    right. right. exists pid, c, ev. auto.
  - destruct (event_settles w (Error p) k r R)
      as [?|(pid & c & ev & Hc & Hk & Hev & Hr)]; [done..|by apply Hold|].
    right. right. exists pid, c, ev. auto.
  - simpl in Hs. destruct (microtasks w) as [|m ms] eqn:Em.
    { unfold tick in Hs. rewrite Em in Hs. by apply Hold. }
    destruct m as [item [|e]|item [|e]|].
    + rewrite (tick_then_resolved _ _ _ Em) in Hs. unfold enqueue in Hs.
      cbn [promises with_microtasks] in Hs. rewrite promises_onFulfilled in Hs.
      rewrite (settle_all_promises_ext _ _ (with_microtasks ms w) w eq_refl) in Hs.
      apply settle_all_settled_inv in Hs as [Hs|[_ ->]]; [by apply Hold|].
      destruct (reachable_sourced w R item Resolved)
        as [[? _]|(pid & c & Hc & Hd & Hst)]; [rewrite Em; left | done |].
      apply (Hnew pid c Hc Hst). right. split; [done|]. by exists item.
    + rewrite (tick_then_rejected _ _ _ _ Em) in Hs. by apply Hold.
    + rewrite (tick_catch_resolved _ _ _ Em) in Hs. by apply Hold.
    + rewrite (tick_catch_rejected _ _ _ _ Em) in Hs. unfold enqueue in Hs.
      cbn [promises with_microtasks] in Hs.
      rewrite (settle_all_promises_ext [promise item] (Rejected e)
                 (with_microtasks ms w) w eq_refl : promises (settle _ _ _) = _) in Hs.
      apply settle_settled_inv in Hs as [Hs|[-> ->]]; [by apply Hold|].
      destruct (reachable_passed w R item e)
        as [[-> Ht]|(pid & c & Hc & Hd & Hst)]; [rewrite Em; left | by apply Hthrow |].
      apply (Hnew pid c Hc Hst). left. unfold child_call. by rewrite Hd.
    + rewrite (tick_finally _ _ Em), promises_runNext in Hs. by apply Hold.
Qed.

Lemma reachable_justified w : reachable w -> Justified w.
Proof.
  induction 1 as [i cmd|w a R IH].
  - intros k r H. simpl in H. by rewrite lookup_nil in H.
  - by apply justified_step.
Qed.

End Causes.

(** X8: every result has a cause.  In every reachable world a call of
    [run] is rejected only with the refusal of a signal that was aborted
    when it was made, or with what [spawn] threw (and then the command of
    the object is one that [spawn] refuses, so no execution of the object
    ever got a handle), or with the error of the execution that was made
    for this call: the failure or the abort of another execution rejects
    no other call.  A call is resolved only if an execution closed with
    code 0: the one made for the call, or a drained one. *)
Theorem settled_call_has_a_cause (w : World) (k : CallId) :
  reachable w ->
  (forall e, outcome w k = Some (Rejected e) ->
     e = SignalAlreadyAborted
     \/ (e = SpawnThrew /\ spawn_throws (command (this w)) = true
         /\ children w = [])
     \/ exists pid c ev, children w !! pid = Some c /\ child_call c = k
                         /\ c_event c = Some ev /\ resultOf ev = Rejected e)
  /\ (outcome w k = Some Resolved ->
      spawn_throws (command (this w)) = false
      /\ exists pid c, children w !! pid = Some c
                       /\ c_event c = Some (EvClose (Some 0%Z))
                       /\ (child_call c = k \/ exists item, c_consumer c = Drained item)).
Proof.
  intros R. pose proof (reachable_justified w R) as J.
  assert (forall r, outcome w k = Some r -> promises w !! k = Some (Some r)) as Hout.
  { intros r. unfold outcome. by destruct (promises w !! k) as [[?|]|]; intros [= <-]. }
  split.
  - intros e He.
    destruct (J k _ (Hout _ He))
      as [[= ->]|[[[= ->] Ht]|(pid & c & ev & Hc & Hev & Hr & Hk)]].
    + by left.
    + right. left. split; [done|]. split; [done|].
      by destruct (reachable_barren w R Ht) as (? & _).
    + right. right. exists pid, c, ev. destruct Hk as [Hk|[? _]]; done.
  - intros Hr.
    destruct (J k _ (Hout _ Hr)) as [?|[[? _]|(pid & c & ev & Hc & Hev & Hres & Hk)]];
      [done..|].
    split; [by apply (child_accepted w pid c)|].
    exists pid, c. split; [done|]. apply resultOf_resolved in Hres as ->.
    split; [done|]. destruct Hk as [Hk|[_ Hk]]; auto.
Qed.

Lemma settled_call_has_a_cause_witness :
  let w := steps (create 1 "job")
             [CallMemoize; CallRun (Some 1); CallRun (Some 2); Error 0; Tick; Tick; Tick;
              Close 1 (Some 0%Z); Tick; Tick] in
  let w' := steps (create 2 "") [CallRun None] in
  outcome w 0 = Some (Rejected ProcessError) /\ outcome w 1 = Some Resolved
  /\ outcome w' 0 = Some (Rejected SpawnThrew)
  /\ (exists pid c ev, children w !! pid = Some c /\ child_call c = 0
                       /\ c_event c = Some ev /\ resultOf ev = Rejected ProcessError)
  /\ (exists pid c, children w !! pid = Some c
                    /\ c_event c = Some (EvClose (Some 0%Z))
                    /\ (child_call c = 1 \/ exists item, c_consumer c = Drained item))
  /\ children w' = [].
Proof.
  intros w w'.
  assert (reachable w) as R by apply reachable_steps, reach_create.
  assert (reachable w') as R' by apply reachable_steps, reach_create.
  assert (outcome w 0 = Some (Rejected ProcessError)) as H0 by by vm_compute.
  assert (outcome w 1 = Some Resolved) as H1 by by vm_compute.
  assert (outcome w' 0 = Some (Rejected SpawnThrew)) as H2 by by vm_compute.
  split; [done|]. split; [done|]. split; [done|]. split; [|split].
  - destruct (settled_call_has_a_cause w 0 R) as [H _].
    by destruct (H _ H0) as [?|[(? & _)|?]].
  - destruct (settled_call_has_a_cause w 1 R) as [_ H]. by apply H.
  - destruct (settled_call_has_a_cause w' 0 R') as [H _].
    by destruct (H _ H2) as [?|[(_ & _ & ?)|(pid & c & ev & _ & _ & _ & ?)]].
Defined.


(** ** One drained execution at a time *)

Section Overlap.
Implicit Types (w : World) (pid : Pid) (c : Child) (sig : Signal).

Lemma spawns_handler ev r p w : spawns (handler ev r p w) = spawns w.
Proof. unfold spawns. by rewrite children_handler, length_alter. Qed.

Lemma spawns_dispatchAborts sig pids w :
  spawns (foldl (dispatchAbort sig) w pids) = spawns w.
Proof.
  revert w. induction pids as [|p pids IH]; intros w; simpl; [done|].
  rewrite IH. unfold dispatchAbort. destruct (children w !! p) as [c|]; [|done].
  destruct (hears sig c); [|done]. apply (spawns_handler EvAbort).
Qed.

(** While the slot is taken, a step spawns a child only for a direct call. *)
Lemma busy_no_spawn w a p :
  _childProcess (this w) = Some p -> AllDrained (step w a) ->
  spawns (step w a) = spawns w.
Proof.
  intros Hs A. destruct a as [osig| |sig|q code|q|]; simpl in *.
  - unfold run in *. destruct (is_aborted osig w); [done|].
    destruct (is_successful osig w); [done|].
    assert (AllDrained (exec osig (Direct (length (promises w))) (new_promise None w))
            -> spawns (exec osig (Direct (length (promises w))) (new_promise None w))
               = spawns w) as Hno.
    { destruct (exec_cases osig (Direct (length (promises w))) (new_promise None w))
        as [[_ ->]|[_ ->]].
      - intros _. unfold spawns. by rewrite children_thrown.
      - intros HA.
        destruct (HA (length (children w)) _ (lookup_snoc_new _ _)) as [? ?]. done. }
    destruct osig as [s|]; [|by apply Hno].
    destruct (_memoize (this w)); [|by apply Hno].
    cbn [fst]. by rewrite (runNext_busy _ p).
  - done.
  - unfold abort. destruct (bool_decide (sig ∈ aborted w)); [done|].
    apply (spawns_dispatchAborts sig _ (with_aborted _ w)).
  - unfold emitClose. destruct (children w !! q) as [c|]; [|done].
    destruct (c_listening c); [|done]. rewrite onClose_unfold.
    apply (spawns_handler (EvClose code)).
  - unfold emitError. destruct (children w !! q) as [c|]; [|done].
    destruct (c_listening c); [|done]. apply (spawns_handler EvError).
  - unfold tick. destruct (microtasks w) as [|m ms]; [done|].
    destruct m as [item [|e]|item [|e]|].
    + unfold spawns. by rewrite children_enqueue, children_onFulfilled.
    + done.
    + done.
    + unfold spawns, onRejected. by rewrite children_enqueue, settle_children.
    + by rewrite (runNext_busy _ p).
Qed.

End Overlap.

(** X9: drained executions do not overlap.  As long as every execution
    of the object is a drained one, at most one child is running, it is
    the one in the slot, and while it runs no step spawns another: the
    next item is executed only after the handler of the running child
    has run [cleanup]. *)
Theorem drained_executions_do_not_overlap (w : World) (a : Action) :
  reachable w -> AllDrained (step w a) ->
  (forall pid1 pid2, live w pid1 = true -> live w pid2 = true -> pid1 = pid2)
  /\ (forall pid, live w pid = true ->
        _childProcess (this w) = Some pid /\ spawns (step w a) = spawns w)
  /\ (spawns (step w a) <> spawns w -> forall pid, live w pid = false).
Proof.
  intros R A. pose proof (alldrained_back w a A) as A0.
  destruct (drained_one_at_a_time w R A0) as [S _].
  assert (forall pid, live w pid = true -> _childProcess (this w) = Some pid) as Hslot.
  { intros pid. unfold live. destruct (children w !! pid) as [c|] eqn:Hc; [|done].
    intros L. by apply (S pid c). }
  split; [|split].
  - intros pid1 pid2 L1 L2. apply Hslot in L1, L2. congruence.
  - intros pid L. split; [by apply Hslot|].
    by apply (busy_no_spawn w a pid); [apply Hslot|].
  - intros Hne pid. destruct (live w pid) eqn:L; [|done].
    destruct Hne. by apply (busy_no_spawn w a pid); [apply Hslot|].
Qed.

Lemma drained_executions_do_not_overlap_witness :
  let w := steps (create 1 "job") [CallMemoize; CallRun (Some 1)] in
  live w 0 = true
  /\ _childProcess (this w) = Some 0
  /\ spawns (step w (CallRun (Some 2))) = spawns w.
Proof.
  intros w.
  assert (reachable w) as R by apply reachable_steps, reach_create.
  assert (AllDrained (step w (CallRun (Some 2)))) as A.
  { intros pid c H. apply list_elem_of_lookup_2 in H. revert H. vm_compute.
    intros H. repeat (apply elem_of_cons in H as [->|H]; [by eexists|]).
    by apply elem_of_nil in H. }
  assert (live w 0 = true) as L by by vm_compute.
  split; [done|].
  destruct (drained_executions_do_not_overlap w (CallRun (Some 2)) R A) as (_ & H & _).
  by apply H.
Defined.


(** * A failure and the next call with the same signal *)

Section AfterFailure.
Implicit Types (w : World) (pid : Pid) (c : Child) (item : QueueItem) (sig : Signal).















End AfterFailure.



